(** * Batch submission engine of the token multi-sender

    A shallow embedding of [scripts/multisend.mjs] (the scripted driver) and
    of [frontend/src/App.tsx] (the UI event handler), together with the
    properties of the engine: paced retry, capacity probing, chunk
    partitioning, duplicate detection, resumption filtering and checkpoint
    bookkeeping.

    The development also embeds the readers of the input
    ([parseCsvRecipients], [parseJsonRecipients] and [normalizeAmountString]
    of the script, [parseCsv] of [frontend/src/lib/csv.ts]), the converter
    [scripts/convert_csvjson_to_csv.mjs] and the contract
    [contracts/BatchSender.sol], with what the readers accept, what the
    converter writes, and when a batch succeeds on chain. *)

From stdpp Require Import base numbers list strings gmap pretty.
From Stdlib Require Import ZArith Lia Ascii.

Local Open Scope Z_scope.

(** ** JavaScript array helpers *)

(** [Array.prototype.slice] resolves a negative index from the end of the
    array and clamps both indices to the array bounds. *)
Definition js_index (len k : Z) : Z :=
  if k <? 0 then Z.max (len + k) 0 else Z.min k len.

Definition slice {A} (arr : list A) (start stop : Z) : list A :=
  let len := Z.of_nat (length arr) in
  let from := js_index len start in
  let upto := js_index len stop in
  take (Z.to_nat (upto - from)) (drop (Z.to_nat from) arr).

(** ** Chunk partitioning *)

(** [chunk(array, size)] of the script:
    [for (let i = 0; i < array.length; i += size) chunks.push(array.slice(i, i + size))].
    The loop does not terminate for [size <= 0] on a non-empty array, so the
    loop carries fuel and [None] stands for a loop that never exits. *)
Fixpoint chunk_loop {A} (fuel : nat) (array : list A) (size i : Z)
    (chunks : list (list A)) : option (list (list A)) :=
  if i <? Z.of_nat (length array) then
    match fuel with
    | O => None
    | S fuel' =>
        chunk_loop fuel' array size (i + size) (chunks ++ [slice array i (i + size)])
    end
  else Some chunks.

Definition chunk {A} (array : list A) (size : Z) : option (list (list A)) :=
  chunk_loop (length array) array size 0 [].

Module App_chunk.
(** The arrow function [chunk] local to [onSend] in App.tsx:
    [for (let i = 0; i < arr.length; i += size) out.push(arr.slice(i, i + size))]. *)
Fixpoint chunk_loop {A} (fuel : nat) (arr : list A) (size i : Z)
    (out : list (list A)) : option (list (list A)) :=
  if i <? Z.of_nat (length arr) then
    match fuel with
    | O => None
    | S fuel' => chunk_loop fuel' arr size (i + size) (out ++ [slice arr i (i + size)])
    end
  else Some out.

Definition chunk {A} (arr : list A) (size : Z) : option (list (list A)) :=
  chunk_loop (length arr) arr size 0 [].
End App_chunk.

(** ** JavaScript sets of strings

    A JS [Set] iterates in insertion order and ignores the insertion of a
    member it already has: a duplicate-free list in insertion order. *)
Definition set_has (k : string) (s : list string) : bool := bool_decide (k ∈ s).

Definition set_add (k : string) (s : list string) : list string :=
  if set_has k s then s else s ++ [k].

Definition set_add_all (ks : list string) (s : list string) : list string :=
  foldl (fun acc k => set_add k acc) s ks.

(** [new Set(iterable)] *)
Definition new_Set (ks : list string) : list string := set_add_all ks [].

(** ** Strings *)

Definition ascii_lower (c : ascii) : ascii :=
  let n := nat_of_ascii c in
  if ((65 <=? n) && (n <=? 90))%nat then ascii_of_nat (n + 32) else c.

(** [String.prototype.toLowerCase] on the ASCII range. *)
Fixpoint toLowerCase (s : string) : string :=
  match s with
  | EmptyString => EmptyString
  | String c s' => String (ascii_lower c) (toLowerCase s')
  end.

(** [RegExp.prototype.test] for a pattern that is a plain substring. *)
Fixpoint includes (pat s : string) : bool :=
  String.prefix pat s
  || match s with
     | EmptyString => false
     | String _ s' => includes pat s'
     end.

(** A string is falsy in JS exactly when it is empty; an unset environment
    variable or command-line option is modelled by the empty string. *)
Definition truthy (s : string) : bool := negb (String.eqb s "").

(** ** Errors, outcomes and the state-and-exception monad *)

(** A thrown value, reduced to what the code inspects: [e.status] and
    [e.message]. *)
Record Error := mkError { status : option Z; message : string }.

(** [new Error(msg)] *)
Definition js_error (msg : string) : Error := {| status := None; message := msg |}.

(** What an awaited computation does: it returns, it throws, or it never
    finishes ([Diverge], reached only when a loop runs out of fuel). *)
Inductive Outcome (A : Type) : Type :=
| Ok (a : A)
| Throw (e : Error)
| Diverge.
Arguments Ok {A} a.
Arguments Throw {A} e.
Arguments Diverge {A}.

Definition St (S A : Type) : Type := S -> Outcome A * S.

Definition ret {S A} (a : A) : St S A := fun s => (Ok a, s).

Definition throw {S A} (e : Error) : St S A := fun s => (Throw e, s).

Definition diverge {S A} : St S A := fun s => (Diverge, s).

Definition bind {S A B} (m : St S A) (k : A -> St S B) : St S B :=
  fun s =>
    match m s with
    | (Ok a, s') => k a s'
    | (Throw e, s') => (Throw e, s')
    | (Diverge, s') => (Diverge, s')
    end.

(** [try { m } catch (e) { handler e }] *)
Definition try_catch {S A} (m : St S A) (handler : Error -> St S A) : St S A :=
  fun s =>
    match m s with
    | (Throw e, s') => handler e s'
    | r => r
    end.

(** [try { m } finally { fin }] for a [fin] that cannot throw. *)
Definition finally {S A} (m : St S A) (fin : S -> S) : St S A :=
  fun s => let '(r, s') := m s in (r, fin s').

Notation "'let*' x ':=' m 'in' k" := (bind m (fun x => k))
  (at level 10, x pattern, m at level 100, k at level 200).
Notation "m ';;' k" := (bind m (fun _ => k))
  (at level 100, k at level 200, right associativity).

(** ** The remote endpoint and the clock *)

Record Tx := mkTx { hash : string }.

(** A receipt, reduced to [rcpt?.gasUsed]. *)
Definition Receipt : Type := option Z.

Inductive Request : Type :=
| TokenDecimals (token : string)
| TokenAllowance (token owner spender : string)
| TokenApprove (token spender : string) (amount : Z)
| TxWait (tx : Tx)
| GetBalance (account : string)
| GetBlockLatest
| SignerGetAddress
| EstimateGasNative (batch : string) (recipients : list string) (amounts : list Z) (value : Z)
| EstimateGasERC20 (batch token : string) (recipients : list string) (amounts : list Z)
| BatchTransferNative (batch : string) (recipients : list string) (amounts : list Z) (value : Z)
| BatchTransferERC20 (batch token : string) (recipients : list string) (amounts : list Z).

Inductive Reply (A : Type) : Type :=
| Returns (a : A)
| Rejects (e : Error).
Arguments Returns {A} a.
Arguments Rejects {A} e.

Definition returned {A} (r : Reply A) : bool :=
  match r with Returns _ => true | Rejects _ => false end.

Definition outcome_of {A} (r : Reply A) : Outcome A :=
  match r with Returns a => Ok a | Rejects e => Throw e end.

(** The remote endpoint is an opaque collaborator: the answer to a request
    may depend on the request and on how many invocations came before it
    (the index), which covers every stateful or unreliable behaviour.
    [latency] is the time an invocation takes and [random_below k b] the
    value of [Math.floor(Math.random() * b)] at the [k]-th draw. *)
Record Remote := {
  reply_num : nat -> Request -> Reply Z;
  reply_tx : nat -> Request -> Reply Tx;
  reply_receipt : nat -> Request -> Reply Receipt;
  reply_block : nat -> Request -> Reply (option Z);
  reply_account : nat -> Request -> Reply string;
  latency : nat -> Z;
  random_below : nat -> Z -> Z
}.

Inductive NetEvent : Type :=
| EvCall (req : Request) (ok : bool)
| EvSleep (ms : Z).

(** The state the remote operations thread: the clock [Date.now()], the
    pacing variable [lastCallAt], the number of invocations and of random
    draws so far, and the history of invocations and sleeps. *)
Record Net := mkNet {
  now : Z;
  lastCallAt : Z;
  ncalls : nat;
  ndraws : nat;
  history : list NetEvent
}.

Definition net0 : Net :=
  {| now := 0; lastCallAt := 0; ncalls := 0; ndraws := 0; history := [] |}.

Section remote_operations.
Variable rem : Remote.

(** One invocation of a remote operation. *)
Definition invoke {A} (reply : Remote -> nat -> Request -> Reply A)
    (req : Request) : St Net A :=
  fun n =>
    let r := reply rem (ncalls n) req in
    (outcome_of r,
     {| now := now n + latency rem (ncalls n);
        lastCallAt := lastCallAt n;
        ncalls := S (ncalls n);
        ndraws := ndraws n;
        history := history n ++ [EvCall req (returned r)] |}).

(** [await sleep(ms)]: a timer with a non-positive delay fires at once. *)
Definition sleep (ms : Z) : St Net unit :=
  fun n =>
    (Ok tt,
     {| now := now n + Z.max 0 ms;
        lastCallAt := lastCallAt n;
        ncalls := ncalls n;
        ndraws := ndraws n;
        history := history n ++ [EvSleep ms] |}).

Definition dateNow : St Net Z := fun n => (Ok (now n), n).

Definition get_lastCallAt : St Net Z := fun n => (Ok (lastCallAt n), n).

Definition set_lastCallAt (t : Z) : St Net unit :=
  fun n =>
    (Ok tt,
     {| now := now n; lastCallAt := t; ncalls := ncalls n;
        ndraws := ndraws n; history := history n |}).

(** [Math.floor(Math.random() * bound)] *)
Definition random_floor (bound : Z) : St Net Z :=
  fun n =>
    (Ok (random_below rem (ndraws n) bound),
     {| now := now n; lastCallAt := lastCallAt n; ncalls := ncalls n;
        ndraws := S (ndraws n); history := history n |}).
End remote_operations.

(** ** Configuration of the script

    The numeric settings are read with [Number(...)]; they are modelled as
    integers. String settings that are unset are the empty string. *)
Record Config := {
  PRIVATE_KEY : string;
  RATE_LIMIT_INTERVAL_MS : Z;
  RETRY_MAX_ATTEMPTS : Z;
  RETRY_BASE_MS : Z;
  RETRY_MAX_MS : Z;
  SLEEP_BETWEEN_TX_MS : Z;
  CHECKPOINT_FILE : string;
  DISABLE_CHECKPOINTS : bool;
  absoluteInput : string;
  tokenAddress : string;
  batchAddress : string;
  decimalsOverride : option Z;
  isNative : bool
}.

Section paced_retry.
Variable rem : Remote.
Variable cfg : Config.

(** [limitPace] (multisend.mjs, inside [main]) *)
Definition limitPace : St Net unit :=
  if RATE_LIMIT_INTERVAL_MS cfg <=? 0 then ret tt
  else
    let* t := dateNow in
    let* last := get_lastCallAt in
    let wait := last + RATE_LIMIT_INTERVAL_MS cfg - t in
    (if 0 <? wait then sleep wait else ret tt);;
    let* t' := dateNow in
    set_lastCallAt t'.

(** [isRateLimitError]:
    [e?.status === 429 || /429|rate limit|too many requests/.test(msg)]
    with [msg] the lower-cased message. *)
Definition isRateLimitError (e : Error) : bool :=
  let msg := toLowerCase (message e) in
  bool_decide (status e = Some 429)
  || includes "429" msg || includes "rate limit" msg
  || includes "too many requests" msg.

(** [callWithRetry(fn, label)]: the body of [for (;;)], with [attempt] and
    [delay] the loop variables. [Math.floor(delay * 0.2)] is [delay / 5]
    on the integers. The label only feeds a verbose diagnostic, which is
    not modelled. *)
Fixpoint callWithRetry_loop {A} (fuel : nat) (fn : St Net A)
    (attempt delay : Z) : St Net A :=
  match fuel with
  | O => diverge
  | S fuel' =>
      try_catch (limitPace;; fn)
        (fun e =>
           let attempt := attempt + 1 in
           let rateLimited := isRateLimitError e in
           if negb rateLimited && (RETRY_MAX_ATTEMPTS cfg <=? attempt) then throw e
           else if RETRY_MAX_ATTEMPTS cfg <=? attempt then throw e
           else
             let* jitter := random_floor rem (Z.max 1 (delay / 5)) in
             let waitMs := Z.min (delay + jitter) (RETRY_MAX_MS cfg) in
             sleep waitMs;;
             callWithRetry_loop fuel' fn attempt (Z.min (delay * 2) (RETRY_MAX_MS cfg)))
  end.

Definition callWithRetry {A} (fn : St Net A) : St Net A :=
  callWithRetry_loop (S (Z.to_nat (RETRY_MAX_ATTEMPTS cfg))) fn 0 (RETRY_BASE_MS cfg).
End paced_retry.

(** ** The ethers library and the JS runtime

    Library functions the engine calls but does not define. [getAddress]
    is [None] where [ethers.getAddress] throws; [parseUnits] rejects where
    [ethers.parseUnits] throws; [walletAddress] is the address of
    [new ethers.Wallet(key)], which throws on a malformed key;
    [sha256hex] is [crypto.createHash('sha256').update(s).digest('hex')];
    [gasBudgetOf limit] is
    [BigInt(Math.floor(Number(limit) * MAX_GAS_FRACTION))], a floating-point
    product. *)
Record Host := {
  getAddress : string -> option string;
  isAddress : string -> bool;
  parseUnits : string -> Z -> Reply Z;
  walletAddress : string -> Reply string;
  sha256hex : string -> string;
  gasBudgetOf : Z -> Z
}.

(** [ethers.parseEther(s)] is [parseUnits(s, 18)]. *)
Definition parseEther (host : Host) (s : string) : Reply Z := parseUnits host s 18.

(** ** The checkpoint file and the console *)

(** The checkpoint document maps a session identifier to the array
    [sentKeys] of that session. *)
Abbreviation Checkpoints := (gmap string (list string)).

(** What the checkpoint file holds: a checkpoint document, JSON that parses
    to a falsy value ([null], [0], ...), or bytes that cannot be read or
    parsed. *)
Inductive FileContent : Type :=
| JsonDoc (doc : Checkpoints)
| JsonFalsy
| Unreadable.

Inductive FsEvent : Type :=
| FsExists
| FsRead
| FsWrite (doc : Checkpoints) (ok : bool).

Inductive ConsoleLine : Type :=
| Warn (msg : string)
| ErrorLine (msg : string) (e : Error).

(** The state of a run of the script: the network side, the checkpoint
    file ([None] when it does not exist), the number of writes attempted,
    the file operations performed, and the warnings and errors printed. *)
Record World := mkWorld {
  net : Net;
  file : option FileContent;
  nwrites : nat;
  fslog : list FsEvent;
  console : list ConsoleLine
}.

Definition lift {A} (m : St Net A) : St World A :=
  fun w =>
    let '(r, n') := m (net w) in
    (r, {| net := n'; file := file w; nwrites := nwrites w;
           fslog := fslog w; console := console w |}).

Definition print (line : ConsoleLine) : St World unit :=
  fun w =>
    (Ok tt, {| net := net w; file := file w; nwrites := nwrites w;
               fslog := fslog w; console := console w ++ [line] |}).

(** [fs.existsSync(CHECKPOINT_FILE)] *)
Definition existsSync : St World bool :=
  fun w =>
    (Ok (bool_decide (is_Some (file w))),
     {| net := net w; file := file w; nwrites := nwrites w;
        fslog := fslog w ++ [FsExists]; console := console w |}).

(** [JSON.parse(fs.readFileSync(CHECKPOINT_FILE, 'utf8')) || {}] *)
Definition readCheckpoints : St World Checkpoints :=
  fun w =>
    (match file w with
     | Some (JsonDoc doc) => Ok doc
     | Some JsonFalsy => Ok ∅
     | Some Unreadable => Throw (js_error "Unexpected token in JSON")
     | None => Throw (js_error "ENOENT: no such file or directory")
     end,
     {| net := net w; file := file w; nwrites := nwrites w;
        fslog := fslog w ++ [FsRead]; console := console w |}).

(** [fs.writeFileSync(CHECKPOINT_FILE, JSON.stringify(checkpoints, null, 2))].
    [write_error k] is the error of the [k]-th write, if it fails; a failed
    write is taken to leave the file as it was. *)
Definition writeFileSync (write_error : nat -> option Error) (doc : Checkpoints)
    : St World unit :=
  fun w =>
    match write_error (nwrites w) with
    | None =>
        (Ok tt, {| net := net w; file := Some (JsonDoc doc); nwrites := S (nwrites w);
                   fslog := fslog w ++ [FsWrite doc true]; console := console w |})
    | Some e =>
        (Throw e, {| net := net w; file := file w; nwrites := S (nwrites w);
                     fslog := fslog w ++ [FsWrite doc false]; console := console w |})
    end.

Definition world0 (f : option FileContent) : World :=
  {| net := net0; file := f; nwrites := 0; fslog := []; console := [] |}.

(** ** The scripted driver (multisend.mjs) *)

(** An element of the array returned by [loadRecipients]. *)
Record Recipient := mkRecipient { address : string; amountStr : string }.

(** An element of [validEntries]: [{ address, amountStr, amt }]. *)
Record Entry := mkEntry { e_address : string; e_amountStr : string; amt : Z }.

(** [makeKey] *)
Definition makeKey (address amountStr : string) : string :=
  address +:+ "|" +:+ amountStr.

(** The variables the validation loop updates. *)
Record Tally := mkTally {
  validEntries : list Entry;
  skippedInvalid : Z;
  skippedZero : Z
}.

(** What the first part of [main] hands to the rest. *)
Record Prepared := mkPrepared {
  wallet_address : string;
  checkpoints0 : Checkpoints;
  sentKeys0 : list string;
  tally : Tally
}.

Definition noRemainingEntries : Error :=
  js_error "No valid recipients/amounts remaining".

Definition duplicateAddressError (dups : list string) : Error :=
  js_error ("Duplicate recipient addresses found in input: " +:+ String.concat ", " dups).

Section script.
Variable rem : Remote.
Variable host : Host.
Variable write_error : nat -> option Error.
Variable cfg : Config.

(** A remote operation wrapped as the script wraps every one of them:
    [callWithRetry(() => op(...), label)]. *)
Definition retried {A} (reply : Remote -> nat -> Request -> Reply A)
    (req : Request) : St Net A :=
  callWithRetry rem cfg (invoke rem reply req).

(** The configuration checks at the head of [main], and the wallet. *)
Definition checkConfig : St World string :=
  (if negb (truthy (PRIVATE_KEY cfg)) then throw (js_error "Set PRIVATE_KEY env")
   else ret tt);;
  (if negb (truthy (batchAddress cfg))
   then throw (js_error "--batch BatchSender contract address is required or set BATCH_SENDER_ADDRESS")
   else ret tt);;
  (if negb (isNative cfg) && negb (truthy (tokenAddress cfg))
   then throw (js_error "ERC20 mode requires --token or TOKEN_ADDRESS")
   else ret tt);;
  match walletAddress host (PRIVATE_KEY cfg) with
  | Returns a => ret a
  | Rejects e => throw e
  end.

(** The pre-check loop over [entries]: [seenAddresses] and
    [duplicateAddresses] are the two sets; an address that
    [ethers.getAddress] rejects is ignored here. *)
Fixpoint scanDuplicates (entries : list Recipient)
    (seenAddresses duplicateAddresses : list string) : list string :=
  match entries with
  | [] => duplicateAddresses
  | r :: rest =>
      match getAddress host (address r) with
      | Some norm =>
          if set_has norm seenAddresses
          then scanDuplicates rest seenAddresses (set_add norm duplicateAddresses)
          else scanDuplicates rest (set_add norm seenAddresses) duplicateAddresses
      | None => scanDuplicates rest seenAddresses duplicateAddresses
      end
  end.

Definition checkDuplicates (entries : list Recipient) : St World unit :=
  let duplicateAddresses := scanDuplicates entries [] [] in
  if (0 <? length duplicateAddresses)%nat
  then throw (duplicateAddressError duplicateAddresses)
  else ret tt.

Definition sessionId (wallet : string) : string :=
  sha256hex host
    (wallet +:+ "|" +:+ batchAddress cfg +:+ "|"
     +:+ (if isNative cfg then "native" else tokenAddress cfg)
     +:+ "|" +:+ absoluteInput cfg).

(** [let checkpoints = {}; if (!DISABLE_CHECKPOINTS && fs.existsSync(...)) ...] *)
Definition loadCheckpoints : St World Checkpoints :=
  if DISABLE_CHECKPOINTS cfg then ret ∅
  else
    let* present := existsSync in
    if present then
      try_catch readCheckpoints
        (fun _ =>
           print (Warn ("[Checkpoint] Failed to read " +:+ CHECKPOINT_FILE cfg
                        +:+ ", starting fresh"));;
           ret ∅)
    else ret ∅.

(** The token decimals: 18 for the native asset, the override when there
    is one, else [token.decimals()] with 18 as the fallback. *)
Definition resolveDecimals : St World Z :=
  if negb (isNative cfg) then
    match decimalsOverride cfg with
    | Some d => ret d
    | None =>
        try_catch (lift (retried reply_num (TokenDecimals (tokenAddress cfg))))
          (fun _ =>
             print (Warn "Token decimals() not available; defaulting to 18. Set DECIMALS in .env to override.");;
             ret 18)
    end
  else ret 18.

(** The validation loop: an entry with an invalid address or a
    non-positive amount is counted and skipped, an entry whose key is in
    [sentKeys] is skipped unless checkpoints are disabled, and a thrown
    parse error ends the loop. *)
Fixpoint validateEntries (decimals : Z) (sentKeys : list string)
    (entries : list Recipient) (acc : Tally) : Reply Tally :=
  match entries with
  | [] => Returns acc
  | r :: rest =>
      if negb (isAddress host (address r)) then
        validateEntries decimals sentKeys rest
          {| validEntries := validEntries acc;
             skippedInvalid := skippedInvalid acc + 1;
             skippedZero := skippedZero acc |}
      else
        match (if isNative cfg then parseEther host (amountStr r)
               else parseUnits host (amountStr r) decimals) with
        | Rejects e => Rejects e
        | Returns a =>
            if a <=? 0 then
              validateEntries decimals sentKeys rest
                {| validEntries := validEntries acc;
                   skippedInvalid := skippedInvalid acc;
                   skippedZero := skippedZero acc + 1 |}
            else
              let key := makeKey (address r) (amountStr r) in
              if DISABLE_CHECKPOINTS cfg || negb (set_has key sentKeys) then
                validateEntries decimals sentKeys rest
                  {| validEntries :=
                       validEntries acc
                       ++ [{| e_address := address r; e_amountStr := amountStr r; amt := a |}];
                     skippedInvalid := skippedInvalid acc;
                     skippedZero := skippedZero acc |}
              else validateEntries decimals sentKeys rest acc
        end
  end.

(** [main] up to and including
    [if (validEntries.length === 0) throw new Error(...)]. *)
Definition prepare (entries : list Recipient) : St World Prepared :=
  let* wallet := checkConfig in
  checkDuplicates entries;;
  let* checkpoints := loadCheckpoints in
  let sentKeys := new_Set (default [] (checkpoints !! sessionId wallet)) in
  let* decimals := resolveDecimals in
  match validateEntries decimals sentKeys entries
          {| validEntries := []; skippedInvalid := 0; skippedZero := 0 |} with
  | Rejects e => throw e
  | Returns t =>
      if (length (validEntries t) =? 0)%nat then throw noRemainingEntries
      else
        ret {| wallet_address := wallet; checkpoints0 := checkpoints;
               sentKeys0 := sentKeys; tally := t |}
  end.

(** [amounts.reduce((a, b) => a + b, 0n)] *)
Definition sumAmounts (amounts : list Z) : Z := foldl Z.add 0 amounts.

(** The allowance check and approval for a token, the balance check for
    the native asset. *)
Definition ensureFunds (wallet : string) (total : Z) : St Net unit :=
  if negb (isNative cfg) then
    let* allowance :=
      retried reply_num (TokenAllowance (tokenAddress cfg) wallet (batchAddress cfg)) in
    if allowance <? total then
      let* tx := retried reply_tx (TokenApprove (tokenAddress cfg) (batchAddress cfg) total) in
      let* _ := retried reply_receipt (TxWait tx) in
      ret tt
    else ret tt
  else
    let* balance := retried reply_num (GetBalance wallet) in
    if balance <? total then
      throw (js_error ("Insufficient native balance. Required: " +:+ pretty total
                       +:+ ", Available: " +:+ pretty balance))
    else ret tt.

(** [latest?.gasLimit ?? 30_000_000n] scaled by the safety fraction. *)
Definition readGasBudget : St Net Z :=
  let* latest := retried reply_block GetBlockLatest in
  let blockGasLimit := default 30000000 latest in
  ret (gasBudgetOf host blockGasLimit).

Section prober.
Variables (recipients : list string) (amounts : list Z) (gasBudget : Z).

(** [estimateForCount(count)]: [null] when the estimate throws. *)
Definition estimateForCount (count : Z) : St Net (option Z) :=
  let r := slice recipients 0 count in
  let a := slice amounts 0 count in
  try_catch
    (if isNative cfg then
       let val := sumAmounts a in
       let* est := retried reply_num (EstimateGasNative (batchAddress cfg) r a val) in
       ret (Some est)
     else
       let* est := retried reply_num (EstimateGasERC20 (batchAddress cfg) (tokenAddress cfg) r a) in
       ret (Some est))
    (fun _ => ret None).

(** [!est || est >= gasBudget] for [est] a bigint or [null]. *)
Definition overBudget (est : option Z) : bool :=
  match est with
  | None => true
  | Some g => (g =? 0) || (gasBudget <=? g)
  end.

(** [est && est < gasBudget] *)
Definition withinBudget (est : option Z) : bool :=
  match est with
  | None => false
  | Some g => negb (g =? 0) && (g <? gasBudget)
  end.

(** [for (let test = 1; test <= high; test *= 2) ...]; the result is
    [(low, high, safe)] at the exit of the loop. *)
Fixpoint doublingLoop (fuel : nat) (test low high safe : Z) : St Net (Z * Z * Z) :=
  if test <=? high then
    match fuel with
    | O => diverge
    | S fuel' =>
        let* est := estimateForCount test in
        if overBudget est then ret (low, test, safe)
        else if test =? high then ret (test, high, test)
        else doublingLoop fuel' (test * 2) test high test
    end
  else ret (low, high, safe).

(** [while (low + 1 < high) ...]; the result is [safe] at the exit. *)
Fixpoint bisectLoop (fuel : nat) (low high safe : Z) : St Net Z :=
  if low + 1 <? high then
    match fuel with
    | O => diverge
    | S fuel' =>
        let mid := (low + high) / 2 in
        let* est := estimateForCount mid in
        if withinBudget est then bisectLoop fuel' mid high mid
        else bisectLoop fuel' low mid safe
    end
  else ret safe.

(** The search for a safe chunk size, [Math.max(1, safe)] at the end. *)
Definition findChunkSize : St Net Z :=
  let low := 1 in
  let high := Z.min (Z.of_nat (length recipients)) 512 in
  let safe := 1 in
  let* (low, high, safe) := doublingLoop (Z.to_nat high) 1 low high safe in
  let* safe := bisectLoop (Z.to_nat (high - low)) low high safe in
  ret (Z.max 1 safe).
End prober.

(** The bookkeeping after a confirmed chunk:
    [if (!DISABLE_CHECKPOINTS) { ... }]. The result is the pair of the
    set [sentKeys] and the object [checkpoints] after it. *)
Definition recordSent (wallet : string) (entriesChunk : list Entry)
    (sentKeys : list string) (checkpoints : Checkpoints)
    : St World (list string * Checkpoints) :=
  if negb (DISABLE_CHECKPOINTS cfg) then
    let newlySent := map (fun e => makeKey (e_address e) (e_amountStr e)) entriesChunk in
    let updated := set_add_all newlySent sentKeys in
    let checkpoints := <[sessionId wallet := updated]> checkpoints in
    try_catch (writeFileSync write_error checkpoints)
      (fun _ => print (Warn ("[Checkpoint] Failed to write " +:+ CHECKPOINT_FILE cfg +:+ ":")));;
    ret (set_add_all newlySent sentKeys, checkpoints)
  else ret (sentKeys, checkpoints).

(** One iteration of the sending loop: the body of
    [for (let i = 0; i < entryChunks.length; i++)]. *)
Definition sendChunk (wallet : string) (i : Z) (entriesChunk : list Entry)
    (sentKeys : list string) (checkpoints : Checkpoints)
    : St World (list string * Checkpoints) :=
  let r := map e_address entriesChunk in
  let a := map amt entriesChunk in
  let sum := sumAmounts a in
  try_catch
    (let* tx :=
       lift (if isNative cfg
             then retried reply_tx (BatchTransferNative (batchAddress cfg) r a sum)
             else retried reply_tx (BatchTransferERC20 (batchAddress cfg) (tokenAddress cfg) r a)) in
     let* _ := lift (retried reply_receipt (TxWait tx)) in
     let* st := recordSent wallet entriesChunk sentKeys checkpoints in
     (if 0 <? SLEEP_BETWEEN_TX_MS cfg then lift (sleep (SLEEP_BETWEEN_TX_MS cfg)) else ret tt);;
     ret st)
    (fun e =>
       print (ErrorLine ("[Send] Chunk " +:+ pretty (i + 1) +:+ " failed:") e);;
       throw e).

Fixpoint sendChunks (wallet : string) (i : Z) (entryChunks : list (list Entry))
    (sentKeys : list string) (checkpoints : Checkpoints)
    : St World (list string * Checkpoints) :=
  match entryChunks with
  | [] => ret (sentKeys, checkpoints)
  | entriesChunk :: rest =>
      let* (sentKeys, checkpoints) := sendChunk wallet i entriesChunk sentKeys checkpoints in
      sendChunks wallet (i + 1) rest sentKeys checkpoints
  end.

(** [main] from the line
    [const latest = await callWithRetry(() => provider.getBlock('latest'), ...)]
    to its end: the gas budget, the chunk size, the partition and the
    sending loop. *)
Definition deliver (p : Prepared) : St World unit :=
  let recipients := map e_address (validEntries (tally p)) in
  let amounts := map amt (validEntries (tally p)) in
  let* gasBudget := lift readGasBudget in
  let* chunkSize := lift (findChunkSize recipients amounts gasBudget) in
  match chunk (validEntries (tally p)) chunkSize with
  | None => diverge
  | Some entryChunks =>
      let* _ := sendChunks (wallet_address p) 0 entryChunks (sentKeys0 p) (checkpoints0 p) in
      ret tt
  end.

(** [const total = amounts.reduce((a, b) => a + b, 0n)] *)
Definition totalOf (p : Prepared) : Z :=
  sumAmounts (map amt (validEntries (tally p))).

(** [main], from the array [entries] that [loadRecipients] returned. *)
Definition main (entries : list Recipient) : St World unit :=
  let* p := prepare entries in
  lift (ensureFunds (wallet_address p) (totalOf p));;
  deliver p.
End script.

(** ** The UI event handler (App.tsx) *)

Module App.
(** A parsed CSV row, [CsvRow] of lib/csv.ts. *)
Record CsvRow := mkCsvRow { address : string; amount : string }.

Record ParsedEntry := mkParsedEntry {
  p_address : string;
  amountStr : string;
  amountWei : Z
}.

(** The value of the [normalized] memo. *)
Record Normalized := mkNormalized {
  entries : list ParsedEntry;
  duplicates : list string
}.

(** The component state that [onSend] reads: whether a wallet is
    connected ([signer] and [provider] are set), the two address fields,
    the uploaded rows and the fetched decimals. *)
Record AppState := mkAppState {
  connected : bool;
  tokenAddress : string;
  batchAddress : string;
  rows : list CsvRow;
  decimals : option Z
}.

Inductive UiEvent : Type :=
| SetStatus (s : string)
| SetSending (b : bool)
| SetChunkSize (n : Z).

(** What a click on Send acts on: the network side and the state updates
    issued so far. *)
Record Page := mkPage { page_net : Net; updates : list UiEvent }.


Definition lift {A} (m : St Net A) : St Page A :=
  fun p =>
    let '(r, n') := m (page_net p) in
    (r, {| page_net := n'; updates := updates p |}).

Definition update (ev : UiEvent) : St Page unit :=
  fun p => (Ok tt, {| page_net := page_net p; updates := updates p ++ [ev] |}).

Definition setStatus (s : string) : St Page unit := update (SetStatus s).

(** [errMsg] on a thrown [Error] *)
Definition errMsg (e : Error) : string := message e.

Section handlers.
Variable rem : Remote.
Variable host : Host.

(** The loop of the [normalized] memo over [rows]; [addrs], [dups] and
    [out] are its three accumulators. Whatever throws inside the [try]
    skips the row. *)
Fixpoint normalizedLoop (decimals : option Z) (rows : list CsvRow)
    (addrs dups : list string) (out : list ParsedEntry) : Normalized :=
  match rows with
  | [] => {| entries := out; duplicates := dups |}
  | r :: rest =>
      match getAddress host (address r) with
      | None => normalizedLoop decimals rest addrs dups out
      | Some addr =>
          if set_has addr addrs
          then normalizedLoop decimals rest addrs (set_add addr dups) out
          else
            let addrs := set_add addr addrs in
            match decimals with
            | None => normalizedLoop decimals rest addrs dups out
            | Some d =>
                match parseUnits host (amount r) d with
                | Rejects _ => normalizedLoop decimals rest addrs dups out
                | Returns wei =>
                    if wei <=? 0 then normalizedLoop decimals rest addrs dups out
                    else
                      normalizedLoop decimals rest addrs dups
                        (out ++ [{| p_address := addr; amountStr := amount r;
                                    amountWei := wei |}])
                end
            end
      end
  end.

Definition normalized (st : AppState) : Normalized :=
  normalizedLoop (decimals st) (rows st) [] [] [].

(** [totalWei] *)
Definition totalWei (st : AppState) : Z :=
  foldl (fun a b => a + amountWei b) 0 (entries (normalized st)).

Section estimateChunkSize.
Variables (st : AppState) (recips : list string) (amts : list Z).
Variable gasBudget : Z.

(** [estCount(count)] *)
Definition estCount (count : Z) : St Net (option Z) :=
  let r := slice recips 0 count in
  let a := slice amts 0 count in
  try_catch
    (let* est := invoke rem reply_num
                   (EstimateGasERC20 (batchAddress st) (tokenAddress st) r a) in
     ret (Some est))
    (fun _ => ret None).

Definition overBudget (est : option Z) : bool :=
  match est with
  | None => true
  | Some g => (g =? 0) || (gasBudget <=? g)
  end.

Definition withinBudget (est : option Z) : bool :=
  match est with
  | None => false
  | Some g => negb (g =? 0) && (g <? gasBudget)
  end.

Fixpoint doublingLoop (fuel : nat) (test low high safe : Z) : St Net (Z * Z * Z) :=
  if test <=? high then
    match fuel with
    | O => diverge
    | S fuel' =>
        let* est := estCount test in
        if overBudget est then ret (low, test, safe)
        else if test =? high then ret (test, high, test)
        else doublingLoop fuel' (test * 2) test high test
    end
  else ret (low, high, safe).

Fixpoint bisectLoop (fuel : nat) (low high safe : Z) : St Net Z :=
  if low + 1 <? high then
    match fuel with
    | O => diverge
    | S fuel' =>
        let mid := (low + high) / 2 in
        let* est := estCount mid in
        if withinBudget est then bisectLoop fuel' mid high mid
        else bisectLoop fuel' low mid safe
    end
  else ret safe.
End estimateChunkSize.

(** [estimateChunkSize(recips, amts, maxTry)]; the budget is
    [BigInt(Math.floor(Number(blockGasLimit) * 0.8))], which is
    [4 * limit / 5] on the integers. *)
Definition estimateChunkSize (st : AppState) (recips : list string) (amts : list Z)
    (maxTry : Z) : St Net Z :=
  if negb (connected st) || negb (truthy (batchAddress st))
     || negb (truthy (tokenAddress st))
  then ret 1
  else
    let* latest := invoke rem reply_block GetBlockLatest in
    let blockGasLimit := default 30000000 latest in
    let gasBudget := 4 * blockGasLimit / 5 in
    let low := 1 in
    let high := maxTry in
    let safe := 1 in
    let* (low, high, safe) :=
      doublingLoop st recips amts gasBudget (Z.to_nat high) 1 low high safe in
    let* safe := bisectLoop st recips amts gasBudget (Z.to_nat (high - low)) low high safe in
    ret (Z.max 1 safe).

(** The default value of the parameter [maxTry]. *)
Definition defaultMaxTry (recips : list string) : Z :=
  Z.min (Z.of_nat (length recips)) 512.

(** The sending loop of [onSend]:
    [for (let i = 0; i < rChunks.length; i++)], reading [rChunks[i]] and
    [aChunks[i]]. *)
Fixpoint sendLoop (st : AppState) (total : nat) (i : nat) (todo : list (list string))
    (aChunks : list (list Z)) : St Page unit :=
  match todo with
  | [] => ret tt
  | r :: rest =>
      match aChunks !! i with
      | None => throw (js_error "Cannot read properties of undefined (reading 'reduce')")
      | Some a =>
          let sum := foldl Z.add 0 a in
          setStatus ("Sending chunk " +:+ pretty (S i) +:+ "/" +:+ pretty total
                     +:+ " (total " +:+ pretty sum +:+ ")");;
          let* tx := lift (invoke rem reply_tx
                             (BatchTransferERC20 (batchAddress st) (tokenAddress st) r a)) in
          setStatus ("Chunk " +:+ pretty (S i) +:+ " submitted: " +:+ hash tx);;
          let* rcpt := lift (invoke rem reply_receipt (TxWait tx)) in
          let gasUsed := match rcpt with
                         | Some g => if g =? 0 then "unknown" else pretty g
                         | None => "unknown"
                         end in
          setStatus ("Chunk " +:+ pretty (S i) +:+ " confirmed: " +:+ hash tx
                     +:+ " gasUsed=" +:+ gasUsed);;
          lift (sleep 750);;
          sendLoop st total (S i) rest aChunks
      end
  end.

(** The allowance check of [onSend]: the token contract is asked for the
    allowance of the signer, and for an approval of [totalWei] when the
    allowance is below it. *)
Definition approveIfNeeded (st : AppState) : St Page unit :=
  let* owner := lift (invoke rem reply_account SignerGetAddress) in
  let* allowance :=
    lift (invoke rem reply_num
            (TokenAllowance (tokenAddress st) owner (batchAddress st))) in
  if allowance <? totalWei st then
    setStatus "Approving token allowance...";;
    let* tx := lift (invoke rem reply_tx
                       (TokenApprove (tokenAddress st) (batchAddress st) (totalWei st))) in
    setStatus ("Approve submitted: " +:+ hash tx);;
    let* _ := lift (invoke rem reply_receipt (TxWait tx)) in
    setStatus ("Approve confirmed: " +:+ hash tx)
  else ret tt.

(** The rest of the [try] block of [onSend]: the chunk size, the
    partition and the sending loop. *)
Definition sendAll (st : AppState) : St Page unit :=
  let recipients := map p_address (entries (normalized st)) in
  let amounts := map amountWei (entries (normalized st)) in
  setStatus "Estimating chunk size...";;
  let* cSize := lift (estimateChunkSize st recipients amounts (defaultMaxTry recipients)) in
  update (SetChunkSize cSize);;
  setStatus ("Chunk size: " +:+ pretty cSize);;
  match App_chunk.chunk recipients cSize, App_chunk.chunk amounts cSize with
  | Some rChunks, Some aChunks =>
      sendLoop st (length rChunks) 0 rChunks aChunks;;
      setStatus ("Done. Sent " +:+ pretty (length recipients)
                 +:+ " recipients across " +:+ pretty (length rChunks)
                 +:+ " chunks.")
  | _, _ => diverge
  end.

(** [onSend] *)
Definition onSend (st : AppState) : St Page unit :=
  if negb (connected st) then setStatus "Connect a wallet first"
  else if negb (truthy (tokenAddress st)) || negb (truthy (batchAddress st))
  then setStatus "Enter token and BatchSender addresses"
  else
    match decimals st with
    | None => setStatus "Fetch token decimals first"
    | Some _ =>
        let recipients := map p_address (entries (normalized st)) in
        if (length recipients =? 0)%nat then setStatus "No valid entries"
        else
          update (SetSending true);;
          finally
            (try_catch (approveIfNeeded st;; sendAll st)
               (fun e => setStatus ("Send failed: " +:+ errMsg e)))
            (fun p => {| page_net := page_net p;
                         updates := updates p ++ [SetSending false] |})
    end.
End handlers.
End App.

(** ** Observing a run *)

(** The invocations of a history, in order, each with whether it returned;
    sleeps are dropped. *)
Definition calls (h : list NetEvent) : list (Request * bool) :=
  omap (fun ev => match ev with EvCall req ok => Some (req, ok) | EvSleep _ => None end) h.

Definition is_approve (req : Request) : bool :=
  match req with TokenApprove _ _ _ => true | _ => false end.

Definition is_transfer (req : Request) : bool :=
  match req with
  | BatchTransferNative _ _ _ _ | BatchTransferERC20 _ _ _ _ => true
  | _ => false
  end.

Definition is_decimals (req : Request) : bool :=
  match req with TokenDecimals _ => true | _ => false end.

(** The recipients and amounts of the transfers that returned. *)
Definition transferred (cs : list (Request * bool)) : list (list string * list Z) :=
  omap (fun c =>
          match c with
          | (BatchTransferNative _ r a _, true) => Some (r, a)
          | (BatchTransferERC20 _ _ r a, true) => Some (r, a)
          | _ => None
          end) cs.

(** The key sets handed to the checkpoint file for session [sid], one per
    write, in order. *)
Definition written (sid : string) (log : list FsEvent) : list (list string) :=
  omap (fun ev =>
          match ev with
          | FsWrite doc _ => Some (default [] (doc !! sid))
          | _ => None
          end) log.

Definition is_failed_write (ev : FsEvent) : bool :=
  match ev with FsWrite _ false => true | _ => false end.

Definition is_warning (l : ConsoleLine) : bool :=
  match l with Warn _ => true | ErrorLine _ _ => false end.

Definition failed_writes (log : list FsEvent) : nat :=
  length (filter (fun ev => Is_true (is_failed_write ev)) log).

Definition warnings (out : list ConsoleLine) : nat :=
  length (filter (fun l => Is_true (is_warning l)) out).

(** The entry keys of a chunk. *)
Definition keysOf (entriesChunk : list Entry) : list string :=
  map (fun e => makeKey (e_address e) (e_amountStr e)) entriesChunk.

(** The key set of the session after each chunk of [chunks] in turn,
    starting from [sentKeys]. *)
Fixpoint snapshots (sentKeys : list string) (chunks : list (list Entry))
    : list (list string) :=
  match chunks with
  | [] => []
  | c :: rest =>
      let updated := set_add_all (keysOf c) sentKeys in
      updated :: snapshots updated rest
  end.

(** What the checkpoint file holds after the file operations [log], from
    content [f]: the document of the last write that succeeded. *)
Definition persisted (f : option FileContent) (log : list FsEvent) : option FileContent :=
  foldl (fun f ev => match ev with FsWrite doc true => Some (JsonDoc doc) | _ => f end) f log.

(** The request the script sends for a chunk. *)
Definition transferRequest (cfg : Config) (entriesChunk : list Entry) : Request :=
  let r := map e_address entriesChunk in
  let a := map amt entriesChunk in
  if isNative cfg then BatchTransferNative (batchAddress cfg) r a (sumAmounts a)
  else BatchTransferERC20 (batchAddress cfg) (tokenAddress cfg) r a.

(** The request [estimateForCount(count)] sends. *)
Definition estimateRequest (cfg : Config) (recipients : list string) (amounts : list Z)
    (count : Z) : Request :=
  let r := slice recipients 0 count in
  let a := slice amounts 0 count in
  if isNative cfg then EstimateGasNative (batchAddress cfg) r a (sumAmounts a)
  else EstimateGasERC20 (batchAddress cfg) (tokenAddress cfg) r a.

(** [m] invokes only what [P] allows: from every state, the invocations
    it adds to the history all satisfy [P]. [view] reads the network side
    out of the state. *)
Definition extends (P : Request * bool -> Prop) (n n' : Net) : Prop :=
  exists cs, calls (history n') = calls (history n) ++ cs /\ Forall P cs.

Definition emits {S A} (view : S -> Net) (P : Request * bool -> Prop) (m : St S A) : Prop :=
  forall s, extends P (view s) (view (m s).2).


(** Neither an approval nor a transfer. *)
Definition preliminary (c : Request * bool) : Prop :=
  is_approve c.1 = false /\ is_transfer c.1 = false.

(** The request the script sends to approve [total]. *)
Definition approveRequest (cfg : Config) (total : Z) : Request :=
  TokenApprove (tokenAddress cfg) (batchAddress cfg) total.

(** The request the script sends to read the allowance. *)
Definition allowanceRequest (cfg : Config) (wallet : string) : Request :=
  TokenAllowance (tokenAddress cfg) wallet (batchAddress cfg).

(** The guards at the head of [onSend] all pass. *)
Definition ready (host : Host) (st : App.AppState) : bool :=
  App.connected st && truthy (App.tokenAddress st) && truthy (App.batchAddress st)
  && bool_decide (is_Some (App.decimals st))
  && negb (length (App.entries (App.normalized host st)) =? 0)%nat.

(** The canonical forms of the addresses of the input that have one. *)
Definition canonical (host : Host) (addresses : list string) : list string :=
  omap (getAddress host) addresses.

(** The entry the validation loop makes of a recipient with a valid
    address and a positive amount, checkpoints aside. *)
Definition acceptable (host : Host) (cfg : Config) (decimals : Z) (r : Recipient)
    : option Entry :=
  if isAddress host (address r) then
    match (if isNative cfg then parseEther host (amountStr r)
           else parseUnits host (amountStr r) decimals) with
    | Returns a =>
        if a <=? 0 then None
        else Some {| e_address := address r; e_amountStr := amountStr r; amt := a |}
    | Rejects _ => None
    end
  else None.

(** How often [c] occurs in [l]. *)
Definition occurrences (c : string) (l : list string) : nat :=
  length (filter (fun x => x = c) l).

(** The two sets of the duplicate scan, whatever the loop that updates
    them: [c] ends up among the duplicates exactly when it was there, or
    was seen before and occurs again, or occurs twice. *)
Definition duplicated (c : string) (seen dups l : list string) : Prop :=
  c ∈ dups \/ (c ∈ seen /\ c ∈ l) \/ (2 <= occurrences c l)%nat.

(** ** The probing loops over an arbitrary estimator

    The script and the UI handler carry the same two loops, over
    [estimateForCount] and over [estCount]. The loops below are the same
    program text over an estimator left open; each copy is an instance of
    them, and the facts about the search are proved once, here. *)
Section search.
Variable estimate : Z -> St Net (option Z).
Variable gasBudget : Z.

Fixpoint searchUp (fuel : nat) (test low high safe : Z) : St Net (Z * Z * Z) :=
  if test <=? high then
    match fuel with
    | O => diverge
    | S fuel' =>
        let* est := estimate test in
        if overBudget gasBudget est then ret (low, test, safe)
        else if test =? high then ret (test, high, test)
        else searchUp fuel' (test * 2) test high test
    end
  else ret (low, high, safe).

Fixpoint searchBetween (fuel : nat) (low high safe : Z) : St Net Z :=
  if low + 1 <? high then
    match fuel with
    | O => diverge
    | S fuel' =>
        let mid := (low + high) / 2 in
        let* est := estimate mid in
        if withinBudget gasBudget est then searchBetween fuel' mid high mid
        else searchBetween fuel' low mid safe
    end
  else ret safe.

Definition search (maxTry : Z) : St Net Z :=
  let* (low, high, safe) := searchUp (Z.to_nat maxTry) 1 1 maxTry 1 in
  let* safe := searchBetween (Z.to_nat (high - low)) low high safe in
  ret (Z.max 1 safe).
End search.

(** ** Sample inputs *)

(** An endpoint whose first [failures] invocations are rejected as rate
    limited and whose later ones return. *)
Definition flaky_remote (failures : nat) : Remote :=
  let rejected := {| status := Some 429; message := "Too Many Requests" |} in
  {| reply_num := fun k _ => if (k <? failures)%nat then Rejects rejected else Returns 100;
     reply_tx := fun k _ => if (k <? failures)%nat then Rejects rejected
                            else Returns {| hash := "0xh" |};
     reply_receipt := fun k _ => if (k <? failures)%nat then Rejects rejected
                                 else Returns (Some 21000);
     reply_block := fun k _ => if (k <? failures)%nat then Rejects rejected
                               else Returns (Some 30000000);
     reply_account := fun k _ => if (k <? failures)%nat then Rejects rejected
                                 else Returns "0xme";
     latency := fun _ => 3;
     random_below := fun _ _ => 0 |}.

(** An endpoint that answers every request, with every estimate far below
    any budget. *)
Definition steady_remote : Remote := flaky_remote 0.

(** An endpoint that cannot estimate two or more recipients at once, with
    a large native balance. *)
Definition single_only_remote : Remote :=
  {| reply_num := fun _ req =>
       match req with
       | EstimateGasNative _ r _ _ | EstimateGasERC20 _ _ r _ =>
           if (2 <=? length r)%nat then Rejects (js_error "execution reverted")
           else Returns 100
       | GetBalance _ => Returns (10 ^ 30)
       | _ => Returns 100
       end;
     reply_tx := reply_tx steady_remote;
     reply_receipt := reply_receipt steady_remote;
     reply_block := reply_block steady_remote;
     reply_account := reply_account steady_remote;
     latency := fun _ => 3;
     random_below := fun _ _ => 0 |}.

(** A host on which every string is an address in canonical form already,
    an amount is valid when it is the text "1", "2" or "3" and is scaled by
    the decimals, and the budget is four fifths of the limit. *)
Definition sample_host : Host :=
  {| getAddress := fun a => Some a;
     isAddress := fun _ => true;
     parseUnits := fun s d =>
       if String.eqb s "1" then Returns (1 * 10 ^ d)
       else if String.eqb s "2" then Returns (2 * 10 ^ d)
       else if String.eqb s "3" then Returns (3 * 10 ^ d)
       else Rejects (js_error "invalid FixedNumber string value");
     walletAddress := fun _ => Returns "0xme";
     sha256hex := fun s => s;
     gasBudgetOf := fun limit => 4 * limit / 5 |}.

Definition sample_config (attempts : Z) (native : bool) (decimals : option Z)
    (noCheckpoint : bool) : Config :=
  {| PRIVATE_KEY := "key";
     RATE_LIMIT_INTERVAL_MS := 200;
     RETRY_MAX_ATTEMPTS := attempts;
     RETRY_BASE_MS := 500;
     RETRY_MAX_MS := 5000;
     SLEEP_BETWEEN_TX_MS := 750;
     CHECKPOINT_FILE := ".multisend-checkpoints.json";
     DISABLE_CHECKPOINTS := noCheckpoint;
     absoluteInput := "/in.csv";
     tokenAddress := "0xT";
     batchAddress := "0xB";
     decimalsOverride := decimals;
     isNative := native |}.

Definition never_fails : nat -> option Error := fun _ => None.

Definition always_fails : nat -> option Error :=
  fun _ => Some (js_error "EACCES: permission denied").

(** ** Pacing *)

(** From [n] to [n'] the pacing variable advanced by at least [interval]
    for every invocation made. *)
Definition paced (interval : Z) (n n' : Net) : Prop :=
  (ncalls n <= ncalls n')%nat
  /\ lastCallAt n + interval * (Z.of_nat (ncalls n') - Z.of_nat (ncalls n))
     <= lastCallAt n'.

(** [m] relates the network side before to the network side after by [R],
    from every state. *)
Definition follows {S A} (view : S -> Net) (R : Net -> Net -> Prop) (m : St S A) : Prop :=
  forall s, R (view s) (view (m s).2).

(** ** The validation loop as a filter *)

(** The resumption filter on an entry: kept when checkpoints are disabled
    or its key is not among the sent keys. *)
Definition unsent (cfg : Config) (sentKeys : list string) (e : Entry) : bool :=
  DISABLE_CHECKPOINTS cfg || negb (set_has (makeKey (e_address e) (e_amountStr e)) sentKeys).

(** The amount of a recipient as the validation loop parses it. *)
Definition parsedAmount (host : Host) (cfg : Config) (decimals : Z) (r : Recipient)
    : Reply Z :=
  if isNative cfg then parseEther host (amountStr r)
  else parseUnits host (amountStr r) decimals.

(** A recipient the loop counts as skipped for its address. *)
Definition badAddress (host : Host) (r : Recipient) : bool :=
  negb (isAddress host (address r)).

(** A recipient the loop counts as skipped for its amount. *)
Definition nonPositive (host : Host) (cfg : Config) (decimals : Z) (r : Recipient) : bool :=
  isAddress host (address r)
  && match parsedAmount host cfg decimals r with
     | Returns a => a <=? 0
     | Rejects _ => false
     end.

(** The tally before the first entry. *)
Definition tally0 : Tally := {| validEntries := []; skippedInvalid := 0; skippedZero := 0 |}.

(** An estimate of [s] entries made between the states [n0] and [nf] came
    back with a non-zero gas figure below [gasBudget]. *)
Definition estimated (estimate : Z -> St Net (option Z)) (gasBudget : Z)
    (n0 nf : Net) (s : Z) : Prop :=
  exists m g,
    (ncalls n0 <= ncalls m)%nat
    /\ (ncalls (estimate s m).2 <= ncalls nf)%nat
    /\ (estimate s m).1 = Ok (Some g)
    /\ g <> 0 /\ g < gasBudget.

(** [m] reports only what [P] allows: from every page, the state updates
    it adds all satisfy [P]. *)
Definition reports {A} (P : App.UiEvent -> Prop) (m : St App.Page A) : Prop :=
  forall pg, exists ups, App.updates (m pg).2 = App.updates pg ++ ups /\ Forall P ups.

(** A state update other than [setSending]. *)
Definition keeps_sending (ev : App.UiEvent) : Prop :=
  match ev with App.SetSending _ => False | _ => True end.

(** ** Reading the input: lines, fields and amounts

    The text helpers of both scripts and of [lib/csv.ts]. A character is a
    code unit below 256. *)

(** White space and line terminators of JS in that range: tab, line feed,
    vertical tab, form feed, carriage return, space, no-break space. *)
Definition is_space (c : ascii) : bool :=
  let n := nat_of_ascii c in
  ((9 <=? n) && (n <=? 13) || (n =? 32) || (n =? 160))%nat.

Fixpoint trimStart (s : string) : string :=
  match s with
  | EmptyString => EmptyString
  | String c s' => if is_space c then trimStart s' else s
  end.

Fixpoint trimEnd (s : string) : string :=
  match s with
  | EmptyString => EmptyString
  | String c s' =>
      match trimEnd s' with
      | EmptyString => if is_space c then EmptyString else String c EmptyString
      | t => String c t
      end
  end.

(** [String.prototype.trim] *)
Definition trim (s : string) : string := trimEnd (trimStart s).

(** [s.replace(/c/g, '')] for a pattern that is the single character [c]. *)
Fixpoint remove (c : ascii) (s : string) : string :=
  match s with
  | EmptyString => EmptyString
  | String c' s' => if Ascii.eqb c' c then remove c s' else String c' (remove c s')
  end.

(** [s.split(sep)] for a separator of one character: at least one piece. *)
Fixpoint split (sep : ascii) (s : string) : list string :=
  match s with
  | EmptyString => [EmptyString]
  | String c s' =>
      if Ascii.eqb c sep then EmptyString :: split sep s'
      else
        match split sep s' with
        | p :: ps => String c p :: ps
        | [] => [String c EmptyString]
        end
  end.

(** [s] without the carriage return it ends with, if it ends with one. *)
Fixpoint chopCR (s : string) : string :=
  match s with
  | EmptyString => EmptyString
  | String c EmptyString => if Ascii.eqb c "013" then EmptyString else s
  | String c s' => String c (chopCR s')
  end.

(** The pieces between line feeds become the pieces between matches of
    [\r?\n]: every piece that a line feed ends loses the carriage return
    before that line feed. *)
Fixpoint chopCRs (pieces : list string) : list string :=
  match pieces with
  | p :: (_ :: _) as rest => chopCR p :: chopCRs rest
  | _ => pieces
  end.

(** [s.split(/\r?\n/)] *)
Definition splitLines (s : string) : list string := chopCRs (split "010" s).

(** [l.trim().length > 0] *)
Definition nonBlank (l : string) : bool := negb (String.eqb (trim l) "").

Definition is_digit (c : ascii) : bool :=
  let n := nat_of_ascii c in ((48 <=? n) && (n <=? 57))%nat.

(** What is left of [s] after the longest run of digits it starts with. *)
Fixpoint skipDigits (s : string) : string :=
  match s with
  | EmptyString => EmptyString
  | String c s' => if is_digit c then skipDigits s' else s
  end.

(** [\d+] at the start of [s]: what is left after it, if [s] starts with a
    digit. *)
Definition digits (s : string) : option string :=
  match s with
  | EmptyString => None
  | String c s' => if is_digit c then Some (skipDigits s') else None
  end.

(** [/^\d+(\.\d+)?$/.test(s)] *)
Definition isAmount (s : string) : bool :=
  match digits s with
  | Some EmptyString => true
  | Some (String "." frac) =>
      match digits frac with
      | Some EmptyString => true
      | _ => false
      end
  | _ => false
  end.

(** [normalizeAmountString] of multisend.mjs *)
Definition normalizeAmountString (amountStr : string) : Reply string :=
  let cleaned := remove "," (remove "$" (trim amountStr)) in
  if negb (isAmount cleaned) then Rejects (js_error ("Invalid amount: " +:+ amountStr))
  else Returns cleaned.

(** [/address/i.test(line) && /amount/i.test(line)] *)
Definition isHeader (line : string) : bool :=
  includes "address" (toLowerCase line) && includes "amount" (toLowerCase line).

(** The loop of [parseCsvRecipients] over [lines], from index [i]. *)
Fixpoint parseCsvLines (i : nat) (lines : list string) (out : list Recipient)
    : Reply (list Recipient) :=
  match lines with
  | [] => Returns out
  | l :: rest =>
      let line := trim l in
      if (i =? 0)%nat && isHeader line then parseCsvLines (S i) rest out
      else
        match map trim (split "," line) with
        | address :: rawAmount :: _ =>
            match normalizeAmountString rawAmount with
            | Returns amountStr =>
                parseCsvLines (S i) rest
                  (out ++ [{| address := address; amountStr := amountStr |}])
            | Rejects e => Rejects e
            end
        | _ => Rejects (js_error ("CSV line " +:+ pretty (S i) +:+ " must have address,amount"))
        end
  end.

(** [parseCsvRecipients] of multisend.mjs *)
Definition parseCsvRecipients (csvStr : string) : Reply (list Recipient) :=
  parseCsvLines 0 (filter (fun l => Is_true (nonBlank l)) (splitLines csvStr)) [].

(** The loop of [parseCsv] of lib/csv.ts over the lines from index [i]. *)
Fixpoint parseCsvLoop (i : nat) (lines : list string) (rows : list App.CsvRow)
    : Reply (list App.CsvRow) :=
  match lines with
  | [] => Returns rows
  | l :: rest =>
      match map trim (split "," l) with
      | address :: rawAmount :: _ =>
          let cleaned := remove "," (remove "$" rawAmount) in
          if negb (isAmount cleaned)
          then Rejects (js_error ("Invalid amount at line " +:+ pretty (S i) +:+ ": "
                                  +:+ rawAmount))
          else parseCsvLoop (S i) rest
                 (rows ++ [{| App.address := address; App.amount := cleaned |}])
      | _ => Rejects (js_error ("CSV line " +:+ pretty (S i) +:+ " must have address,amount"))
      end
  end.

(** [parseCsv] of lib/csv.ts *)
Definition parseCsv (text : string) : Reply (list App.CsvRow) :=
  let lines := filter (fun l => Is_true (nonBlank l)) (splitLines text) in
  let start :=
    match lines with
    | l0 :: _ => if truthy l0 && isHeader l0 then 1%nat else 0%nat
    | [] => 0%nat
    end in
  parseCsvLoop start (drop start lines) [].

(** Every character of [s] satisfies [P]. *)
Fixpoint every (P : ascii -> bool) (s : string) : bool :=
  match s with
  | EmptyString => true
  | String c s' => P c && every P s'
  end.

(** [{ address, amount }] of the UI as [{ address, amountStr }] of the script. *)
Definition toRecipient (r : App.CsvRow) : Recipient :=
  {| address := App.address r; amountStr := App.amount r |}.

(** ** The JSON-to-CSV converter (convert_csvjson_to_csv.mjs) *)

(** A JSON value as the scripts read one. [JNull] is [null], [undefined]
    or a property that is missing; a number carries the text [String(n)]
    and an array or object the text [String(v)]. *)
Inductive Json : Type :=
| JNull
| JBool (b : bool)
| JNumber (text : string)
| JString (s : string)
| JCompound (text : string).

(** Whether a value is truthy: a number is falsy when it prints as 0. *)
Definition js_truthy (v : Json) : bool :=
  match v with
  | JNull => false
  | JBool b => b
  | JNumber text => negb (String.eqb text "0")
  | JString s => truthy s
  | JCompound _ => true
  end.

(** [String(v)]; the code never applies it to [null] or [undefined]. *)
Definition js_String (v : Json) : string :=
  match v with
  | JNull => "null"
  | JBool true => "true"
  | JBool false => "false"
  | JNumber text => text
  | JString s => s
  | JCompound text => text
  end.

(** [a || b] *)
Definition js_or (a b : Json) : Json := if js_truthy a then a else b.

(** [a ?? b] *)
Definition js_coalesce (a b : Json) : Json :=
  match a with JNull => b | _ => a end.

(** The properties the scripts read of an element of the array. An element
    that is not an object has none of them. *)
Record Item := mkItem {
  item_address : Json;
  item_addr : Json;
  item_to : Json;
  item_amount : Json;
  item_value : Json
}.

(** What [JSON.parse] made of the text: an array, whose [null] elements
    are [None], or something else. *)
Inductive JsonData : Type :=
| JsonArray (data : list (option Item))
| JsonOther.

(** [cleanAmount] of the converter *)
Definition cleanAmount (raw : Json) : string :=
  match raw with
  | JNull => ""
  | _ =>
      let s := js_String raw in
      let cleaned := trim (remove "," (remove "$" s)) in
      if negb (isAmount cleaned) then "" else cleaned
  end.

(** [normalizeAddress] of the converter *)
Definition normalizeAddress (addr : Json) : string :=
  if negb (js_truthy addr) then "" else trim (js_String addr).

(** The loop of [convert] over [data]; [rows] is its accumulator. Reading
    a property of [null] throws. *)
Fixpoint convertRows (data : list (option Item)) (rows : list App.CsvRow)
    : Reply (list App.CsvRow) :=
  match data with
  | [] => Returns rows
  | None :: _ =>
      Rejects (js_error "Cannot read properties of null (reading 'address')")
  | Some item :: rest =>
      let address :=
        normalizeAddress (js_or (js_or (item_address item) (item_addr item)) (item_to item)) in
      let amount := cleanAmount (js_or (item_amount item) (item_value item)) in
      if negb (truthy address) || negb (truthy amount) then convertRows rest rows
      else convertRows rest (rows ++ [{| App.address := address; App.amount := amount |}])
  end.

(** The text [convert] builds from [rows]. *)
Definition csvOf (rows : list App.CsvRow) : string :=
  ("address,amount" +:+ String "010" "")
  +:+ String.concat (String "010" "")
        (map (fun r => App.address r +:+ "," +:+ App.amount r) rows).

(** [convert(jsonText)], from what [JSON.parse] answers. *)
Definition convert (JSON_parse : string -> Reply JsonData) (jsonText : string)
    : Reply string :=
  match JSON_parse jsonText with
  | Rejects e => Rejects e
  | Returns JsonOther => Rejects (js_error "JSON must be an array")
  | Returns (JsonArray data) =>
      match convertRows data [] with
      | Rejects e => Rejects e
      | Returns rows => Returns (csvOf rows)
      end
  end.

(** [rowsCount] of the converter *)
Definition rowsCount (csv : string) : Z :=
  let lines := filter (fun l => Is_true (truthy l)) (splitLines csv) in
  Z.max 0 (Z.of_nat (length lines) - 1).

(** [parseJsonRecipients] of multisend.mjs, from what [JSON.parse]
    answers; [idx] is the index of the first element of [data]. *)
Fixpoint parseJsonItems (idx : nat) (data : list (option Item)) : Reply (list Recipient) :=
  match data with
  | [] => Returns []
  | None :: _ =>
      Rejects (js_error "Cannot read properties of null (reading 'address')")
  | Some item :: rest =>
      let address :=
        trim (js_String (js_coalesce (js_coalesce (js_coalesce (item_address item)
                                                     (item_addr item))
                                        (item_to item))
                           (JString ""))) in
      let rawAmount :=
        trim (js_String (js_coalesce (js_coalesce (item_amount item) (item_value item))
                           (JString ""))) in
      match normalizeAmountString rawAmount with
      | Rejects e => Rejects e
      | Returns amountStr =>
          if negb (truthy address) || negb (truthy amountStr)
          then Rejects (js_error ("Invalid entry at index " +:+ pretty idx))
          else
            match parseJsonItems (S idx) rest with
            | Rejects e => Rejects e
            | Returns out =>
                Returns ({| address := address; amountStr := amountStr |} :: out)
            end
      end
  end.

Definition parseJsonRecipients (JSON_parse : string -> Reply JsonData) (jsonStr : string)
    : Reply (list Recipient) :=
  match JSON_parse jsonStr with
  | Rejects e => Rejects e
  | Returns JsonOther => Rejects (js_error "JSON must be an array")
  | Returns (JsonArray data) => parseJsonItems 0 data
  end.

(** A row the converter writes on a line of its own and a reader takes
    apart again: no comma and no line feed in the address. *)
Definition plainAddress (r : App.CsvRow) : Prop :=
  every (fun c => negb (Ascii.eqb c ",") && negb (Ascii.eqb c "010")) (App.address r) = true.

(** ** The BatchSender contract (contracts/BatchSender.sol)

    An address and a [uint256] are integers; the arguments of a call are
    taken to be in range, as the ABI decoder leaves them. Arithmetic is
    checked, as in Solidity 0.8. A call that reverts leaves the chain as
    it was before the call: [Reverted] carries no state. Gas is not
    modelled. *)

Module BatchSender.

Definition uint256_limit : Z := 2 ^ 256.

(** Why a call reverted: a failed [require] with its reason, the
    arithmetic overflow panic [Panic(0x11)], the out-of-bounds panic
    [Panic(0x32)], a reverting external view call, or return data that
    [abi.decode] rejects. *)
Inductive Failure : Type :=
| Require (reason : string)
| PanicOverflow
| PanicIndex
| CallReverted
| DecodeFailed.

Inductive Event : Type :=
| BatchTransferERC20 (token from totalAmount recipientCount : Z)
| BatchTransferNative (from totalAmount recipientCount : Z).

(** The return data of a low-level call: none, 32 bytes or more that
    decode as a [bool], or anything else. *)
Inductive ReturnData : Type :=
| NoData
| BoolData (b : bool)
| OtherData.

(** [abi.encodeWithSelector(IERC20.transferFrom.selector, from, to, value)]
    and [abi.encodeWithSelector(IERC20.transfer.selector, to, value)] *)
Inductive TokenCall : Type :=
| TransferFrom (from to value : Z)
| Transfer (to value : Z).

(** The rest of the chain, as the contract meets it. [Env] is the state
    of every account; the three operations are the external calls the
    contract makes, each made by the contract itself. A call that fails
    answers [None] and changes nothing. *)
Record Chain (Env : Type) := {
  (** [to.call{value: amt}("")] *)
  send_value : Z -> Z -> Env -> option Env;
  (** [token.call(data)] *)
  call_token : Z -> TokenCall -> Env -> option (ReturnData * Env);
  (** [IERC20(token).allowance(owner, spender)], a static call *)
  allowance : Z -> Z -> Z -> Env -> option Z
}.
Arguments send_value {Env} _ _ _ _.
Arguments call_token {Env} _ _ _ _.
Arguments allowance {Env} _ _ _ _ _.

Inductive Result (Env : Type) : Type :=
| Done (env : Env) (log : list Event)
| Reverted (why : Failure).
Arguments Done {Env} env log.
Arguments Reverted {Env} why.

(** [for (uint256 i = 0; i < amounts.length; i++) total += amounts[i]] *)
Fixpoint sumLoop (amounts : list Z) (total : Z) : option Z :=
  match amounts with
  | [] => Some total
  | a :: rest =>
      if total + a <? uint256_limit then sumLoop rest (total + a) else None
  end.

Section contract.
Context {Env : Type}.
Variable chain : Chain Env.
(** [address(this)] *)
Variable this : Z.

(** [_callOptionalReturn] *)
Definition _callOptionalReturn (token : Z) (data : TokenCall) (env : Env)
    : Failure + Env :=
  match call_token chain token data env with
  | None => inl (Require "ERC20 call failed")
  | Some (NoData, env') => inr env'
  | Some (BoolData true, env') => inr env'
  | Some (BoolData false, _) => inl (Require "ERC20 operation returned false")
  | Some (OtherData, _) => inl DecodeFailed
  end.

Definition _safeTransferFrom (token from to value : Z) (env : Env) : Failure + Env :=
  _callOptionalReturn token (TransferFrom from to value) env.

Definition _safeTransfer (token to value : Z) (env : Env) : Failure + Env :=
  _callOptionalReturn token (Transfer to value) env.

(** The second loop of [batchTransferERC20], from index [i]; [todo] is
    what is left of [recipients]. *)
Fixpoint transferLoop (token sender : Z) (i : nat) (todo : list Z) (amounts : list Z)
    (env : Env) : Failure + Env :=
  match todo with
  | [] => inr env
  | to :: rest =>
      match amounts !! i with
      | None => inl PanicIndex
      | Some amt =>
          if amt =? 0 then transferLoop token sender (S i) rest amounts env
          else if to =? 0 then inl (Require "Zero recipient")
          else
            match _safeTransferFrom token sender to amt env with
            | inl f => inl f
            | inr env' => transferLoop token sender (S i) rest amounts env'
            end
      end
  end.

(** [batchTransferERC20], called by [sender] *)
Definition batchTransferERC20 (sender token : Z) (recipients amounts : list Z)
    (env : Env) : Result Env :=
  if token =? 0 then Reverted (Require "Invalid token")
  else if negb (length recipients =? length amounts)%nat
  then Reverted (Require "Length mismatch")
  else if negb (0 <? length recipients)%nat then Reverted (Require "Empty arrays")
  else
    match sumLoop amounts 0 with
    | None => Reverted PanicOverflow
    | Some total =>
        match allowance chain token sender this env with
        | None => Reverted CallReverted
        | Some allowed =>
            if negb (total <=? allowed) then Reverted (Require "Insufficient allowance")
            else
              match transferLoop token sender 0 recipients amounts env with
              | inl f => Reverted f
              | inr env' =>
                  Done env' [BatchTransferERC20 token sender total
                               (Z.of_nat (length recipients))]
              end
        end
    end.

(** The second loop of [batchTransferNative], from index [i]. *)
Fixpoint payLoop (i : nat) (todo : list Z) (amounts : list Z) (env : Env)
    : Failure + Env :=
  match todo with
  | [] => inr env
  | to :: rest =>
      match amounts !! i with
      | None => inl PanicIndex
      | Some amt =>
          if amt =? 0 then payLoop (S i) rest amounts env
          else if to =? 0 then inl (Require "Zero recipient")
          else
            match send_value chain to amt env with
            | None => inl (Require "ETH transfer failed")
            | Some env' => payLoop (S i) rest amounts env'
            end
      end
  end.

(** [batchTransferNative], called by [sender] with [value] as [msg.value];
    [env] is the chain with that value already credited to the contract. *)
Definition batchTransferNative (sender value : Z) (recipients amounts : list Z)
    (env : Env) : Result Env :=
  if negb (length recipients =? length amounts)%nat
  then Reverted (Require "Length mismatch")
  else if negb (0 <? length recipients)%nat then Reverted (Require "Empty arrays")
  else
    match sumLoop amounts 0 with
    | None => Reverted PanicOverflow
    | Some total =>
        if negb (value =? total) then Reverted (Require "Invalid msg.value")
        else
          match payLoop 0 recipients amounts env with
          | inl f => Reverted f
          | inr env' =>
              Done env' [BatchTransferNative sender total (Z.of_nat (length recipients))]
          end
    end.
End contract.

(** The external calls a batch is to make: one for each recipient with a
    non-zero amount, in order. *)
Definition payments (recipients amounts : list Z) : list (Z * Z) :=
  filter (fun p => p.2 <> 0) (zip recipients amounts).

(** [calls] made one after the other, each from the state the one before
    left; [None] when one of them fails. *)
Fixpoint perform {Env} (call : Z * Z -> Env -> option Env) (calls : list (Z * Z))
    (env : Env) : option Env :=
  match calls with
  | [] => Some env
  | c :: rest =>
      match call c env with
      | None => None
      | Some env' => perform call rest env'
      end
  end.

(** A chain of plain accounts: a balance for each address, and a value
    call that moves the amount when the contract holds it. *)
Definition Ledger : Type := Z -> Z.

Definition move (from to amt : Z) (bal : Ledger) : Ledger :=
  fun a =>
    bal a - (if a =? from then amt else 0) + (if a =? to then amt else 0).

Definition plain (this : Z) : Chain Ledger :=
  {| send_value := fun to amt bal =>
       if bal this <? amt then None else Some (move this to amt bal);
     call_token := fun _ _ _ => None;
     allowance := fun _ _ _ _ => None |}.

(** What [amounts] hold for the address [a] among [recipients]. *)
Fixpoint owed (a : Z) (recipients amounts : list Z) : Z :=
  match recipients, amounts with
  | to :: rest, amt :: amts => (if to =? a then amt else 0) + owed a rest amts
  | _, _ => 0
  end.

(** A token that answers [transferFrom] with no return data and grants
    the contract an allowance of 100, on a chain with no other state. *)
Definition quiet_token : Chain unit :=
  {| send_value := fun _ _ _ => None;
     call_token := fun _ _ env => Some (NoData, env);
     allowance := fun _ _ _ _ => Some 100 |}.

End BatchSender.


(** Two endpoints that answer alike up to the errors they answer with:
    the same timing and random draws, the same values returned, and an
    error where the other answers with an error. *)
Definition alike {A} (reply : Remote -> nat -> Request -> Reply A) (req : Request)
    (rem rem' : Remote) : Prop :=
  (forall k, latency rem k = latency rem' k)
  /\ (forall k b, random_below rem k b = random_below rem' k b)
  /\ forall k,
       match reply rem k req, reply rem' k req with
       | Returns a, Returns b => a = b
       | Rejects _, Rejects _ => True
       | _, _ => False
       end.

(** An endpoint like [flaky_remote] that fails with the error [rejected]. *)
Definition erring_remote (rejected : Error) (failures : nat) : Remote :=
  {| reply_num := fun k _ => if (k <? failures)%nat then Rejects rejected else Returns 100;
     reply_tx := reply_tx (flaky_remote failures);
     reply_receipt := reply_receipt (flaky_remote failures);
     reply_block := reply_block (flaky_remote failures);
     reply_account := reply_account (flaky_remote failures);
     latency := fun _ => 3;
     random_below := fun _ _ => 0 |}.

(** ** Properties of slicing and chunking *)

Section chunk_facts.
Context {A : Type}.
Implicit Types (l : list A) (cs : list (list A)).

Lemma slice_window l (i s : Z) :
  0 <= i -> 0 <= s ->
  slice l i (i + s) = take (Z.to_nat s) (drop (Z.to_nat i) l).
Proof.
  intros Hi Hs. unfold slice, js_index.
  destruct (Z.ltb_spec i 0); [lia|].
  destruct (Z.ltb_spec (i + s) 0); [lia|].
  set (n := Z.of_nat (length l)).
  destruct (Z.le_gt_cases i n) as [Hin|Hin].
  - rewrite (Z.min_l i n) by lia.
    destruct (Z.le_gt_cases (i + s) n).
    + rewrite Z.min_l by lia. f_equal. lia.
    + rewrite Z.min_r by lia.
      rewrite !take_ge; [done| |]; rewrite length_drop; lia.
  - rewrite !drop_ge by lia. by rewrite !take_nil.
Qed.

Lemma slice_length_le l (i s : Z) :
  0 <= i -> 0 <= s -> Z.of_nat (length (slice l i (i + s))) <= s.
Proof.
  intros. rewrite slice_window by done. rewrite length_take. lia.
Qed.

(** Invariant of the partitioning loop: from index [i] with enough fuel
    the loop exits, and what it appends is a partition of the suffix
    starting at [i] into pieces of at most [size] elements. *)
Lemma chunk_loop_spec fuel l (size i : Z) cs :
  1 <= size -> 0 <= i ->
  Z.of_nat (length l) - i <= Z.of_nat fuel ->
  exists rest,
    chunk_loop fuel l size i cs = Some (cs ++ rest)
    /\ concat rest = drop (Z.to_nat i) l
    /\ Forall (fun c => 1 <= Z.of_nat (length c) <= size) rest.
Proof.
  intros Hs. revert i cs.
  induction fuel as [|fuel IH]; intros i cs Hi Hfuel; simpl.
  - destruct (Z.ltb_spec i (Z.of_nat (length l))); [lia|].
    exists []. rewrite app_nil_r, drop_ge by lia. done.
  - destruct (Z.ltb_spec i (Z.of_nat (length l))) as [Hlt|Hge].
    + destruct (IH (i + size) (cs ++ [slice l i (i + size)])) as (rest & Heq & Hcat & Hall);
        [lia|lia|].
      exists (slice l i (i + size) :: rest). split; [|split].
      * rewrite Heq. by rewrite <- app_assoc.
      * simpl. rewrite Hcat, slice_window by lia.
        replace (Z.to_nat (i + size)) with (Z.to_nat i + Z.to_nat size)%nat by lia.
        rewrite <- drop_drop. apply take_drop.
      * constructor; [|done]. split; [|apply slice_length_le; lia].
        rewrite slice_window by lia. rewrite length_take, length_drop. lia.
    + exists []. rewrite app_nil_r, drop_ge by lia. done.
Qed.

(** For a size of at least 1 the partition exists, covers the list in
    order, and has no chunk above the size. *)
Lemma chunk_covers l (size : Z) :
  1 <= size ->
  exists chunks,
    chunk l size = Some chunks
    /\ concat chunks = l
    /\ Forall (fun c => Z.of_nat (length c) <= size) chunks.
Proof.
  intros Hs.
  destruct (chunk_loop_spec (length l) l size 0 [] Hs) as (rest & Heq & Hcat & Hall);
    [lia|lia|].
  exists rest. split; [exact Heq|]. split; [done|].
  eapply Forall_impl; [exact Hall|]. simpl. lia.
Qed.

Lemma App_chunk_same l (size : Z) : App_chunk.chunk l size = chunk l size.
Proof.
  (* the two loops are the same program text *)
  reflexivity.
Qed.
End chunk_facts.

(** C2: for every list and every chunk size [s >= 1] the partitioning
    function (the one of the script and the one of the UI handler) returns
    an ordered sequence of sub-lists whose concatenation is the input list
    and each of which has at most [s] elements. *)
Theorem chunk_partition {A} (array : list A) (s : Z) :
  1 <= s ->
  exists chunks,
    chunk array s = Some chunks
    /\ App_chunk.chunk array s = Some chunks
    /\ concat chunks = array
    /\ Forall (fun c => Z.of_nat (length c) <= s) chunks.
Proof.
  intros Hs.
  destruct (chunk_covers array s Hs) as (chunks & Hrun & Hcat & Hall).
  exists chunks. split; [exact Hrun|]. split; [by rewrite App_chunk_same|]. done.
Qed.

Lemma chunk_partition_witness :
  1 <= 2 /\
  exists chunks,
    chunk ["A"; "B"; "C"]%string 2 = Some chunks
    /\ App_chunk.chunk ["A"; "B"; "C"]%string 2 = Some chunks
    /\ concat chunks = ["A"; "B"; "C"]%string
    /\ Forall (fun c => Z.of_nat (length c) <= 2) chunks.
Proof. split; [lia|]. apply (chunk_partition ["A"; "B"; "C"]%string 2). lia. Defined.

(** ** The paced retry executor *)

Section retry_facts.
Variable rem : Remote.
Variable cfg : Config.

Lemma calls_app h1 h2 : calls (h1 ++ h2) = calls h1 ++ calls h2.
Proof. apply omap_app. Qed.

(** Pacing waits but invokes nothing. *)
Lemma limitPace_idle n :
  exists n', limitPace cfg n = (Ok tt, n')
             /\ ncalls n' = ncalls n /\ calls (history n') = calls (history n).
Proof.
  unfold limitPace. destruct (RATE_LIMIT_INTERVAL_MS cfg <=? 0); [by eexists|].
  unfold bind, dateNow, get_lastCallAt, set_lastCallAt, sleep, ret. simpl.
  destruct (0 <? _); simpl; eexists; (split; [reflexivity|]); simpl;
    rewrite ?calls_app, ?app_nil_r; done.
Qed.

Section one_operation.
Context {A : Type}.
Variable reply : Remote -> nat -> Request -> Reply A.
Variable req : Request.

(** The retry loop invokes the operation until it returns or the
    attempt ceiling is reached: [j] failures, then the invocation that
    decides the outcome. *)
Lemma callWithRetry_loop_spec fuel attempt delay n :
  0 <= attempt ->
  Z.max 1 (RETRY_MAX_ATTEMPTS cfg - attempt) <= Z.of_nat fuel ->
  exists (j : nat) n',
    Z.of_nat (S j) <= Z.max 1 (RETRY_MAX_ATTEMPTS cfg - attempt)
    /\ callWithRetry_loop rem cfg fuel (invoke rem reply req) attempt delay n
       = (outcome_of (reply rem (ncalls n + j)%nat req), n')
    /\ (forall i, (i < j)%nat -> returned (reply rem (ncalls n + i)%nat req) = false)
    /\ (returned (reply rem (ncalls n + j)%nat req) = false ->
        Z.of_nat (S j) = Z.max 1 (RETRY_MAX_ATTEMPTS cfg - attempt))
    /\ ncalls n' = (ncalls n + S j)%nat
    /\ calls (history n')
       = calls (history n) ++ replicate j (req, false)
         ++ [(req, returned (reply rem (ncalls n + j)%nat req))].
Proof.
  revert attempt delay n.
  induction fuel as [|fuel IH]; intros attempt delay n Hatt Hfuel; [lia|].
  simpl. unfold try_catch, bind at 1.
  destruct (limitPace_idle n) as (n1 & Hpace & Hcnt1 & Hcalls1). rewrite Hpace.
  unfold invoke at 1. rewrite Hcnt1.
  destruct (reply rem (ncalls n) req) as [v|e] eqn:Hreply; simpl.
  - exists 0%nat. eexists. rewrite Nat.add_0_r, Hreply. simpl.
    split; [lia|]. split; [reflexivity|]. split; [lia|]. split; [done|].
    simpl. split; [lia|]. by rewrite calls_app, Hcalls1.
  - destruct (Z.leb_spec (RETRY_MAX_ATTEMPTS cfg) (attempt + 1)) as [Hstop|Hgo].
    + exists 0%nat. eexists. rewrite Nat.add_0_r, Hreply. simpl.
      split; [lia|].
      split; [by destruct (isRateLimitError e)|].
      split; [lia|]. split; [lia|].
      destruct (isRateLimitError e); simpl;
        (split; [lia|]); by rewrite calls_app, Hcalls1.
    + rewrite andb_false_r.
      unfold bind at 1, random_floor at 1. unfold bind at 1, sleep at 1.
      match goal with |- context [callWithRetry_loop _ _ _ _ _ _ ?m] => set (n3 := m) end.
      destruct (IH (attempt + 1) (Z.min (delay * 2) (RETRY_MAX_MS cfg)) n3)
        as (j & n' & Hj & Hrun & Hfail & Hlast & Hcnt & Hcalls); [lia|lia|].
      assert (Hn3 : ncalls n3 = S (ncalls n)) by done.
      rewrite Hn3 in *.
      replace (S (ncalls n) + j)%nat with (ncalls n + S j)%nat in * by lia.
      exists (S j), n'. split; [lia|]. split; [exact Hrun|].
      split.
      { intros i Hi. destruct i as [|i].
        - by rewrite Nat.add_0_r, Hreply.
        - replace (ncalls n + S i)%nat with (S (ncalls n) + i)%nat by lia.
          apply Hfail. lia. }
      split; [intros H; specialize (Hlast H); lia|].
      split; [lia|].
      rewrite Hcalls. subst n3. simpl.
      rewrite !calls_app, Hcalls1. simpl. rewrite app_nil_r.
      by rewrite <- !app_assoc.
Qed.

Lemma callWithRetry_spec n :
  exists (j : nat) n',
    Z.of_nat (S j) <= Z.max 1 (RETRY_MAX_ATTEMPTS cfg)
    /\ callWithRetry rem cfg (invoke rem reply req) n
       = (outcome_of (reply rem (ncalls n + j)%nat req), n')
    /\ (forall i, (i < j)%nat -> returned (reply rem (ncalls n + i)%nat req) = false)
    /\ (returned (reply rem (ncalls n + j)%nat req) = false ->
        Z.of_nat (S j) = Z.max 1 (RETRY_MAX_ATTEMPTS cfg))
    /\ ncalls n' = (ncalls n + S j)%nat
    /\ calls (history n')
       = calls (history n) ++ replicate j (req, false)
         ++ [(req, returned (reply rem (ncalls n + j)%nat req))].
Proof.
  unfold callWithRetry.
  destruct (callWithRetry_loop_spec (S (Z.to_nat (RETRY_MAX_ATTEMPTS cfg))) 0
              (RETRY_BASE_MS cfg) n) as (j & n' & H); [lia|lia|].
  rewrite Z.sub_0_r in H. by exists j, n'.
Qed.
End one_operation.
End retry_facts.

(** C1: with attempt ceiling [RETRY_MAX_ATTEMPTS = N], an operation that
    fails on its first [N - 1] invocations and returns on the [N]-th makes
    the wrapped call return that value, and an operation that fails on all
    [N] invocations makes the wrapped call throw the error of the [N]-th
    invocation itself; in both cases the operation is invoked [N] times. *)
Theorem callWithRetry_attempt_ceiling {A} (rem : Remote) (cfg : Config)
    (reply : Remote -> nat -> Request -> Reply A) (req : Request) (n : Net) (N : nat) :
  RETRY_MAX_ATTEMPTS cfg = Z.of_nat N ->
  (1 <= N)%nat ->
  (forall i, (i < N - 1)%nat -> returned (reply rem (ncalls n + i)%nat req) = false) ->
  (forall v, reply rem (ncalls n + (N - 1))%nat req = Returns v ->
     (callWithRetry rem cfg (invoke rem reply req) n).1 = Ok v)
  /\ (forall e, reply rem (ncalls n + (N - 1))%nat req = Rejects e ->
        (callWithRetry rem cfg (invoke rem reply req) n).1 = Throw e)
  /\ ncalls (callWithRetry rem cfg (invoke rem reply req) n).2 = (ncalls n + N)%nat.
Proof.
  intros HN Hpos Hfails.
  destruct (callWithRetry_spec rem cfg reply req n)
    as (j & n' & Hj & Hrun & Hfail & Hlast & Hcnt & _).
  rewrite HN in Hj, Hlast.
  assert (j = N - 1)%nat as ->.
  { destruct (decide (j < N - 1)%nat) as [Hlt|]; [|lia].
    specialize (Hlast (Hfails j Hlt)). lia. }
  rewrite Hrun. simpl. split; [|split].
  - intros v Hv. by rewrite Hv.
  - intros e He. by rewrite He.
  - lia.
Qed.

Lemma callWithRetry_attempt_ceiling_witness :
  (callWithRetry (flaky_remote 4) (sample_config 5 false None false)
     (invoke (flaky_remote 4) reply_num (TokenDecimals "0xT")) net0).1 = Ok 100.
Proof.
  refine (proj1 (callWithRetry_attempt_ceiling (flaky_remote 4)
                   (sample_config 5 false None false) reply_num (TokenDecimals "0xT")
                   net0 5 _ _ _) 100 _).
  - reflexivity.
  - lia.
  - intros i Hi. do 4 (destruct i as [|i]; [reflexivity|]). lia.
  - reflexivity.
Defined.

(** ** The capacity prober *)

Section search_facts.
Variable estimate : Z -> St Net (option Z).
Variable gasBudget : Z.

(** The estimator always comes back, with an estimate or without. *)
Hypothesis estimate_total :
  forall count n, exists est n', estimate count n = (Ok est, n').

Lemma searchUp_spec fuel test low high safe n :
  1 <= test -> 1 <= low -> 1 <= safe <= Z.max 1 high ->
  high - test + 1 <= Z.of_nat fuel ->
  exists low' high' safe' n',
    searchUp estimate gasBudget fuel test low high safe n = (Ok (low', high', safe'), n')
    /\ 1 <= low' /\ high' <= high /\ 1 <= safe' <= Z.max 1 high.
Proof.
  revert test low safe n.
  induction fuel as [|fuel IH]; intros test low safe n Htest Hlow Hsafe Hfuel; simpl.
  - destruct (Z.leb_spec test high); [lia|].
    exists low, high, safe, n. unfold ret. repeat split; lia.
  - destruct (Z.leb_spec test high) as [Hle|Hgt].
    + unfold bind at 1.
      destruct (estimate_total test n) as (est & n1 & ->).
      destruct (overBudget gasBudget est).
      * exists low, test, safe, n1. unfold ret. repeat split; lia.
      * destruct (Z.eqb_spec test high) as [->|Hne].
        -- exists high, high, high, n1. unfold ret. repeat split; lia.
        -- apply IH; lia.
    + exists low, high, safe, n. unfold ret. repeat split; lia.
Qed.

Lemma searchBetween_spec fuel low high safe bound n :
  1 <= low -> 1 <= safe <= bound -> high <= bound ->
  high - low <= Z.of_nat fuel ->
  exists safe' n',
    searchBetween estimate gasBudget fuel low high safe n = (Ok safe', n')
    /\ 1 <= safe' <= bound.
Proof.
  revert low high safe n.
  induction fuel as [|fuel IH]; intros low high safe n Hlow Hsafe Hhigh Hfuel; simpl.
  - destruct (Z.ltb_spec (low + 1) high); [lia|].
    exists safe, n. by unfold ret.
  - destruct (Z.ltb_spec (low + 1) high) as [Hlt|Hge].
    + unfold bind at 1.
      destruct (estimate_total ((low + high) / 2) n) as (est & n1 & ->).
      assert (low < (low + high) / 2 < high)
        by (Z.div_mod_to_equations; lia).
      destruct (withinBudget gasBudget est); apply IH; lia.
    + exists safe, n. by unfold ret.
Qed.

(** The search returns, and what it returns is at least 1 and at most
    the larger of 1 and the exploration ceiling. *)
Lemma search_bounds maxTry n :
  exists s n',
    search estimate gasBudget maxTry n = (Ok s, n') /\ 1 <= s <= Z.max 1 maxTry.
Proof.
  unfold search, bind at 1.
  destruct (searchUp_spec (Z.to_nat maxTry) 1 1 maxTry 1 n)
    as (low & high & safe & n1 & -> & Hlow & Hhigh & Hsafe); [lia..|].
  unfold bind at 1.
  destruct (searchBetween_spec (Z.to_nat (high - low)) low high safe (Z.max 1 maxTry) n1)
    as (safe' & n2 & -> & Hsafe'); [lia..|].
  exists (Z.max 1 safe'), n2. unfold ret. split; [done|lia].
Qed.

Lemma searchUp_step fuel test low high safe :
  searchUp estimate gasBudget (S fuel) test low high safe
  = if test <=? high then
      let* est := estimate test in
      if overBudget gasBudget est then ret (low, test, safe)
      else if test =? high then ret (test, high, test)
      else searchUp estimate gasBudget fuel (test * 2) test high test
    else ret (low, high, safe).
Proof. reflexivity. Qed.


End search_facts.

Section prober_facts.
Variable rem : Remote.
Variable cfg : Config.
Variables (recipients : list string) (amounts : list Z) (gasBudget : Z).

Lemma retried_outcome {A} (reply : Remote -> nat -> Request -> Reply A) req n :
  exists k n',
    retried rem cfg reply req n = (outcome_of (reply rem k req), n').
Proof.
  destruct (callWithRetry_spec rem cfg reply req n) as (j & n' & _ & Hrun & _).
  by exists (ncalls n + j)%nat, n'.
Qed.

Lemma estimateForCount_outcome count n :
  exists k n',
    estimateForCount rem cfg recipients amounts count n
    = (Ok (match reply_num rem k (estimateRequest cfg recipients amounts count) with
           | Returns est => Some est
           | Rejects _ => None
           end), n').
Proof.
  unfold estimateForCount, estimateRequest, try_catch.
  destruct (isNative cfg); unfold bind at 1;
    match goal with |- context [retried rem cfg reply_num ?req n] =>
      destruct (retried_outcome reply_num req n) as (k & n' & ->)
    end;
    exists k, n'; by destruct (reply_num rem k _).
Qed.

Lemma estimateForCount_total count n :
  exists est n', estimateForCount rem cfg recipients amounts count n = (Ok est, n').
Proof.
  destruct (estimateForCount_outcome count n) as (k & n' & ->). by eexists _, _.
Qed.

(** The script's two loops are the search over [estimateForCount]. *)
Lemma findChunkSize_search :
  findChunkSize rem cfg recipients amounts gasBudget
  = search (estimateForCount rem cfg recipients amounts) gasBudget
      (Z.min (Z.of_nat (length recipients)) 512).
Proof. reflexivity. Qed.
End prober_facts.

Section ui_prober_facts.
Variable rem : Remote.
Variables (st : App.AppState) (recips : list string) (amts : list Z).

Lemma estCount_total count n :
  exists est n', App.estCount rem st recips amts count n = (Ok est, n').
Proof.
  unfold App.estCount, try_catch, bind, invoke.
  destruct (reply_num rem (ncalls n) _); simpl; by eexists _, _.
Qed.

(** Past its guard and the block query, [estimateChunkSize] is the search
    over [estCount]. *)
Lemma estimateChunkSize_search maxTry :
  App.estimateChunkSize rem st recips amts maxTry
  = if negb (App.connected st) || negb (truthy (App.batchAddress st))
       || negb (truthy (App.tokenAddress st))
    then ret 1
    else
      let* latest := invoke rem reply_block GetBlockLatest in
      search (App.estCount rem st recips amts) (4 * default 30000000 latest / 5) maxTry.
Proof. reflexivity. Qed.
End ui_prober_facts.

(** C4: for a non-empty working set and whatever the estimator does, the
    chunk size the script's prober returns is at least 1 and at most the
    size of the working set; the prober of the UI handler either returns
    such a size or throws the error of its block query. *)
Theorem prober_within_working_set (rem : Remote) (cfg : Config) (st : App.AppState)
    (recipients : list string) (amounts : list Z) (gasBudget : Z) (n : Net) :
  (1 <= length recipients)%nat ->
  (exists s n',
      findChunkSize rem cfg recipients amounts gasBudget n = (Ok s, n')
      /\ 1 <= s <= Z.of_nat (length recipients))
  /\ match App.estimateChunkSize rem st recipients amounts
             (App.defaultMaxTry recipients) n with
     | (Ok s, _) => 1 <= s <= Z.of_nat (length recipients)
     | (Throw e, _) => reply_block rem (ncalls n) GetBlockLatest = Rejects e
     | (Diverge, _) => False
     end.
Proof.
  intros Hlen. split.
  - rewrite findChunkSize_search.
    destruct (search_bounds (estimateForCount rem cfg recipients amounts) gasBudget
                (estimateForCount_total rem cfg recipients amounts)
                (Z.min (Z.of_nat (length recipients)) 512) n) as (s & n' & Hrun & Hs).
    exists s, n'. split; [done|lia].
  - rewrite estimateChunkSize_search.
    destruct (negb (App.connected st) || negb (truthy (App.batchAddress st))
              || negb (truthy (App.tokenAddress st))).
    { unfold ret. lia. }
    unfold bind, invoke.
    destruct (reply_block rem (ncalls n) GetBlockLatest) as [latest|e]; simpl; [|done].
    match goal with |- context [search ?est ?budget ?maxTry ?m] =>
      destruct (search_bounds est budget (estCount_total rem st recipients amounts) maxTry m)
        as (s & n' & -> & Hs)
    end.
    unfold App.defaultMaxTry in Hs. lia.
Qed.

Lemma prober_within_working_set_witness :
  exists s n',
    findChunkSize steady_remote (sample_config 5 false (Some 18) false)
      ["0xA"; "0xB"; "0xC"]%string [1; 2; 3] 24000000 net0 = (Ok s, n')
    /\ 1 <= s <= 3.
Proof.
  refine (proj1 (prober_within_working_set steady_remote
                   (sample_config 5 false (Some 18) false)
                   (App.mkAppState true "0xT" "0xB" [] (Some 18))
                   ["0xA"; "0xB"; "0xC"]%string [1; 2; 3] 24000000 net0 _)).
  simpl. lia.
Defined.




(** ** The sending loop and the checkpoint *)

Section set_facts.
Implicit Types (k : string) (s ks : list string).

Lemma set_add_elem k k' s : k' ∈ set_add k s <-> k' ∈ s \/ k' = k.
Proof.
  unfold set_add, set_has. case_bool_decide.
  - split; [by left|]. intros [?| ->]; done.
  - rewrite elem_of_app, list_elem_of_singleton. done.
Qed.


Lemma set_add_NoDup k s : NoDup s -> NoDup (set_add k s).
Proof.
  intros Hs. unfold set_add, set_has. case_bool_decide; [done|].
  apply NoDup_app. split; [done|]. split.
  - intros x Hx ->%list_elem_of_singleton. done.
  - apply NoDup_singleton.
Qed.

Lemma set_add_all_elem k ks s : k ∈ set_add_all ks s <-> k ∈ s \/ k ∈ ks.
Proof.
  unfold set_add_all. revert s.
  induction ks as [|k0 ks IH]; intros s; simpl.
  - rewrite elem_of_nil. tauto.
  - rewrite IH, set_add_elem, elem_of_cons. tauto.
Qed.


Lemma set_add_all_NoDup ks s : NoDup s -> NoDup (set_add_all ks s).
Proof.
  unfold set_add_all. revert s.
  induction ks as [|k0 ks IH]; intros s Hs; simpl; [done|].
  by apply IH, set_add_NoDup.
Qed.
End set_facts.

Section send_facts.
Variable rem : Remote.
Variable host : Host.
Variable cfg : Config.

Lemma lift_run {A} (m : St Net A) w :
  lift m w
  = ((m (net w)).1,
     {| net := (m (net w)).2; file := file w; nwrites := nwrites w;
        fslog := fslog w; console := console w |}).
Proof. unfold lift. by destruct (m (net w)). Qed.

(** The network side of one iteration of the sending loop. *)
Lemma sendChunk_transfer entriesChunk :
  (if isNative cfg
   then retried rem cfg reply_tx
          (BatchTransferNative (batchAddress cfg) (map e_address entriesChunk)
             (map amt entriesChunk) (sumAmounts (map amt entriesChunk)))
   else retried rem cfg reply_tx
          (BatchTransferERC20 (batchAddress cfg) (tokenAddress cfg)
             (map e_address entriesChunk) (map amt entriesChunk)))
  = retried rem cfg reply_tx (transferRequest cfg entriesChunk).
Proof. unfold transferRequest. by destruct (isNative cfg). Qed.

(** One iteration of the sending loop, run symbolically: the transfer,
    the wait for its confirmation, and then the bookkeeping and the pause,
    which touch disjoint parts of the state. *)
Lemma sendChunk_run write_error wallet i entriesChunk sentKeys checkpoints w :
  sendChunk rem host write_error cfg wallet i entriesChunk sentKeys checkpoints w
  = let failed e n :=
      (Throw e,
       {| net := n; file := file w; nwrites := nwrites w; fslog := fslog w;
          console := console w
                     ++ [ErrorLine ("[Send] Chunk " +:+ pretty (i + 1) +:+ " failed:") e] |}) in
    let stuck n :=
      (Diverge,
       {| net := n; file := file w; nwrites := nwrites w; fslog := fslog w;
          console := console w |}) in
    match retried rem cfg reply_tx (transferRequest cfg entriesChunk) (net w) with
    | (Ok tx, n1) =>
        match retried rem cfg reply_receipt (TxWait tx) n1 with
        | (Ok _, n2) =>
            let n3 := if 0 <? SLEEP_BETWEEN_TX_MS cfg
                      then (sleep (SLEEP_BETWEEN_TX_MS cfg) n2).2 else n2 in
            if DISABLE_CHECKPOINTS cfg then
              (Ok (sentKeys, checkpoints),
               {| net := n3; file := file w; nwrites := nwrites w; fslog := fslog w;
                  console := console w |})
            else
              let updated := set_add_all (keysOf entriesChunk) sentKeys in
              let doc := <[sessionId host cfg wallet := updated]> checkpoints in
              match write_error (nwrites w) with
              | None =>
                  (Ok (updated, doc),
                   {| net := n3; file := Some (JsonDoc doc); nwrites := S (nwrites w);
                      fslog := fslog w ++ [FsWrite doc true]; console := console w |})
              | Some _ =>
                  (Ok (updated, doc),
                   {| net := n3; file := file w; nwrites := S (nwrites w);
                      fslog := fslog w ++ [FsWrite doc false];
                      console := console w
                                 ++ [Warn ("[Checkpoint] Failed to write "
                                           +:+ CHECKPOINT_FILE cfg +:+ ":")] |})
              end
        | (Throw e, n2) => failed e n2
        | (Diverge, n2) => stuck n2
        end
    | (Throw e, n1) => failed e n1
    | (Diverge, n1) => stuck n1
    end.
Proof.
  unfold sendChunk. rewrite sendChunk_transfer.
  unfold try_catch, bind at 1. rewrite lift_run.
  destruct (retried rem cfg reply_tx (transferRequest cfg entriesChunk) (net w))
    as [[tx|e|] n1]; simpl; [|done..].
  unfold bind at 1. rewrite lift_run. simpl.
  destruct (retried rem cfg reply_receipt (TxWait tx) n1) as [[rcpt|e|] n2]; simpl; [|done..].
  unfold recordSent, keysOf.
  destruct (DISABLE_CHECKPOINTS cfg); simpl.
  - unfold bind, ret. simpl. destruct (0 <? SLEEP_BETWEEN_TX_MS cfg); simpl; done.
  - unfold bind, try_catch, writeFileSync, print, ret. simpl.
    destruct (write_error (nwrites w)); simpl;
      destruct (0 <? SLEEP_BETWEEN_TX_MS cfg); simpl; done.
Qed.

Lemma written_app sid log1 log2 :
  written sid (log1 ++ log2) = written sid log1 ++ written sid log2.
Proof. apply omap_app. Qed.

Lemma persisted_app f log1 log2 :
  persisted f (log1 ++ log2) = persisted (persisted f log1) log2.
Proof. apply foldl_app. Qed.

Lemma failed_writes_app log1 log2 :
  failed_writes (log1 ++ log2) = (failed_writes log1 + failed_writes log2)%nat.
Proof. unfold failed_writes. by rewrite filter_app, length_app. Qed.

Lemma warnings_app out1 out2 :
  warnings (out1 ++ out2) = (warnings out1 + warnings out2)%nat.
Proof. unfold warnings. by rewrite filter_app, length_app. Qed.

(** The sending loop and the checkpoint file: the loop writes once per
    confirmed chunk, and the [j]-th write carries for the session the key
    set after the [j]-th chunk; the file holds the last write that
    succeeded; every failed write is answered by one warning. *)
Lemma sendChunks_writes write_error wallet i chunks sentKeys checkpoints w :
  exists (k : nat) log out,
    (k <= length chunks)%nat
    /\ fslog (sendChunks rem host write_error cfg wallet i chunks sentKeys checkpoints w).2
       = fslog w ++ log
    /\ console (sendChunks rem host write_error cfg wallet i chunks sentKeys checkpoints w).2
       = console w ++ out
    /\ written (sessionId host cfg wallet) log
       = (if DISABLE_CHECKPOINTS cfg then [] else take k (snapshots sentKeys chunks))
    /\ file (sendChunks rem host write_error cfg wallet i chunks sentKeys checkpoints w).2
       = persisted (file w) log
    /\ warnings out = failed_writes log
    /\ (forall sentKeys' checkpoints',
          (sendChunks rem host write_error cfg wallet i chunks sentKeys checkpoints w).1
          = Ok (sentKeys', checkpoints') ->
          k = length chunks
          /\ sentKeys' = if DISABLE_CHECKPOINTS cfg then sentKeys
                         else foldl (fun acc c => set_add_all (keysOf c) acc) sentKeys chunks).
Proof.
  revert i sentKeys checkpoints w.
  induction chunks as [|c rest IH]; intros i sentKeys checkpoints w.
  - exists 0%nat, [], []. simpl. rewrite !app_nil_r. unfold ret. simpl.
    destruct (DISABLE_CHECKPOINTS cfg); repeat split; try done; intros; by simplify_eq.
  - cbn [sendChunks]. unfold bind. rewrite sendChunk_run. cbv zeta.
    destruct (retried rem cfg reply_tx (transferRequest cfg c) (net w)) as [[tx|e|] n1];
      [|exists 0%nat, [], [ErrorLine ("[Send] Chunk " +:+ pretty (i + 1) +:+ " failed:") e];
        simpl; rewrite ?app_nil_r; destruct (DISABLE_CHECKPOINTS cfg);
        repeat split; try done; try lia; intros; simplify_eq
       |exists 0%nat, [], []; simpl; rewrite ?app_nil_r; destruct (DISABLE_CHECKPOINTS cfg);
        repeat split; try done; try lia; intros; simplify_eq].
    destruct (retried rem cfg reply_receipt (TxWait tx) n1) as [[rcpt|e|] n2];
      [|exists 0%nat, [], [ErrorLine ("[Send] Chunk " +:+ pretty (i + 1) +:+ " failed:") e];
        simpl; rewrite ?app_nil_r; destruct (DISABLE_CHECKPOINTS cfg);
        repeat split; try done; try lia; intros; simplify_eq
       |exists 0%nat, [], []; simpl; rewrite ?app_nil_r; destruct (DISABLE_CHECKPOINTS cfg);
        repeat split; try done; try lia; intros; simplify_eq].
    set (updated := set_add_all (keysOf c) sentKeys).
    set (doc := <[sessionId host cfg wallet := updated]> checkpoints).
    destruct (DISABLE_CHECKPOINTS cfg) eqn:Hoff.
    { match goal with |- context [sendChunks _ _ _ _ _ _ _ _ _ ?w1] =>
        set (w' := w1);
        destruct (IH (i + 1) sentKeys checkpoints w')
          as (k & log & out & Hk & Hlog & Hout & Hwritten & Hfile & Hwarn & Hfinal)
      end.
      exists (S k), log, out. rewrite Hlog, Hout, Hfile. unfold w'. cbn [fslog console file].
      split; [simpl; lia|]. split; [done|]. split; [done|]. split; [done|].
      split; [done|]. split; [done|].
      intros S' cps' Hrun. destruct (Hfinal S' cps' Hrun) as [-> ->]. done. }
    destruct (write_error (nwrites w)) as [err|];
      match goal with |- context [sendChunks _ _ _ _ _ _ _ _ _ ?w1] =>
        set (w' := w1);
        destruct (IH (i + 1) updated doc w')
          as (k & log & out & Hk & Hlog & Hout & Hwritten & Hfile & Hwarn & Hfinal)
      end.
    + exists (S k), (FsWrite doc false :: log),
        (Warn ("[Checkpoint] Failed to write " +:+ CHECKPOINT_FILE cfg +:+ ":") :: out).
      rewrite Hlog, Hout, Hfile. unfold w'. cbn [fslog console file].
      rewrite <- !app_assoc. simpl.
      split; [lia|]. split; [done|]. split; [done|].
      split. { unfold written in *. simpl. unfold doc at 1.
               rewrite lookup_insert_eq. simpl. by f_equal. }
      split; [done|].
      split. { change (Warn ?m :: out) with ([Warn m] ++ out).
               change (FsWrite doc false :: log) with ([FsWrite doc false] ++ log).
               rewrite warnings_app, failed_writes_app, Hwarn. done. }
      intros S' cps' Hrun. destruct (Hfinal S' cps' Hrun) as [-> ->]. done.
    + exists (S k), (FsWrite doc true :: log), out.
      rewrite Hlog, Hout, Hfile. unfold w'. cbn [fslog console file].
      rewrite <- !app_assoc. simpl.
      split; [lia|]. split; [done|]. split; [done|].
      split. { unfold written in *. simpl. unfold doc at 1.
               rewrite lookup_insert_eq. simpl. by f_equal. }
      split; [done|].
      split. { change (FsWrite doc true :: log) with ([FsWrite doc true] ++ log).
               rewrite failed_writes_app, Hwarn. done. }
      intros S' cps' Hrun. destruct (Hfinal S' cps' Hrun) as [-> ->]. done.
Qed.

(** What the loop returns and what it does on the network do not depend
    on the checkpoint file or on whether writing it fails. *)
Lemma sendChunks_independent write_error1 write_error2 wallet i chunks sentKeys checkpoints
    w1 w2 :
  net w1 = net w2 ->
  (sendChunks rem host write_error1 cfg wallet i chunks sentKeys checkpoints w1).1
  = (sendChunks rem host write_error2 cfg wallet i chunks sentKeys checkpoints w2).1
  /\ net (sendChunks rem host write_error1 cfg wallet i chunks sentKeys checkpoints w1).2
     = net (sendChunks rem host write_error2 cfg wallet i chunks sentKeys checkpoints w2).2.
Proof.
  revert i sentKeys checkpoints w1 w2.
  induction chunks as [|c rest IH]; intros i sentKeys checkpoints w1 w2 Hnet; [done|].
  cbn [sendChunks]. unfold bind. rewrite !sendChunk_run. cbv zeta. rewrite Hnet.
  destruct (retried rem cfg reply_tx (transferRequest cfg c) (net w2)) as [[tx|e|] n1];
    [|done..].
  destruct (retried rem cfg reply_receipt (TxWait tx) n1) as [[rcpt|e|] n2]; [|done..].
  destruct (DISABLE_CHECKPOINTS cfg); [by apply IH|].
  destruct (write_error1 (nwrites w1)), (write_error2 (nwrites w2)); by apply IH.
Qed.

End send_facts.



(** C9: whether writing the checkpoint file fails changes neither the
    outcome of the run nor anything it does on the network, so every
    remaining chunk is submitted all the same; the sending loop returns the
    same set of confirmed keys; and each failed write is answered by
    exactly one warning. *)
Theorem checkpoint_write_failure_not_fatal (rem : Remote) (host : Host)
    (write_error : nat -> option Error) (cfg : Config) (entries : list Recipient)
    (wallet : string) (i : Z) (chunks : list (list Entry)) (sentKeys : list string)
    (checkpoints : Checkpoints) (w : World) :
  (main rem host write_error cfg entries w).1 = (main rem host never_fails cfg entries w).1
  /\ net (main rem host write_error cfg entries w).2
     = net (main rem host never_fails cfg entries w).2
  /\ (sendChunks rem host write_error cfg wallet i chunks sentKeys checkpoints w).1
     = (sendChunks rem host never_fails cfg wallet i chunks sentKeys checkpoints w).1
  /\ exists log out,
       fslog (sendChunks rem host write_error cfg wallet i chunks sentKeys checkpoints w).2
       = fslog w ++ log
       /\ console (sendChunks rem host write_error cfg wallet i chunks sentKeys checkpoints w).2
          = console w ++ out
       /\ warnings out = failed_writes log.
Proof.
  assert (Hmain :
    (main rem host write_error cfg entries w).1 = (main rem host never_fails cfg entries w).1
    /\ net (main rem host write_error cfg entries w).2
       = net (main rem host never_fails cfg entries w).2).
  { unfold main, deliver, bind.
    destruct (prepare rem host cfg entries w) as [[p|e|] w1]; [|done..].
    destruct (lift (ensureFunds rem cfg (wallet_address p) _) w1) as [[[]|e|] w2]; [|done..].
    destruct (lift (readGasBudget rem host cfg) w2) as [[gasBudget|e|] w3]; [|done..].
    destruct (lift (findChunkSize rem cfg _ _ gasBudget) w3) as [[chunkSize|e|] w4]; [|done..].
    destruct (chunk (validEntries (tally p)) chunkSize) as [entryChunks|]; [|done].
    destruct (sendChunks_independent rem host cfg write_error never_fails (wallet_address p) 0
                entryChunks (sentKeys0 p) (checkpoints0 p) w4 w4 eq_refl) as [Hout Hnet].
    destruct (sendChunks rem host write_error cfg (wallet_address p) 0 entryChunks
                (sentKeys0 p) (checkpoints0 p) w4) as [[st1|e1|] w5];
      destruct (sendChunks rem host never_fails cfg (wallet_address p) 0 entryChunks
                  (sentKeys0 p) (checkpoints0 p) w4) as [[st2|e2|] w6];
      simpl in *; try done; by simplify_eq. }
  destruct Hmain as [Hout Hnet]. split; [done|]. split; [done|]. split.
  - apply sendChunks_independent. done.
  - destruct (sendChunks_writes rem host cfg write_error wallet i chunks sentKeys checkpoints w)
      as (k & log & out & _ & Hlog & Hcon & _ & _ & Hwarn & _).
    by exists log, out.
Qed.

(** ** What a computation may invoke *)

Section emits_facts.
Context {S : Type} (view : S -> Net).
Implicit Types (P Q : Request * bool -> Prop).

Lemma extends_refl P n : extends P n n.
Proof. exists []. by rewrite app_nil_r. Qed.

Lemma extends_trans P n1 n2 n3 : extends P n1 n2 -> extends P n2 n3 -> extends P n1 n3.
Proof.
  intros (cs1 & H1 & Hall1) (cs2 & H2 & Hall2). exists (cs1 ++ cs2).
  rewrite H2, H1, app_assoc. split; [done|]. by apply Forall_app.
Qed.

Lemma extends_weaken P Q n n' : (forall c, P c -> Q c) -> extends P n n' -> extends Q n n'.
Proof.
  intros HPQ (cs & H & Hall). exists cs. split; [done|]. eapply Forall_impl; eauto.
Qed.

Lemma emits_weaken {A} P Q (m : St S A) :
  (forall c, P c -> Q c) -> emits view P m -> emits view Q m.
Proof. intros HPQ Hm s. eapply extends_weaken; eauto. Qed.

Lemma emits_ret {A} P (a : A) : emits view P (ret a).
Proof. intros s. apply extends_refl. Qed.

Lemma emits_throw {A} P e : emits view P (throw (A := A) e).
Proof. intros s. apply extends_refl. Qed.

Lemma emits_diverge {A} P : emits view P (diverge (A := A)).
Proof. intros s. apply extends_refl. Qed.

Lemma emits_bind {A B} P (m : St S A) (k : A -> St S B) :
  emits view P m -> (forall a, emits view P (k a)) -> emits view P (bind m k).
Proof.
  intros Hm Hk s. unfold bind. specialize (Hm s).
  destruct (m s) as [[a|e|] s1]; simpl in *; [|done..].
  eapply extends_trans; [exact Hm|apply Hk].
Qed.

Lemma emits_try_catch {A} P (m : St S A) (h : Error -> St S A) :
  emits view P m -> (forall e, emits view P (h e)) -> emits view P (try_catch m h).
Proof.
  intros Hm Hh s. unfold try_catch. specialize (Hm s).
  destruct (m s) as [[a|e|] s1]; simpl in *; [done| |done].
  eapply extends_trans; [exact Hm|apply Hh].
Qed.

Lemma emits_finally {A} P (m : St S A) (fin : S -> S) :
  emits view P m -> (forall s, view (fin s) = view s) -> emits view P (finally m fin).
Proof.
  intros Hm Hfin s. unfold finally. specialize (Hm s).
  destruct (m s) as [r s1]; simpl in *. by rewrite Hfin.
Qed.
End emits_facts.

Section emits_operations.
Variable rem : Remote.
Variable cfg : Config.
Implicit Types (P : Request * bool -> Prop).

Lemma emits_invoke {A} P (reply : Remote -> nat -> Request -> Reply A) req :
  (forall ok, P (req, ok)) -> emits id P (invoke rem reply req).
Proof.
  intros HP n. exists [(req, returned (reply rem (ncalls n) req))].
  unfold invoke. simpl. rewrite calls_app. split; [done|]. by constructor.
Qed.

Lemma emits_sleep P ms : emits id P (sleep ms).
Proof.
  intros n. exists []. unfold sleep. simpl. rewrite calls_app. simpl. done.
Qed.

Lemma emits_retried {A} P (reply : Remote -> nat -> Request -> Reply A) req :
  (forall ok, P (req, ok)) -> emits id P (retried rem cfg reply req).
Proof.
  intros HP n.
  destruct (callWithRetry_spec rem cfg reply req n) as (j & n' & _ & Hrun & _ & _ & _ & Hcalls).
  unfold retried. rewrite Hrun. simpl. eexists. split; [exact Hcalls|].
  apply Forall_app. split; [|by constructor].
  by apply Forall_replicate.
Qed.

Lemma emits_lift {A} P (m : St Net A) : emits id P m -> emits net P (lift m).
Proof. intros Hm w. rewrite lift_run. apply Hm. Qed.

Lemma emits_App_lift {A} P (m : St Net A) : emits id P m -> emits App.page_net P (App.lift m).
Proof.
  intros Hm pg. unfold App.lift. specialize (Hm (App.page_net pg)).
  by destruct (m (App.page_net pg)).
Qed.

Lemma emits_print P line : emits net P (print line).
Proof. intros w. apply extends_refl. Qed.

Lemma emits_update P ev : emits App.page_net P (App.update ev).
Proof. intros pg. apply extends_refl. Qed.

Lemma emits_existsSync P : emits net P existsSync.
Proof. intros w. apply extends_refl. Qed.

Lemma emits_readCheckpoints P : emits net P readCheckpoints.
Proof. intros w. apply extends_refl. Qed.

Lemma emits_writeFileSync P write_error doc : emits net P (writeFileSync write_error doc).
Proof.
  intros w. unfold writeFileSync. destruct (write_error (nwrites w)); apply extends_refl.
Qed.

(** The search invokes only what its estimator invokes. *)
Lemma emits_search P estimate gasBudget maxTry :
  (forall count, emits id P (estimate count)) ->
  emits id P (search estimate gasBudget maxTry).
Proof.
  intros Hest.
  assert (Hup : forall fuel test low high safe,
             emits id P (searchUp estimate gasBudget fuel test low high safe)).
  { induction fuel as [|fuel IH]; intros test low high safe; simpl;
      destruct (test <=? high); try apply emits_ret; try apply emits_diverge.
    apply emits_bind; [apply Hest|]. intros est.
    destruct (overBudget gasBudget est); [apply emits_ret|].
    destruct (test =? high); [apply emits_ret|apply IH]. }
  assert (Hbetween : forall fuel low high safe,
             emits id P (searchBetween estimate gasBudget fuel low high safe)).
  { induction fuel as [|fuel IH]; intros low high safe; simpl;
      destruct (low + 1 <? high); try apply emits_ret; try apply emits_diverge.
    apply emits_bind; [apply Hest|]. intros est.
    destruct (withinBudget gasBudget est); apply IH. }
  unfold search. apply emits_bind; [apply Hup|]. intros [[low high] safe].
  apply emits_bind; [apply Hbetween|]. intros safe'. apply emits_ret.
Qed.
End emits_operations.

(** ** Duplicate addresses *)

Section duplicate_facts.
Variable host : Host.
Implicit Types (c : string) (l seen dups : list string).

Lemma occurrences_cons c x l :
  occurrences c (x :: l) = ((if decide (x = c) then 1 else 0) + occurrences c l)%nat.
Proof.
  unfold occurrences. rewrite filter_cons. by destruct (decide (x = c)).
Qed.

Lemma occurrences_elem c l : (1 <= occurrences c l)%nat <-> c ∈ l.
Proof.
  induction l as [|x l IH].
  - unfold occurrences. simpl. rewrite elem_of_nil. lia.
  - rewrite occurrences_cons, elem_of_cons. destruct (decide (x = c)) as [->|Hne].
    + split; [by left|lia].
    + simpl. rewrite IH. split; [by right|]. intros [?|?]; congruence.
Qed.

Lemma duplicated_skip c x seen dups l :
  x ∈ seen ->
  duplicated c seen (set_add x dups) l <-> duplicated c seen dups (x :: l).
Proof.
  intros Hx. unfold duplicated.
  rewrite set_add_elem, occurrences_cons, elem_of_cons.
  destruct (decide (x = c)) as [->|Hne].
  - split; intros _; [right; left; split; [done|by left]|left; by right].
  - simpl. split.
    + intros [[?|?]|[[? ?]|?]]; [by left|congruence|right; left; split; [done|by right]|
                                 by right; right].
    + intros [?|[[? [?|?]]|?]]; [left; by left|congruence|by right; left|by right; right].
Qed.

Lemma duplicated_fresh c x seen dups l :
  x ∉ seen ->
  duplicated c (set_add x seen) dups l <-> duplicated c seen dups (x :: l).
Proof.
  intros Hx. unfold duplicated.
  rewrite set_add_elem, occurrences_cons, elem_of_cons.
  destruct (decide (x = c)) as [->|Hne].
  - pose proof (occurrences_elem c l) as Hocc. split.
    + intros [?|[[_ Hin]|?]]; [by left| |right; right; lia].
      right; right. apply Hocc in Hin. lia.
    + intros [?|[[? _]|Htwo]]; [by left|done|].
      right; left. split; [by right|]. apply Hocc. lia.
  - simpl. split.
    + intros [?|[[[?|?] ?]|?]]; [by left|right; left; split; [done|by right]|congruence|
                                 by right; right].
    + intros [?|[[? [?|?]]|?]]; [by left|congruence|right; left; split; [by left|done]|
                                 by right; right].
Qed.

Lemma scanDuplicates_elem c entries seen dups :
  c ∈ scanDuplicates host entries seen dups
  <-> duplicated c seen dups (canonical host (map address entries)).
Proof.
  revert seen dups. induction entries as [|r rest IH]; intros seen dups; simpl.
  - unfold duplicated, occurrences. simpl. rewrite elem_of_nil. split; [by left|].
    intros [?|[[_ []]|?]]; [done|lia].
  - unfold canonical. simpl. fold (canonical host (map address rest)).
    destruct (getAddress host (address r)) as [norm|]; simpl; [|apply IH].
    unfold set_has. case_bool_decide.
    + rewrite IH. by apply duplicated_skip.
    + rewrite IH. by apply duplicated_fresh.
Qed.


End duplicate_facts.




(** ** Resuming from a checkpoint *)

Section resume_facts.
Variable rem : Remote.
Variable host : Host.
Variable cfg : Config.

Lemma NoDup_occurrences (c : string) (l : list string) :
  NoDup l -> (occurrences c l <= 1)%nat.
Proof.
  induction 1 as [|x l Hx _ IH]; [unfold occurrences; simpl; lia|].
  rewrite occurrences_cons. destruct (decide (x = c)) as [->|]; [|simpl; lia].
  destruct (decide (1 <= occurrences c l)%nat) as [Hocc|]; [|lia].
  by apply occurrences_elem in Hocc.
Qed.

Lemma scanDuplicates_NoDup (entries : list Recipient) :
  NoDup (canonical host (map address entries)) -> scanDuplicates host entries [] [] = [].
Proof.
  intros Hnodup.
  destruct (scanDuplicates host entries [] []) as [|c l] eqn:Hscan; [done|].
  assert (Hc : c ∈ scanDuplicates host entries [] []) by (rewrite Hscan; by left).
  apply scanDuplicates_elem in Hc as [Hc|[[Hc _]|Hc]]; [by apply elem_of_nil in Hc..|].
  pose proof (NoDup_occurrences c _ Hnodup). lia.
Qed.

(** The decimals are always resolved, and resolving them invokes nothing
    but [token.decimals()], and nothing at all for the native asset or
    under an override. *)
Lemma resolveDecimals_run w :
  exists d n',
    resolveDecimals rem cfg w
    = (Ok d, {| net := n'; file := file w; nwrites := nwrites w; fslog := fslog w;
                console := console (resolveDecimals rem cfg w).2 |})
    /\ extends (fun c => is_decimals c.1 = true) (net w) n'
    /\ (isNative cfg = true \/ is_Some (decimalsOverride cfg) -> n' = net w).
Proof.
  unfold resolveDecimals.
  destruct (isNative cfg); simpl.
  { exists 18, (net w). unfold ret. simpl. destruct w. simpl.
    split; [done|]. split; [apply extends_refl|done]. }
  destruct (decimalsOverride cfg) as [d|].
  { exists d, (net w). unfold ret. simpl. destruct w. simpl.
    split; [done|]. split; [apply extends_refl|done]. }
  unfold try_catch. rewrite lift_run.
  pose proof (emits_retried rem cfg (fun c => is_decimals c.1 = true) reply_num
                (TokenDecimals (tokenAddress cfg)) (fun _ => eq_refl) (net w)) as Hext.
  simpl in Hext.
  destruct (retried rem cfg reply_num (TokenDecimals (tokenAddress cfg)) (net w))
    as [[d|e|] n'] eqn:Hrun; simpl.
  - exists d, n'. split; [done|]. split; [done|]. intros [?|[? ?]]; done.
  - exists 18, n'. split; [done|]. split; [done|]. intros [?|[? ?]]; done.
  - destruct (retried_outcome rem cfg reply_num (TokenDecimals (tokenAddress cfg)) (net w))
      as (k & n1 & Hout).
    rewrite Hout in Hrun. by destruct (reply_num rem k _).
Qed.

End resume_facts.




(** ** Authorization *)

Ltac emits_tac :=
  repeat first
    [ apply emits_ret | apply emits_throw | apply emits_diverge
    | apply emits_print | apply emits_existsSync | apply emits_readCheckpoints
    | apply emits_writeFileSync | apply emits_update | apply emits_sleep
    | apply emits_lift | apply emits_App_lift
    | apply emits_retried; intros; (reflexivity || (split; reflexivity))
    | apply emits_invoke; intros; (reflexivity || (split; reflexivity))
    | apply emits_bind; [|intros ?]
    | apply emits_try_catch; [|intros ?]
    | match goal with |- emits _ _ (if ?b then _ else _) => destruct b end
    | match goal with |- emits _ _ (match ?x with _ => _ end) => destruct x end ].

Section authorization_facts.
Variable rem : Remote.
Variable host : Host.
Variable cfg : Config.

Lemma emits_prepare entries :
  emits net (fun c => is_decimals c.1 = true) (prepare rem host cfg entries).
Proof.
  unfold prepare, checkConfig, checkDuplicates, loadCheckpoints, resolveDecimals.
  emits_tac.
Qed.

Lemma emits_estimateForCount P recipients amounts count :
  (forall req ok, is_approve req = false -> is_transfer req = false -> is_decimals req = false ->
                  P (req, ok)) ->
  emits id P (estimateForCount rem cfg recipients amounts count).
Proof.
  intros HP. unfold estimateForCount.
  apply emits_try_catch; [|intros; apply emits_ret].
  destruct (isNative cfg); (apply emits_bind; [|intros; apply emits_ret]);
    apply emits_retried; intros; by apply HP.
Qed.

Lemma emits_sendChunks write_error wallet i chunks sentKeys checkpoints :
  emits net (fun c => is_approve c.1 = false)
    (sendChunks rem host write_error cfg wallet i chunks sentKeys checkpoints).
Proof.
  revert i sentKeys checkpoints.
  induction chunks as [|c rest IH]; intros i sentKeys checkpoints; simpl; [apply emits_ret|].
  apply emits_bind; [|intros [S' cps']; apply IH].
  unfold sendChunk, recordSent. emits_tac.
Qed.

Lemma emits_deliver write_error p :
  emits net (fun c => is_approve c.1 = false) (deliver rem host write_error cfg p).
Proof.
  unfold deliver, readGasBudget.
  apply emits_bind; [emits_tac|]. intros gasBudget.
  apply emits_bind.
  { apply emits_lift. rewrite findChunkSize_search. apply emits_search.
    intros count. apply emits_estimateForCount. by intros. }
  intros chunkSize. destruct (chunk _ chunkSize); [|apply emits_diverge].
  apply emits_bind; [apply emits_sendChunks|]. intros. apply emits_ret.
Qed.

(** The allowance check of the script, on the network: what comes before
    the approval, the approval itself (one retried operation), and what
    comes after it. *)
Lemma ensureFunds_calls wallet total n :
  exists pre appr post,
    calls (history (ensureFunds rem cfg wallet total n).2)
    = calls (history n) ++ pre ++ appr ++ post
    /\ Forall preliminary pre
    /\ Forall preliminary post
    /\ (appr = []
        \/ exists (j : nat) ok,
             appr = replicate j (approveRequest cfg total, false)
                    ++ [(approveRequest cfg total, ok)])
    /\ (appr <> []
        <-> isNative cfg = false
            /\ exists a n1,
                 retried rem cfg reply_num (allowanceRequest cfg wallet) n = (Ok a, n1)
                 /\ a < total).
Proof.
  unfold ensureFunds. destruct (isNative cfg) eqn:Hnative; simpl.
  { assert (Hm : emits id preliminary
                   (let* balance := retried rem cfg reply_num (GetBalance wallet) in
                    if balance <? total
                    then throw (js_error ("Insufficient native balance. Required: "
                                          +:+ pretty total +:+ ", Available: "
                                          +:+ pretty balance))
                    else ret tt)) by emits_tac.
    destruct (Hm n) as (cs & Hcs & Hall).
    exists cs, [], []. rewrite !app_nil_r. split; [done|]. split; [done|].
    split; [done|]. split; [by left|]. split; [done|]. by intros [? _]. }
  fold (allowanceRequest cfg wallet). fold (approveRequest cfg total).
  pose proof (emits_retried rem cfg preliminary reply_num (allowanceRequest cfg wallet)
                (fun _ => conj eq_refl eq_refl) n) as (pre & Hpre & Hallpre).
  simpl in Hpre. unfold bind at 1.
  destruct (retried rem cfg reply_num (allowanceRequest cfg wallet) n) as [[a|e|] n1] eqn:Hallow;
    simpl in Hpre.
  2,3: exists pre, [], []; rewrite !app_nil_r; simpl;
       (split; [done|]); (split; [done|]); (split; [done|]); (split; [by left|]);
       (split; [done|]); by intros [_ (? & ? & ? & _)].
  destruct (Z.ltb_spec a total) as [Hlt|Hge].
  2:{ exists pre, [], []. rewrite !app_nil_r. simpl.
      split; [done|]. split; [done|]. split; [done|]. split; [by left|].
      split; [done|]. intros [_ (a' & n1' & [= <- _] & Ha)]. lia. }
  destruct (callWithRetry_spec rem cfg reply_tx (approveRequest cfg total) n1)
    as (j & n2 & _ & Hrun & _ & _ & _ & Hcalls).
  unfold bind at 1. unfold retried at 1. rewrite Hrun.
  set (appr := replicate j (approveRequest cfg total, false)
               ++ [(approveRequest cfg total,
                    returned (reply_tx rem (ncalls n1 + j)%nat (approveRequest cfg total)))]).
  assert (Hshape : (appr = []
                    \/ exists (j : nat) ok,
                         appr = replicate j (approveRequest cfg total, false)
                                ++ [(approveRequest cfg total, ok)])
                   /\ (appr <> []
                       <-> false = false
                           /\ exists a0 n0, (Ok a, n1) = (Ok a0, n0) /\ a0 < total)).
  { split; [right; by eexists _, _|]. split; [|intros _ Hnil; by destruct (app_cons_not_nil _ _ _ (eq_sym Hnil))].
    intros _. split; [done|]. by exists a, n1. }
  destruct (reply_tx rem (ncalls n1 + j)%nat (approveRequest cfg total)) as [tx|e]; simpl.
  - assert (Hm : emits id preliminary
                   (let* _ := retried rem cfg reply_receipt (TxWait tx) in ret tt))
      by emits_tac.
    destruct (Hm n2) as (post & Hpost & Hallpost). unfold id in Hpost.
    exists pre, appr, post. rewrite Hpost, Hcalls, Hpre. unfold appr at 1.
    rewrite <- !app_assoc.
    split; [done|]. split; [done|]. split; [done|]. exact Hshape.
  - exists pre, appr, []. rewrite Hcalls, Hpre, app_nil_r. unfold appr at 1.
    rewrite <- !app_assoc.
    split; [done|]. split; [done|]. split; [done|]. exact Hshape.
Qed.

Lemma emits_estimateChunkSize st recips amts maxTry :
  emits id (fun c => is_approve c.1 = false)
    (App.estimateChunkSize rem st recips amts maxTry).
Proof.
  rewrite estimateChunkSize_search.
  destruct (_ || _); [apply emits_ret|].
  apply emits_bind; [emits_tac|]. intros latest.
  apply emits_search. intros count. unfold App.estCount. emits_tac.
Qed.

Lemma emits_sendLoop st total i todo aChunks :
  emits App.page_net (fun c => is_approve c.1 = false)
    (App.sendLoop rem st total i todo aChunks).
Proof.
  revert i. induction todo as [|r rest IH]; intros i; simpl; [apply emits_ret|].
  destruct (aChunks !! i); [|apply emits_throw].
  unfold App.setStatus.
  repeat (apply emits_bind; [emits_tac|intros ?]). apply IH.
Qed.

Lemma emits_sendAll st :
  emits App.page_net (fun c => is_approve c.1 = false) (App.sendAll rem host st).
Proof.
  unfold App.sendAll, App.setStatus.
  apply emits_bind; [emits_tac|intros _].
  apply emits_bind; [apply emits_App_lift, emits_estimateChunkSize|intros cSize].
  apply emits_bind; [emits_tac|intros _].
  apply emits_bind; [emits_tac|intros _].
  destruct (App_chunk.chunk _ cSize) as [rChunks|]; [|apply emits_diverge].
  destruct (App_chunk.chunk _ cSize) as [aChunks|]; [|apply emits_diverge].
  apply emits_bind; [apply emits_sendLoop|intros _]. emits_tac.
Qed.

(** The allowance check of the UI handler, on the network. *)
Lemma approveIfNeeded_calls st pg :
  exists pre appr post,
    calls (history (App.page_net (App.approveIfNeeded rem host st pg).2))
    = calls (history (App.page_net pg)) ++ pre ++ appr ++ post
    /\ Forall preliminary pre
    /\ Forall preliminary post
    /\ (appr = []
        \/ exists ok,
             appr = [(TokenApprove (App.tokenAddress st) (App.batchAddress st)
                        (App.totalWei host st), ok)])
    /\ (appr <> []
        <-> exists owner a,
              reply_account rem (ncalls (App.page_net pg)) SignerGetAddress = Returns owner
              /\ reply_num rem (S (ncalls (App.page_net pg)))
                   (TokenAllowance (App.tokenAddress st) owner (App.batchAddress st))
                 = Returns a
              /\ a < App.totalWei host st).
Proof.
  assert (Hpre : forall req ok, is_approve req = false -> is_transfer req = false ->
                                Forall preliminary [(req, ok)])
    by (intros; by repeat constructor).
  unfold App.approveIfNeeded, App.setStatus, App.update, App.lift, bind, invoke, ret. simpl.
  destruct (reply_account rem (ncalls (App.page_net pg)) SignerGetAddress) as [owner|e];
    simpl.
  2:{ exists [(SignerGetAddress, false)], [], []. rewrite calls_app. simpl.
      split; [done|]. split; [by apply Hpre|]. split; [done|]. split; [by left|].
      split; [done|]. by intros (? & ? & ? & _). }
  destruct (reply_num rem (S (ncalls (App.page_net pg))) _) as [a|e] eqn:Hallow; simpl.
  2:{ exists [(SignerGetAddress, true);
              (TokenAllowance (App.tokenAddress st) owner (App.batchAddress st), false)],
        [], [].
      rewrite !calls_app. simpl. rewrite <- app_assoc. simpl.
      split; [done|]. split; [by repeat constructor|]. split; [done|]. split; [by left|].
      split; [done|]. intros (owner' & a' & [= <-] & Ha & _). congruence. }
  destruct (Z.ltb_spec a (App.totalWei host st)) as [Hlt|Hge]; simpl.
  2:{ exists [(SignerGetAddress, true);
              (TokenAllowance (App.tokenAddress st) owner (App.batchAddress st), true)],
        [], [].
      rewrite !calls_app. simpl. rewrite <- app_assoc. simpl.
      split; [done|]. split; [by repeat constructor|]. split; [done|]. split; [by left|].
      split; [done|]. intros (owner' & a' & [= <-] & Ha & Hlt).
      rewrite Hallow in Ha. injection Ha as <-. lia. }
  assert (Hiff : forall ok : bool,
             [(TokenApprove (App.tokenAddress st) (App.batchAddress st)
                 (App.totalWei host st), ok)] <> []
             <-> exists owner' a',
                   Returns owner = Returns owner'
                   /\ reply_num rem (S (ncalls (App.page_net pg)))
                        (TokenAllowance (App.tokenAddress st) owner' (App.batchAddress st))
                      = Returns a'
                   /\ a' < App.totalWei host st)
    by (intros ok; split; [intros _; by exists owner, a|done]).
  destruct (reply_tx rem (S (S (ncalls (App.page_net pg)))) _) as [tx|e]; simpl.
  2:{ exists [(SignerGetAddress, true);
              (TokenAllowance (App.tokenAddress st) owner (App.batchAddress st), true)],
        [(TokenApprove (App.tokenAddress st) (App.batchAddress st)
            (App.totalWei host st), false)], [].
      rewrite !calls_app. simpl. rewrite <- !app_assoc. simpl.
      split; [done|]. split; [by repeat constructor|]. split; [done|].
      split; [right; by eexists|]. apply Hiff. }
  destruct (reply_receipt rem (S (S (S (ncalls (App.page_net pg))))) (TxWait tx))
    as [rcpt|e]; simpl;
    (exists [(SignerGetAddress, true);
             (TokenAllowance (App.tokenAddress st) owner (App.batchAddress st), true)],
       [(TokenApprove (App.tokenAddress st) (App.batchAddress st)
           (App.totalWei host st), true)]);
    [exists [(TxWait tx, true)]|exists [(TxWait tx, false)]];
    rewrite !calls_app; simpl; rewrite <- !app_assoc; simpl;
    (split; [done|]); (split; [by repeat constructor|]);
    (split; [by repeat constructor|]); (split; [right; by eexists|]); apply Hiff.
Qed.

(** What the UI handler does on the network, around its approval. *)
Lemma onSend_calls st pg :
  exists pre appr post,
    calls (history (App.page_net (App.onSend rem host st pg).2))
    = calls (history (App.page_net pg)) ++ pre ++ appr ++ post
    /\ Forall preliminary pre
    /\ Forall (fun c => is_approve c.1 = false) post
    /\ (appr = []
        \/ exists ok,
             appr = [(TokenApprove (App.tokenAddress st) (App.batchAddress st)
                        (App.totalWei host st), ok)])
    /\ (appr <> []
        <-> ready host st = true
            /\ exists owner a,
                 reply_account rem (ncalls (App.page_net pg)) SignerGetAddress = Returns owner
                 /\ reply_num rem (S (ncalls (App.page_net pg)))
                      (TokenAllowance (App.tokenAddress st) owner (App.batchAddress st))
                    = Returns a
                 /\ a < App.totalWei host st).
Proof.
  assert (Hidle : forall pg',
             App.page_net pg' = App.page_net pg ->
             ready host st = false ->
             exists pre appr post,
               calls (history (App.page_net pg'))
               = calls (history (App.page_net pg)) ++ pre ++ appr ++ post
               /\ Forall preliminary pre
               /\ Forall (fun c => is_approve c.1 = false) post
               /\ (appr = []
                   \/ exists ok,
                        appr = [(TokenApprove (App.tokenAddress st) (App.batchAddress st)
                                   (App.totalWei host st), ok)])
               /\ (appr <> []
                   <-> ready host st = true
                       /\ exists owner a,
                            reply_account rem (ncalls (App.page_net pg)) SignerGetAddress
                            = Returns owner
                            /\ reply_num rem (S (ncalls (App.page_net pg)))
                                 (TokenAllowance (App.tokenAddress st) owner
                                    (App.batchAddress st))
                               = Returns a
                            /\ a < App.totalWei host st)).
  { intros pg' -> Hready. exists [], [], []. simpl. rewrite app_nil_r.
    split; [done|]. split; [done|]. split; [done|]. split; [by left|].
    split; [done|]. intros [? _]. congruence. }
  unfold App.onSend.
  destruct (App.connected st) eqn:Hconn; simpl;
    [|apply Hidle; [done|unfold ready; by rewrite Hconn]].
  destruct (truthy (App.tokenAddress st)) eqn:Htoken; simpl;
    [|apply Hidle; [done|unfold ready; by rewrite Hconn, Htoken]].
  destruct (truthy (App.batchAddress st)) eqn:Hbatch; simpl;
    [|apply Hidle; [done|unfold ready; by rewrite Hconn, Htoken, Hbatch]].
  destruct (App.decimals st) as [d|] eqn:Hdec; simpl;
    [|apply Hidle; [done|unfold ready; by rewrite Hconn, Htoken, Hbatch, Hdec]].
  rewrite length_map.
  destruct (length (App.entries (App.normalized host st)) =? 0)%nat eqn:Hlen; simpl;
    [apply Hidle; [done|unfold ready; rewrite Hlen; simpl; by rewrite !andb_false_r]|].
  assert (Hready : ready host st = true)
    by (unfold ready; by rewrite Hconn, Htoken, Hbatch, Hdec, Hlen).
  rewrite Hready.
  clear Hidle. unfold bind at 1, App.update at 1.
  set (pg1 := {| App.page_net := App.page_net pg;
                 App.updates := App.updates pg ++ [App.SetSending true] |}).
  unfold finally, try_catch.
  assert (Hnet : exists r pg2,
             (App.approveIfNeeded rem host st;; App.sendAll rem host st) pg1 = (r, pg2)
             /\ App.page_net
                  (let '(r0, s') :=
                     match (App.approveIfNeeded rem host st;; App.sendAll rem host st) pg1 with
                     | (Throw e, s') => App.setStatus ("Send failed: " +:+ App.errMsg e) s'
                     | r0 => r0
                     end in
                   (r0, {| App.page_net := App.page_net s';
                           App.updates := App.updates s' ++ [App.SetSending false] |})).2
                = App.page_net pg2).
  { destruct ((App.approveIfNeeded rem host st;; App.sendAll rem host st) pg1)
      as [[[]|e|] pg2]; by eexists _, _. }
  destruct Hnet as (r & pg2 & Hrun & ->).
  destruct (approveIfNeeded_calls st pg1)
    as (pre & appr & post & Hcalls & Hpre & Hpost & Happr & Hiff).
  assert (Hshape :
    (appr = []
     \/ exists ok,
          appr = [(TokenApprove (App.tokenAddress st) (App.batchAddress st)
                     (App.totalWei host st), ok)])
    /\ (appr <> []
        <-> true = true
            /\ exists owner a,
                 reply_account rem (ncalls (App.page_net pg)) SignerGetAddress = Returns owner
                 /\ reply_num rem (S (ncalls (App.page_net pg)))
                      (TokenAllowance (App.tokenAddress st) owner (App.batchAddress st))
                    = Returns a
                 /\ a < App.totalWei host st)).
  { split; [done|]. rewrite Hiff. simpl. split; [by split|by intros [_ ?]]. }
  clear Happr Hiff.
  exists pre, appr.
  unfold bind in Hrun.
  destruct (App.approveIfNeeded rem host st pg1) as [[[]|e|] pg1'] eqn:Happrove;
    simpl in Hcalls.
  - destruct (emits_sendAll st pg1') as (post' & Hpost' & Hallpost').
    rewrite Hrun in Hpost'. simpl in Hpost'.
    exists (post ++ post'). rewrite Hpost', Hcalls, <- !app_assoc.
    split; [done|]. split; [done|]. split; [|exact Hshape].
    apply Forall_app. split; [|done]. eapply Forall_impl; [exact Hpost|]. by intros c [? _].
  - injection Hrun as <- <-. exists post. rewrite Hcalls.
    split; [done|]. split; [done|]. split; [|exact Hshape].
    eapply Forall_impl; [exact Hpost|]. by intros c [? _].
  - injection Hrun as <- <-. exists post. rewrite Hcalls.
    split; [done|]. split; [done|]. split; [|exact Hshape].
    eapply Forall_impl; [exact Hpost|]. by intros c [? _].
Qed.
End authorization_facts.

(** C7: for a token, the approval is one operation of the run. In the
    script, the invocations of a run split into those before the approval,
    none of which is an approval or a transfer, the approval itself, and
    those after it, none of which is an approval. The approval is one
    retried operation: some failed attempts and the attempt that decides
    it, all for the total of the entries that remain. It is there exactly
    when the asset is a token and the allowance read is below that total.
    The UI handler does the same with a single invocation, for [totalWei]. *)
Theorem approval_once_before_sending (rem : Remote) (host : Host)
    (write_error : nat -> option Error) (cfg : Config) (entries : list Recipient)
    (w : World) (st : App.AppState) (pg : App.Page) :
  (exists pre appr post,
      calls (history (net (main rem host write_error cfg entries w).2))
      = calls (history (net w)) ++ pre ++ appr ++ post
      /\ Forall preliminary pre
      /\ Forall (fun c => is_approve c.1 = false) post
      /\ (appr = []
          \/ exists p w1 (j : nat) ok,
               prepare rem host cfg entries w = (Ok p, w1)
               /\ appr = replicate j (approveRequest cfg (totalOf p), false)
                         ++ [(approveRequest cfg (totalOf p), ok)])
      /\ (appr <> []
          <-> isNative cfg = false
              /\ exists p w1 a n1,
                   prepare rem host cfg entries w = (Ok p, w1)
                   /\ retried rem cfg reply_num (allowanceRequest cfg (wallet_address p))
                        (net w1) = (Ok a, n1)
                   /\ a < totalOf p))
  /\ (exists pre appr post,
        calls (history (App.page_net (App.onSend rem host st pg).2))
        = calls (history (App.page_net pg)) ++ pre ++ appr ++ post
        /\ Forall preliminary pre
        /\ Forall (fun c => is_approve c.1 = false) post
        /\ (appr = []
            \/ exists ok,
                 appr = [(TokenApprove (App.tokenAddress st) (App.batchAddress st)
                            (App.totalWei host st), ok)])
        /\ (appr <> []
            <-> ready host st = true
                /\ exists owner a,
                     reply_account rem (ncalls (App.page_net pg)) SignerGetAddress
                     = Returns owner
                     /\ reply_num rem (S (ncalls (App.page_net pg)))
                          (TokenAllowance (App.tokenAddress st) owner (App.batchAddress st))
                        = Returns a
                     /\ a < App.totalWei host st)).
Proof.
  split; [|apply onSend_calls].
  assert (Hdec : forall c : Request * bool, is_decimals c.1 = true -> preliminary c).
  { intros [req ok] Hreq. simpl in Hreq. by destruct req. }
  destruct (emits_prepare rem host cfg entries w) as (pre0 & Hpre0 & Hall0).
  apply (Forall_impl _ _ _ Hall0) in Hdec. clear Hall0.
  unfold main. unfold bind at 1.
  destruct (prepare rem host cfg entries w) as [[p|e|] w1] eqn:Hprep; simpl in Hpre0.
  2,3: exists pre0, [], []; rewrite !app_nil_r; simpl;
       (split; [done|]); (split; [done|]); (split; [done|]); (split; [by left|]);
       (split; [done|]); by intros [_ (? & ? & ? & ? & ? & _)].
  destruct (ensureFunds_calls rem cfg (wallet_address p) (totalOf p) (net w1))
    as (pre & appr & post & Hcalls & Hpre & Hpost & Hshape & Hiff).
  assert (Hshape' :
    (appr = []
     \/ exists p0 w0 (j : nat) ok,
          (Ok p, w1) = (Ok p0, w0)
          /\ appr = replicate j (approveRequest cfg (totalOf p0), false)
                    ++ [(approveRequest cfg (totalOf p0), ok)])
    /\ (appr <> []
        <-> isNative cfg = false
            /\ exists p0 w0 a n1,
                 (Ok p, w1) = (Ok p0, w0)
                 /\ retried rem cfg reply_num (allowanceRequest cfg (wallet_address p0))
                      (net w0) = (Ok a, n1)
                 /\ a < totalOf p0)).
  { split.
    - destruct Hshape as [->|(j & ok & ->)]; [by left|right]. by exists p, w1, j, ok.
    - rewrite Hiff. split.
      + intros [Hnative (a & n1 & Hrun & Ha)]. split; [done|]. by exists p, w1, a, n1.
      + intros [Hnative (p0 & w0 & a & n1 & [= <- <-] & Hrun & Ha)]. split; [done|].
        by exists a, n1. }
  clear Hshape Hiff.
  exists (pre0 ++ pre), appr.
  unfold bind. rewrite lift_run.
  destruct (ensureFunds rem cfg (wallet_address p) (totalOf p) (net w1)) as [[[]|e|] n2];
    simpl in *.
  - match goal with |- context [deliver rem host write_error cfg p ?w2] =>
      destruct (emits_deliver rem host cfg write_error p w2) as (post' & Hpost' & Hallpost')
    end.
    simpl in Hpost'.
    exists (post ++ post'). rewrite Hpost', Hcalls, Hpre0, <- !app_assoc.
    split; [done|]. split; [by apply Forall_app|]. split; [|exact Hshape'].
    apply Forall_app. split; [|done]. eapply Forall_impl; [exact Hpost|]. by intros c [? _].
  - exists post. rewrite Hcalls, Hpre0, <- !app_assoc.
    split; [done|]. split; [by apply Forall_app|]. split; [|exact Hshape'].
    eapply Forall_impl; [exact Hpost|]. by intros c [? _].
  - exists post. rewrite Hcalls, Hpre0, <- !app_assoc.
    split; [done|]. split; [by apply Forall_app|]. split; [|exact Hshape'].
    eapply Forall_impl; [exact Hpost|]. by intros c [? _].
Qed.

(** ** Running without checkpoints *)

Section keeps_file_facts.






End keeps_file_facts.


Section disabled_facts.
Variable rem : Remote.
Variable host : Host.
Variable cfg : Config.
Hypothesis disabled : DISABLE_CHECKPOINTS cfg = true.





End disabled_facts.

Section transfer_facts.
Variable rem : Remote.
Variable host : Host.
Variable cfg : Config.

Lemma transferred_app cs1 cs2 :
  transferred (cs1 ++ cs2) = transferred cs1 ++ transferred cs2.
Proof. apply omap_app. Qed.

Lemma transferred_none cs :
  Forall (fun c => is_transfer c.1 = false) cs -> transferred cs = [].
Proof.
  induction 1 as [|[req ok] cs Hc _ IH]; [done|].
  change ((req, ok) :: cs) with ([(req, ok)] ++ cs).
  rewrite transferred_app, IH, app_nil_r. simpl in Hc.
  by destruct req.
Qed.

Lemma transferred_failed req (j : nat) : transferred (replicate j (req, false)) = [].
Proof.
  induction j as [|j IH]; [done|].
  change (replicate (S j) (req, false)) with ([(req, false)] ++ replicate j (req, false)).
  rewrite transferred_app, IH, app_nil_r. by destruct req.
Qed.

(** A retried operation adds its request to the transfers that returned
    exactly when it returns. *)
Lemma retried_transferred {A} (reply : Remote -> nat -> Request -> Reply A) req n :
  transferred (calls (history (retried rem cfg reply req n).2))
  = transferred (calls (history n))
    ++ match (retried rem cfg reply req n).1 with
       | Ok _ => transferred [(req, true)]
       | _ => []
       end.
Proof.
  destruct (callWithRetry_spec rem cfg reply req n) as (j & n' & _ & Hrun & _ & _ & _ & Hcalls).
  unfold retried. rewrite Hrun. simpl. rewrite Hcalls, !transferred_app, transferred_failed.
  simpl. destruct (reply rem (ncalls n + j)%nat req); simpl; [done|].
  unfold transferred. simpl. by destruct req.
Qed.

Lemma transferred_chunk c :
  transferred [(transferRequest cfg c, true)] = [(map e_address c, map amt c)].
Proof. unfold transferRequest. by destruct (isNative cfg). Qed.


Lemma emits_ensureFunds wallet total :
  emits id (fun c => is_transfer c.1 = false) (ensureFunds rem cfg wallet total).
Proof. unfold ensureFunds. emits_tac. Qed.

Lemma emits_planning recipients amounts :
  emits id (fun c => is_transfer c.1 = false)
    (let* gasBudget := readGasBudget rem host cfg in
     findChunkSize rem cfg recipients amounts gasBudget).
Proof.
  unfold readGasBudget. apply emits_bind; [emits_tac|]. intros gasBudget.
  rewrite findChunkSize_search. apply emits_search.
  intros count. apply emits_estimateForCount. by intros.
Qed.

Lemma concat_map_chunks {A B} (f : A -> B) (chunks : list (list A)) :
  concat (map (map f) chunks) = map f (concat chunks).
Proof.
  induction chunks as [|c rest IH]; [done|]. simpl. by rewrite IH, map_app.
Qed.

End transfer_facts.



(** ** Sample runs *)

(** Four rate-limited attempts under a ceiling of four: the wrapped call
    throws the error of the fourth attempt after four invocations. *)
Example retry_gives_up_at_the_ceiling :
  let run := callWithRetry (flaky_remote 4) (sample_config 4 false None false)
               (invoke (flaky_remote 4) reply_num (TokenDecimals "0xT")) net0 in
  run.1 = Throw {| status := Some 429; message := "Too Many Requests" |}
  /\ ncalls run.2 = 4%nat.
Proof. vm_compute. done. Qed.

(** Three entries and a chunk size of two. *)
Example plan_of_three_by_two :
  chunk ["A"; "B"; "C"]%string 2 = Some [["A"; "B"]; ["C"]]%string.
Proof. reflexivity. Qed.

(** A token run over three entries with a probed chunk size of two: one
    approval for the total before the first transfer, two transfers, and a
    checkpoint that holds the keys of the first chunk after the first
    write and all three keys after the second. *)
Example token_run :
  let run := main steady_remote sample_host never_fails
               (sample_config 5 false (Some 0) false)
               [mkRecipient "0xA" "3"; mkRecipient "0xB" "2"; mkRecipient "0xC" "1"]
               (world0 None) in
  run.1 = Ok tt
  /\ transferred (calls (history (net run.2)))
     = [(["0xA"; "0xB"]%string, [3; 2]); (["0xC"]%string, [1])]
  /\ written "0xme|0xB|0xT|/in.csv" (fslog run.2)
     = [["0xA|3"; "0xB|2"]; ["0xA|3"; "0xB|2"; "0xC|1"]]%string
  /\ filter (fun c => Is_true (is_approve c.1)) (calls (history (net run.2))) = [].
Proof. vm_compute. done. Qed.

Example token_run_needs_approval :
  let run := main steady_remote sample_host never_fails
               (sample_config 5 false (Some 18) false)
               [mkRecipient "0xA" "3"; mkRecipient "0xB" "2"; mkRecipient "0xC" "1"]
               (world0 None) in
  run.1 = Ok tt
  /\ take 3 (calls (history (net run.2)))
     = [(TokenAllowance "0xT" "0xme" "0xB", true);
        (TokenApprove "0xT" "0xB" 6000000000000000000, true);
        (TxWait {| hash := "0xh" |}, true)]
  /\ filter (fun c => Is_true (is_approve c.1)) (calls (history (net run.2)))
     = [(TokenApprove "0xT" "0xB" 6000000000000000000, true)].
Proof. vm_compute. done. Qed.

(** A native run against an endpoint that cannot estimate two recipients
    at once: one entry per transfer, and with every checkpoint write
    failing the run still completes, with one warning per chunk. *)
Example one_by_one_without_checkpoint_file :
  let run := main single_only_remote sample_host always_fails
               (sample_config 5 true None false)
               [mkRecipient "0xA" "1"; mkRecipient "0xB" "2"; mkRecipient "0xC" "3"]
               (world0 None) in
  run.1 = Ok tt
  /\ map fst (transferred (calls (history (net run.2))))
     = [["0xA"]; ["0xB"]; ["0xC"]]%string
  /\ file run.2 = None
  /\ warnings (console run.2) = 3%nat.
Proof. vm_compute. done. Qed.

(** ** Bounded retries and pacing *)


Section follows_facts.
Context {S : Type} (view : S -> Net) (R : Net -> Net -> Prop).
Hypothesis R_refl : forall n, R n n.
Hypothesis R_trans : forall n1 n2 n3, R n1 n2 -> R n2 n3 -> R n1 n3.

Lemma follows_ret {A} (a : A) : follows view R (ret a).
Proof. intros s. apply R_refl. Qed.

Lemma follows_throw {A} e : follows view R (throw (A := A) e).
Proof. intros s. apply R_refl. Qed.

Lemma follows_diverge {A} : follows view R (diverge (A := A)).
Proof. intros s. apply R_refl. Qed.

Lemma follows_bind {A B} (m : St S A) (k : A -> St S B) :
  follows view R m -> (forall a, follows view R (k a)) -> follows view R (bind m k).
Proof.
  intros Hm Hk s. unfold bind. specialize (Hm s).
  destruct (m s) as [[a|e|] s1]; simpl in *; [|done..].
  eapply R_trans; [exact Hm|apply Hk].
Qed.

Lemma follows_try_catch {A} (m : St S A) (h : Error -> St S A) :
  follows view R m -> (forall e, follows view R (h e)) -> follows view R (try_catch m h).
Proof.
  intros Hm Hh s. unfold try_catch. specialize (Hm s).
  destruct (m s) as [[a|e|] s1]; simpl in *; [done| |done].
  eapply R_trans; [exact Hm|apply Hh].
Qed.
End follows_facts.

Section pacing_facts.
Variable rem : Remote.
Variable cfg : Config.

Lemma paced_refl interval n : paced interval n n.
Proof. unfold paced. split; [done|]. lia. Qed.

Lemma paced_trans interval n1 n2 n3 :
  paced interval n1 n2 -> paced interval n2 n3 -> paced interval n1 n3.
Proof. unfold paced. intros [? ?] [? ?]. split; [lia|]. nia. Qed.

Lemma paced_idle interval n n' :
  ncalls n' = ncalls n -> lastCallAt n' = lastCallAt n -> paced interval n n'.
Proof. unfold paced. intros -> ->. split; [done|]. lia. Qed.

(** After [limitPace] the pacing variable is the clock, and the clock is at
    least one interval past the previous paced call. *)
Lemma limitPace_waits n :
  0 < RATE_LIMIT_INTERVAL_MS cfg ->
  lastCallAt (limitPace cfg n).2 = now (limitPace cfg n).2
  /\ lastCallAt n + RATE_LIMIT_INTERVAL_MS cfg <= now (limitPace cfg n).2
  /\ ncalls (limitPace cfg n).2 = ncalls n.
Proof.
  intros Hpos. unfold limitPace.
  destruct (Z.leb_spec (RATE_LIMIT_INTERVAL_MS cfg) 0); [lia|].
  unfold bind, dateNow, get_lastCallAt, set_lastCallAt, sleep, ret. simpl.
  destruct (Z.ltb_spec 0 (lastCallAt n + RATE_LIMIT_INTERVAL_MS cfg - now n)); simpl;
    repeat split; lia.
Qed.

Lemma limitPace_paced n :
  ncalls (limitPace cfg n).2 = ncalls n
  /\ lastCallAt n + Z.max 0 (RATE_LIMIT_INTERVAL_MS cfg) <= lastCallAt (limitPace cfg n).2.
Proof.
  destruct (Z.lt_ge_cases 0 (RATE_LIMIT_INTERVAL_MS cfg)) as [Hpos|Hoff].
  - destruct (limitPace_waits n Hpos) as (Hlast & Hnow & Hcalls). split; [done|]. lia.
  - unfold limitPace. destruct (Z.leb_spec (RATE_LIMIT_INTERVAL_MS cfg) 0); [|lia].
    unfold ret. simpl. split; [done|]. lia.
Qed.

Lemma callWithRetry_loop_paced {A} (reply : Remote -> nat -> Request -> Reply A) req
    fuel attempt delay n :
  paced (Z.max 0 (RATE_LIMIT_INTERVAL_MS cfg)) n
    (callWithRetry_loop rem cfg fuel (invoke rem reply req) attempt delay n).2.
Proof.
  revert attempt delay n. induction fuel as [|fuel IH]; intros attempt delay n.
  { apply paced_refl. }
  simpl. unfold try_catch, bind at 1.
  destruct (limitPace_paced n) as [Hcalls Hlast].
  destruct (limitPace cfg n) as [[[]|e|] n1] eqn:Hpace; simpl in Hcalls, Hlast.
  2,3: unfold limitPace in Hpace; destruct (_ <=? 0); [done|];
       unfold bind, dateNow, get_lastCallAt, set_lastCallAt, sleep, ret in Hpace;
       simpl in Hpace; by destruct (0 <? _).
  unfold invoke at 1.
  assert (Hone : forall n2,
             ncalls n2 = S (ncalls n1) -> lastCallAt n2 = lastCallAt n1 ->
             paced (Z.max 0 (RATE_LIMIT_INTERVAL_MS cfg)) n n2).
  { intros n2 Hc Hl. unfold paced. rewrite Hc, Hl, Hcalls. split; [lia|]. lia. }
  destruct (reply rem (ncalls n1) req) as [v|e]; simpl; [by apply Hone|].
  destruct (negb (isRateLimitError e) && (RETRY_MAX_ATTEMPTS cfg <=? attempt + 1));
    [by apply Hone|].
  destruct (RETRY_MAX_ATTEMPTS cfg <=? attempt + 1); [by apply Hone|].
  unfold bind at 1, random_floor at 1. unfold bind at 1, sleep at 1.
  eapply paced_trans; [|apply IH]. by apply Hone.
Qed.

Lemma follows_retried {A} (reply : Remote -> nat -> Request -> Reply A) req :
  follows id (paced (Z.max 0 (RATE_LIMIT_INTERVAL_MS cfg))) (retried rem cfg reply req).
Proof. intros n. apply callWithRetry_loop_paced. Qed.

Lemma follows_sleep ms : follows id (paced (Z.max 0 (RATE_LIMIT_INTERVAL_MS cfg))) (sleep ms).
Proof. intros n. by apply paced_idle. Qed.

Lemma follows_lift {A} R (m : St Net A) : follows id R m -> follows net R (lift m).
Proof. intros Hm w. rewrite lift_run. apply Hm. Qed.
End pacing_facts.

Section pacing_of_the_run.
Variable rem : Remote.
Variable host : Host.
Variable cfg : Config.

Let interval := Z.max 0 (RATE_LIMIT_INTERVAL_MS cfg).

Lemma follows_quiet {A} (m : St World A) :
  (forall w, net (m w).2 = net w) -> follows net (paced interval) m.
Proof. intros Hm w. rewrite Hm. apply paced_refl. Qed.

Lemma follows_search estimate gasBudget maxTry :
  (forall count, follows id (paced interval) (estimate count)) ->
  follows id (paced interval) (search estimate gasBudget maxTry).
Proof.
  intros Hest.
  assert (Hup : forall fuel test low high safe,
             follows id (paced interval) (searchUp estimate gasBudget fuel test low high safe)).
  { induction fuel as [|fuel IH]; intros test low high safe; simpl;
      destruct (test <=? high);
      try (apply follows_ret; apply paced_refl);
      try (apply follows_diverge; apply paced_refl).
    apply follows_bind; [apply paced_trans|apply Hest|]. intros est.
    destruct (overBudget gasBudget est); [apply follows_ret; apply paced_refl|].
    destruct (test =? high); [apply follows_ret; apply paced_refl|apply IH]. }
  assert (Hbetween : forall fuel low high safe,
             follows id (paced interval) (searchBetween estimate gasBudget fuel low high safe)).
  { induction fuel as [|fuel IH]; intros low high safe; simpl;
      destruct (low + 1 <? high);
      try (apply follows_ret; apply paced_refl);
      try (apply follows_diverge; apply paced_refl).
    apply follows_bind; [apply paced_trans|apply Hest|]. intros est.
    destruct (withinBudget gasBudget est); apply IH. }
  unfold search. apply follows_bind; [apply paced_trans|apply Hup|]. intros [[low high] safe].
  apply follows_bind; [apply paced_trans|apply Hbetween|]. intros safe'.
  apply follows_ret, paced_refl.
Qed.
End pacing_of_the_run.

Ltac paced_tac :=
  repeat first
    [ apply follows_ret; apply paced_refl
    | apply follows_throw; apply paced_refl
    | apply follows_diverge; apply paced_refl
    | apply follows_lift
    | apply follows_retried
    | apply follows_sleep
    | apply follows_quiet; intros; reflexivity
    | apply follows_bind; [apply paced_trans| |intros ?]
    | apply follows_try_catch; [apply paced_trans| |intros ?]
    | match goal with |- follows _ _ (if ?b then _ else _) => destruct b end
    | match goal with |- follows _ _ (match ?x with _ => _ end) => destruct x end ].

(** X2: the script never exceeds the configured request rate: over a whole
    run the pacing variable advances by at least one interval for every
    remote invocation made, whatever the endpoint answers. *)
Theorem run_is_paced (rem : Remote) (host : Host) (write_error : nat -> option Error)
    (cfg : Config) (entries : list Recipient) (w : World) :
  paced (Z.max 0 (RATE_LIMIT_INTERVAL_MS cfg))
    (net w) (net (main rem host write_error cfg entries w).2).
Proof.
  revert w. change (follows net (paced (Z.max 0 (RATE_LIMIT_INTERVAL_MS cfg)))
                      (main rem host write_error cfg entries)).
  assert (Hwrite : forall doc,
             follows net (paced (Z.max 0 (RATE_LIMIT_INTERVAL_MS cfg)))
               (writeFileSync write_error doc)).
  { intros doc w. unfold writeFileSync. destruct (write_error (nwrites w)); apply paced_refl. }
  assert (Hsend : forall wallet chunks i sentKeys checkpoints,
             follows net (paced (Z.max 0 (RATE_LIMIT_INTERVAL_MS cfg)))
               (sendChunks rem host write_error cfg wallet i chunks sentKeys checkpoints)).
  { intros wallet chunks. induction chunks as [|c rest IH]; intros i sentKeys checkpoints;
      simpl; [apply follows_ret, paced_refl|].
    apply follows_bind; [apply paced_trans| |intros [S' cps']; apply IH].
    unfold sendChunk, recordSent. paced_tac. apply Hwrite. }
  unfold main, deliver, prepare, checkConfig, checkDuplicates, loadCheckpoints,
    resolveDecimals, ensureFunds, readGasBudget.
  apply follows_bind; [apply paced_trans|paced_tac|]. intros p.
  apply follows_bind; [apply paced_trans|paced_tac|]. intros _.
  apply follows_bind; [apply paced_trans|paced_tac|]. intros gasBudget.
  apply follows_bind; [apply paced_trans| |].
  { apply follows_lift. rewrite findChunkSize_search. apply follows_search.
    intros count. unfold estimateForCount. paced_tac. }
  intros chunkSize. destruct (chunk _ chunkSize); [|apply follows_diverge, paced_refl].
  apply follows_bind; [apply paced_trans|apply Hsend|]. intros. apply follows_ret, paced_refl.
Qed.

(** X3: after [limitPace] with pacing on, the clock is at least one interval
    past the previous paced call and becomes the new pacing mark; no time
    passes when the interval has already elapsed; and with a non-positive
    interval [limitPace] does nothing at all. *)
Theorem limitPace_spacing (cfg : Config) (n : Net) :
  (0 < RATE_LIMIT_INTERVAL_MS cfg ->
   lastCallAt n + RATE_LIMIT_INTERVAL_MS cfg <= now (limitPace cfg n).2
   /\ lastCallAt (limitPace cfg n).2 = now (limitPace cfg n).2
   /\ now (limitPace cfg n).2
      = Z.max (now n) (lastCallAt n + RATE_LIMIT_INTERVAL_MS cfg)
   /\ ncalls (limitPace cfg n).2 = ncalls n)
  /\ (RATE_LIMIT_INTERVAL_MS cfg <= 0 -> limitPace cfg n = (Ok tt, n)).
Proof.
  unfold limitPace. split.
  - intros Hpos. destruct (Z.leb_spec (RATE_LIMIT_INTERVAL_MS cfg) 0); [lia|].
    unfold bind, dateNow, get_lastCallAt, set_lastCallAt, sleep, ret. simpl.
    destruct (Z.ltb_spec 0 (lastCallAt n + RATE_LIMIT_INTERVAL_MS cfg - now n)); simpl;
      repeat split; lia.
  - intros Hoff. by destruct (Z.leb_spec (RATE_LIMIT_INTERVAL_MS cfg) 0); [|lia].
Qed.

Lemma limitPace_spacing_witness :
  lastCallAt (mkNet 1000 900 7 0 []) + 200
  <= now (limitPace (sample_config 5 false None false) (mkNet 1000 900 7 0 [])).2
  /\ now (limitPace (sample_config 5 false None false) (mkNet 1000 900 7 0 [])).2 = 1100.
Proof.
  pose proof (proj1 (limitPace_spacing (sample_config 5 false None false)
                       (mkNet 1000 900 7 0 [])) ltac:(reflexivity)) as (H1 & _ & H3 & _).
  split; [exact H1|exact H3].
Defined.

(** ** Validation and resumption *)

Section validation_facts.
Variable host : Host.
Variable cfg : Config.

Lemma filter_cons_bool {A} (f : A -> bool) (x : A) (l : list A) :
  filter (fun x => Is_true (f x)) (x :: l)
  = if f x then x :: filter (fun x => Is_true (f x)) l
    else filter (fun x => Is_true (f x)) l.
Proof. rewrite filter_cons. by destruct (f x). Qed.

Lemma filter_true_count {A} (f : A -> bool) (l : list A) :
  (length (filter (fun x => Is_true (f x)) l)
   + length (filter (fun x => Is_true (negb (f x))) l))%nat = length l.
Proof.
  induction l as [|x l IH]; [done|].
  rewrite (filter_cons_bool f), (filter_cons_bool (fun x => negb (f x))).
  destruct (f x); simpl; lia.
Qed.

(** The loop, from any tally: what it adds to the valid entries is the
    accepted recipients that pass the resumption filter, in order, and
    what it adds to the two counters is the number of bad addresses and of
    non-positive amounts. *)
Lemma validateEntries_filter decimals sentKeys entries acc t :
  validateEntries host cfg decimals sentKeys entries acc = Returns t ->
  validEntries t
  = validEntries acc
    ++ filter (fun e => Is_true (unsent cfg sentKeys e))
         (omap (acceptable host cfg decimals) entries)
  /\ skippedInvalid t
     = skippedInvalid acc
       + Z.of_nat (length (filter (fun r => Is_true (badAddress host r)) entries))
  /\ skippedZero t
     = skippedZero acc
       + Z.of_nat (length (filter (fun r => Is_true (nonPositive host cfg decimals r)) entries)).
Proof.
  revert acc. induction entries as [|r rest IH]; intros acc; simpl.
  { intros [= <-]. rewrite app_nil_r. split; [done|]. split; lia. }
  rewrite (filter_cons_bool (badAddress host)),
    (filter_cons_bool (nonPositive host cfg decimals)).
  unfold acceptable at 1, badAddress at 1, nonPositive at 1, parsedAmount.
  destruct (isAddress host (address r)); simpl.
  2:{ intros (-> & -> & ->)%IH. simpl. split; [done|]. split; lia. }
  destruct (if isNative cfg then parseEther host (amountStr r)
            else parseUnits host (amountStr r) decimals) as [a|e]; [|done].
  destruct (a <=? 0); simpl.
  { intros (-> & -> & ->)%IH. simpl. split; [done|]. split; lia. }
  rewrite (filter_cons_bool (unsent cfg sentKeys)).
  change (unsent cfg sentKeys
            {| e_address := address r; e_amountStr := amountStr r; amt := a |})
    with (DISABLE_CHECKPOINTS cfg
          || negb (set_has (makeKey (address r) (amountStr r)) sentKeys)).
  destruct (DISABLE_CHECKPOINTS cfg
            || negb (set_has (makeKey (address r) (amountStr r)) sentKeys)); simpl.
  - intros (-> & -> & ->)%IH. simpl. rewrite <- app_assoc. split; [done|]. split; lia.
  - intros (-> & -> & ->)%IH. split; [done|]. split; lia.
Qed.

(** When the loop returns, every recipient is accepted, has a bad address,
    or has a non-positive amount. *)
Lemma validateEntries_partition decimals sentKeys entries acc t :
  validateEntries host cfg decimals sentKeys entries acc = Returns t ->
  (length (omap (acceptable host cfg decimals) entries)
   + length (filter (fun r => Is_true (badAddress host r)) entries)
   + length (filter (fun r => Is_true (nonPositive host cfg decimals r)) entries))%nat
  = length entries.
Proof.
  revert acc. induction entries as [|r rest IH]; intros acc Hrun; [done|].
  simpl in Hrun.
  rewrite (filter_cons_bool (badAddress host)),
    (filter_cons_bool (nonPositive host cfg decimals)).
  change (omap (acceptable host cfg decimals) (r :: rest))
    with (match acceptable host cfg decimals r with
          | Some e => e :: omap (acceptable host cfg decimals) rest
          | None => omap (acceptable host cfg decimals) rest
          end).
  unfold acceptable at 1, badAddress at 1, nonPositive at 1, parsedAmount.
  destruct (isAddress host (address r)); cbn [negb andb length];
    [|specialize (IH _ Hrun); lia].
  destruct (if isNative cfg then parseEther host (amountStr r)
            else parseUnits host (amountStr r) decimals) as [a|e]; [|done].
  destruct (a <=? 0); cbn [length]; [specialize (IH _ Hrun); lia|].
  destruct (_ || _); specialize (IH _ Hrun); lia.
Qed.
End validation_facts.

(** X4: the validation loop is a filter: when it returns, the valid entries
    are exactly the recipients with a valid address and a positive amount
    that pass the resumption filter, in input order; the two counters are
    the numbers of bad addresses and of non-positive amounts; and every
    recipient is accounted for once, as valid, as skipped, or as already
    sent. *)
Theorem validation_accounts_for_every_entry (host : Host) (cfg : Config) (decimals : Z)
    (sentKeys : list string) (entries : list Recipient) (t : Tally) :
  validateEntries host cfg decimals sentKeys entries tally0 = Returns t ->
  validEntries t
  = filter (fun e => Is_true (unsent cfg sentKeys e))
      (omap (acceptable host cfg decimals) entries)
  /\ skippedInvalid t
     = Z.of_nat (length (filter (fun r => Is_true (badAddress host r)) entries))
  /\ skippedZero t
     = Z.of_nat (length (filter (fun r => Is_true (nonPositive host cfg decimals r)) entries))
  /\ Z.of_nat (length entries)
     = Z.of_nat (length (validEntries t)) + skippedInvalid t + skippedZero t
       + Z.of_nat (length (filter (fun e => Is_true (negb (unsent cfg sentKeys e)))
                             (omap (acceptable host cfg decimals) entries))).
Proof.
  intros Hrun.
  destruct (validateEntries_filter host cfg decimals sentKeys entries tally0 t Hrun)
    as (Hvalid & Hinvalid & Hzero).
  simpl in Hvalid, Hinvalid, Hzero.
  split; [done|]. split; [lia|]. split; [lia|].
  rewrite Hvalid, Hinvalid, Hzero.
  pose proof (filter_true_count (unsent cfg sentKeys)
                (omap (acceptable host cfg decimals) entries)) as Hsplit.
  pose proof (validateEntries_partition host cfg decimals sentKeys entries tally0 t Hrun)
    as Hparts.
  lia.
Qed.

Lemma validation_accounts_for_every_entry_witness :
  validEntries
    {| validEntries := [mkEntry "0xB" "2" 2]; skippedInvalid := 0; skippedZero := 0 |}
  = filter (fun e => Is_true (unsent (sample_config 5 false (Some 0) false) ["0xA|1"]%string e))
      (omap (acceptable sample_host (sample_config 5 false (Some 0) false) 0)
         [mkRecipient "0xA" "1"; mkRecipient "0xB" "2"]).
Proof.
  refine (proj1 (validation_accounts_for_every_entry sample_host
                   (sample_config 5 false (Some 0) false) 0 ["0xA|1"]%string
                   [mkRecipient "0xA" "1"; mkRecipient "0xB" "2"]
                   {| validEntries := [mkEntry "0xB" "2" 2];
                      skippedInvalid := 0; skippedZero := 0 |} _)).
  reflexivity.
Defined.



Section prepare_facts.
Variable rem : Remote.
Variable host : Host.
Variable cfg : Config.

Lemma checkConfig_pure w : (checkConfig host cfg w).2 = w.
Proof.
  unfold checkConfig, bind, throw, ret.
  destruct (negb (truthy (PRIVATE_KEY cfg))); [done|].
  destruct (negb (truthy (batchAddress cfg))); [done|].
  destruct (negb (isNative cfg) && negb (truthy (tokenAddress cfg))); [done|].
  by destruct (walletAddress host (PRIVATE_KEY cfg)).
Qed.

(** What the checkpoint load returns: the document of the file when
    checkpoints are on and the file holds one, else the empty document.
    The file itself is never changed by loading. *)
Lemma loadCheckpoints_run w :
  exists w2,
    loadCheckpoints cfg w
    = (Ok (if DISABLE_CHECKPOINTS cfg then ∅
           else match file w with Some (JsonDoc doc) => doc | _ => ∅ end), w2)
    /\ file w2 = file w /\ nwrites w2 = nwrites w /\ net w2 = net w.
Proof.
  unfold loadCheckpoints. destruct (DISABLE_CHECKPOINTS cfg); [by exists w|].
  unfold bind, existsSync, try_catch, readCheckpoints, print, ret. simpl.
  destruct (file w) as [[doc| |]|]; simpl; by eexists.
Qed.

(** What a successful first part of [main] has established. *)
Lemma prepare_inversion entries w p w1 :
  prepare rem host cfg entries w = (Ok p, w1) ->
  checkConfig host cfg w = (Ok (wallet_address p), w)
  /\ scanDuplicates host entries [] [] = []
  /\ checkpoints0 p
     = (if DISABLE_CHECKPOINTS cfg then ∅
        else match file w with Some (JsonDoc doc) => doc | _ => ∅ end)
  /\ sentKeys0 p
     = new_Set (default [] (checkpoints0 p !! sessionId host cfg (wallet_address p)))
  /\ (exists decimals,
         (resolveDecimals rem cfg w).1 = Ok decimals
         /\ validateEntries host cfg decimals (sentKeys0 p) entries tally0
            = Returns (tally p))
  /\ validEntries (tally p) <> []
  /\ file w1 = file w /\ nwrites w1 = nwrites w.
Proof.
  unfold prepare. unfold bind at 1.
  pose proof (checkConfig_pure w) as Hpure.
  destruct (checkConfig host cfg w) as [[wallet|e|] w0]; [|done..].
  simpl in Hpure. subst w0.
  unfold bind at 1, checkDuplicates.
  destruct (scanDuplicates host entries [] []) as [|d ds] eqn:Hscan; [|done].
  simpl. unfold ret at 1. unfold bind at 1.
  destruct (loadCheckpoints_run w) as (w2 & -> & Hfile2 & Hwrites2 & Hnet2).
  unfold bind at 1.
  destruct (resolveDecimals_run rem cfg w2) as (d & n' & Hdec & _ & _).
  assert (Hsame : (resolveDecimals rem cfg w).1 = (resolveDecimals rem cfg w2).1).
  { unfold resolveDecimals. destruct (negb (isNative cfg)); [|done].
    destruct (decimalsOverride cfg); [done|].
    unfold try_catch. rewrite !lift_run, Hnet2.
    by destruct (retried rem cfg reply_num (TokenDecimals (tokenAddress cfg)) (net w))
      as [[?|?|] ?]. }
  rewrite Hdec in Hsame |- *. simpl in Hsame.
  fold tally0.
  destruct (validateEntries host cfg d _ entries tally0) as [t|e] eqn:Hvalid; [|done].
  destruct (validEntries t) as [|e0 es] eqn:Hnonempty; [done|].
  simpl. intros [= <- <-]. simpl.
  split; [done|]. split; [done|]. split; [done|]. split; [done|].
  split; [by exists d|]. split; [by rewrite Hnonempty|]. done.
Qed.
End prepare_facts.

(** X6: no entry recorded in the checkpoint is sent again: with checkpoints on
    and a readable checkpoint file, every entry of the working set has a
    key that the file does not hold for the session, a valid address and a
    positive amount; and the working set is not empty. *)
Theorem working_set_is_unsent (rem : Remote) (host : Host) (cfg : Config)
    (entries : list Recipient) (w w1 : World) (p : Prepared) (doc : Checkpoints) :
  prepare rem host cfg entries w = (Ok p, w1) ->
  DISABLE_CHECKPOINTS cfg = false ->
  file w = Some (JsonDoc doc) ->
  validEntries (tally p) <> []
  /\ forall e, e ∈ validEntries (tally p) ->
       (makeKey (e_address e) (e_amountStr e)
        ∉ default [] (doc !! sessionId host cfg (wallet_address p)))
       /\ isAddress host (e_address e) = true
       /\ 0 < amt e.
Proof.
  intros Hprep Hon Hfile.
  destruct (prepare_inversion rem host cfg entries w p w1 Hprep)
    as (_ & _ & Hcps & Hkeys & (d & _ & Hvalid) & Hne & _).
  rewrite Hon, Hfile in Hcps. rewrite Hcps in Hkeys.
  split; [done|]. intros e He.
  apply validateEntries_filter in Hvalid as (Hvalid & _ & _). simpl in Hvalid.
  rewrite Hvalid in He. apply list_elem_of_filter in He as [Hunsent He].
  apply list_elem_of_omap in He as (r & Hr & Hacc).
  split.
  - unfold unsent, set_has in Hunsent. rewrite Hon, Hkeys in Hunsent. simpl in Hunsent.
    apply Is_true_true, negb_true_iff, bool_decide_eq_false in Hunsent.
    intros Hin. apply Hunsent, set_add_all_elem. by right.
  - unfold acceptable in Hacc.
    destruct (isAddress host (address r)) eqn:Haddr; [|done].
    destruct (if isNative cfg then parseEther host (amountStr r)
              else parseUnits host (amountStr r) d) as [a|err]; [|done].
    destruct (Z.leb_spec a 0); [done|]. injection Hacc as <-. simpl. split; [done|lia].
Qed.

Lemma working_set_is_unsent_witness :
  [mkEntry "0xB" "2" 2] <> []
  /\ forall e,
    e ∈ [mkEntry "0xB" "2" 2] ->
    (makeKey (e_address e) (e_amountStr e)
     ∉ default [] (({[ "0xme|0xB|0xT|/in.csv"%string := ["0xA|1"]%string ]} : Checkpoints)
                     !! sessionId sample_host (sample_config 5 false (Some 0) false) "0xme"))
    /\ isAddress sample_host (e_address e) = true
    /\ 0 < amt e.
Proof.
  refine ((working_set_is_unsent steady_remote sample_host
                   (sample_config 5 false (Some 0) false)
                   [mkRecipient "0xA" "1"; mkRecipient "0xB" "2"]
                   (world0 (Some (JsonDoc {[ "0xme|0xB|0xT|/in.csv"%string
                                              := ["0xA|1"]%string ]})))
                   _
                   {| wallet_address := "0xme";
                      checkpoints0 := {[ "0xme|0xB|0xT|/in.csv"%string := ["0xA|1"]%string ]};
                      sentKeys0 := ["0xA|1"]%string;
                      tally := {| validEntries := [mkEntry "0xB" "2" 2];
                                  skippedInvalid := 0; skippedZero := 0 |} |}
                   {[ "0xme|0xB|0xT|/in.csv"%string := ["0xA|1"]%string ]} _ _ _));
    [vm_compute; reflexivity|reflexivity|reflexivity].
Defined.

(** ** Progress of the sending loop *)

Section progress_facts.
Variable rem : Remote.
Variable host : Host.
Variable cfg : Config.

(** The loop in general: [kt] transfers returned and [kw] chunks were
    confirmed, in plan order; a write was made for each confirmed chunk
    when checkpoints are on; and the loop completes exactly when every
    chunk was confirmed. *)
Lemma sendChunks_progress write_error wallet i chunks sentKeys checkpoints w :
  exists (kt kw : nat) log,
    (kw <= kt <= length chunks)%nat
    /\ (kt <= S kw)%nat
    /\ transferred
         (calls (history
                   (net (sendChunks rem host write_error cfg wallet i chunks sentKeys
                           checkpoints w).2)))
       = transferred (calls (history (net w)))
         ++ take kt (map (fun c => (map e_address c, map amt c)) chunks)
    /\ fslog (sendChunks rem host write_error cfg wallet i chunks sentKeys checkpoints w).2
       = fslog w ++ log
    /\ written (sessionId host cfg wallet) log
       = (if DISABLE_CHECKPOINTS cfg then [] else take kw (snapshots sentKeys chunks))
    /\ length log = (if DISABLE_CHECKPOINTS cfg then 0 else kw)%nat
    /\ ((exists r,
            (sendChunks rem host write_error cfg wallet i chunks sentKeys checkpoints w).1
            = Ok r)
        <-> kw = length chunks).
Proof.
  revert i sentKeys checkpoints w.
  induction chunks as [|c rest IH]; intros i sentKeys checkpoints w.
  { exists 0%nat, 0%nat, []. simpl. rewrite !app_nil_r.
    destruct (DISABLE_CHECKPOINTS cfg); repeat split; try done; try lia.
    all: intros _; by eexists. }
  cbn [sendChunks]. unfold bind. rewrite sendChunk_run. cbv zeta.
  pose proof (retried_transferred rem cfg reply_tx (transferRequest cfg c) (net w)) as Htx.
  destruct (retried rem cfg reply_tx (transferRequest cfg c) (net w)) as [[tx|e|] n1];
    cbn [fst snd] in Htx.
  2,3: exists 0%nat, 0%nat, []; cbn [fst snd net fslog length take written omap list_omap];
       rewrite Htx, !app_nil_r;
       destruct (DISABLE_CHECKPOINTS cfg); (split; [lia|]); (split; [lia|]);
       (split; [done|]); (split; [done|]); (split; [done|]); (split; [done|]);
       (split; [by intros [? ?]|done]).
  rewrite transferred_chunk in Htx.
  pose proof (retried_transferred rem cfg reply_receipt (TxWait tx) n1) as Hwait.
  destruct (retried rem cfg reply_receipt (TxWait tx) n1) as [[rcpt|e|] n2];
    cbn [fst snd] in Hwait.
  2,3: exists 1%nat, 0%nat, []; cbn [fst snd net fslog length take written omap list_omap map];
       rewrite Hwait, Htx, !app_nil_r;
       destruct (DISABLE_CHECKPOINTS cfg); (split; [lia|]); (split; [lia|]);
       (split; [done|]); (split; [done|]); (split; [done|]); (split; [done|]);
       (split; [by intros [? ?]|done]).
  change (transferred [(TxWait tx, true)]) with (@nil (list string * list Z)) in Hwait.
  rewrite app_nil_r in Hwait.
  assert (Hn3 : transferred
                  (calls (history (if 0 <? SLEEP_BETWEEN_TX_MS cfg
                                   then (sleep (SLEEP_BETWEEN_TX_MS cfg) n2).2 else n2)))
                = transferred (calls (history (net w))) ++ [(map e_address c, map amt c)]).
  { rewrite <- Htx, <- Hwait. destruct (0 <? SLEEP_BETWEEN_TX_MS cfg); [|done].
    unfold sleep. simpl. rewrite calls_app. simpl. by rewrite app_nil_r. }
  set (updated := set_add_all (keysOf c) sentKeys).
  set (doc := <[sessionId host cfg wallet := updated]> checkpoints).
  destruct (DISABLE_CHECKPOINTS cfg) eqn:Hoff.
  { match goal with |- context [sendChunks _ _ _ _ _ _ _ _ _ ?w1] =>
      set (w' := w1);
      destruct (IH (i + 1) sentKeys checkpoints w')
        as (kt & kw & log & Hk & Hk' & Htrans & Hlog & Hwritten & Hlen & Hok)
    end.
    exists (S kt), (S kw), log. rewrite Htrans, Hlog. subst w'. cbn [net fslog].
    rewrite Hn3, <- app_assoc. cbn [length map take].
    split; [lia|]. split; [lia|]. split; [done|]. split; [done|]. split; [done|].
    split; [done|]. rewrite Hok. split; lia. }
  destruct (write_error (nwrites w)) as [err|];
    match goal with |- context [sendChunks _ _ _ _ _ _ _ _ _ ?w1] =>
      set (w' := w1);
      destruct (IH (i + 1) updated doc w')
        as (kt & kw & log & Hk & Hk' & Htrans & Hlog & Hwritten & Hlen & Hok)
    end;
    [exists (S kt), (S kw), (FsWrite doc false :: log)
    |exists (S kt), (S kw), (FsWrite doc true :: log)];
    rewrite Htrans, Hlog; subst w'; cbn [net fslog];
    rewrite Hn3, <- !app_assoc; cbn [length map take snapshots app];
    (split; [lia|]); (split; [lia|]); (split; [done|]); (split; [done|]);
    (split; [unfold written in *; cbn [omap list_omap]; unfold doc at 1;
             rewrite lookup_insert_eq; cbn [default]; by f_equal|]);
    (split; [lia|]); rewrite Hok; split; lia.
Qed.

(** What a completed loop leaves behind, with checkpoints on: the set it
    returns holds every earlier key and the key of every entry sent; the
    document it returns differs from the one it started with in this
    session's record only; and the file holds that document when the last
    write succeeded. *)
Lemma sendChunks_completed write_error wallet i chunks sentKeys checkpoints w S' cps' :
  DISABLE_CHECKPOINTS cfg = false ->
  (sendChunks rem host write_error cfg wallet i chunks sentKeys checkpoints w).1
  = Ok (S', cps') ->
  (forall key, key ∈ S' <-> key ∈ sentKeys \/ key ∈ keysOf (concat chunks))
  /\ (forall sid, sid <> sessionId host cfg wallet -> cps' !! sid = checkpoints !! sid)
  /\ (chunks <> [] ->
      cps' !! sessionId host cfg wallet = Some S'
      /\ (write_error (nwrites w + length chunks - 1)%nat = None ->
          file (sendChunks rem host write_error cfg wallet i chunks sentKeys checkpoints w).2
          = Some (JsonDoc cps'))).
Proof.
  intros Hon. revert i sentKeys checkpoints w.
  induction chunks as [|c rest IH]; intros i sentKeys checkpoints w.
  { simpl. unfold ret. simpl. intros [= <- <-]. split; [|done].
    intros key. unfold keysOf. simpl. rewrite elem_of_nil. tauto. }
  cbn [sendChunks]. unfold bind. rewrite sendChunk_run. cbv zeta. rewrite Hon.
  destruct (retried rem cfg reply_tx (transferRequest cfg c) (net w)) as [[tx|e|] n1];
    [|done..].
  destruct (retried rem cfg reply_receipt (TxWait tx) n1) as [[rcpt|e|] n2]; [|done..].
  set (updated := set_add_all (keysOf c) sentKeys).
  set (doc := <[sessionId host cfg wallet := updated]> checkpoints).
  assert (Hkeys : forall key,
             key ∈ updated \/ key ∈ keysOf (concat rest)
             <-> key ∈ sentKeys \/ key ∈ keysOf (concat (c :: rest))).
  { intros key. unfold updated. rewrite set_add_all_elem. unfold keysOf. simpl.
    rewrite map_app, elem_of_app. tauto. }
  assert (Hstep : forall w1,
             nwrites w1 = S (nwrites w) ->
             (write_error (nwrites w) = None -> file w1 = Some (JsonDoc doc)) ->
             (sendChunks rem host write_error cfg wallet (i + 1) rest updated doc w1).1
             = Ok (S', cps') ->
             (forall key, key ∈ S' <-> key ∈ sentKeys \/ key ∈ keysOf (concat (c :: rest)))
             /\ (forall sid, sid <> sessionId host cfg wallet ->
                             cps' !! sid = checkpoints !! sid)
             /\ (c :: rest <> [] ->
                 cps' !! sessionId host cfg wallet = Some S'
                 /\ (write_error (nwrites w + length (c :: rest) - 1)%nat = None ->
                     file (sendChunks rem host write_error cfg wallet (i + 1) rest updated
                             doc w1).2
                     = Some (JsonDoc cps')))).
  { intros w1 Hwrites Hfile Hrun.
    destruct (IH (i + 1) updated doc w1 Hrun) as (Hset & Hother & Hlast).
    split; [intros key; by rewrite Hset, Hkeys|].
    split.
    { intros sid Hsid. rewrite Hother by done. unfold doc. by rewrite lookup_insert_ne. }
    intros _. destruct rest as [|c' rest'].
    - simpl in Hrun. unfold ret in Hrun. simpl in Hrun. injection Hrun as <- <-.
      split; [unfold doc; by rewrite lookup_insert_eq|].
      simpl. unfold ret. simpl. intros Hok. apply Hfile.
      by replace (nwrites w + 1 - 1)%nat with (nwrites w) in Hok by lia.
    - destruct (Hlast ltac:(done)) as [Hsid Hfile']. split; [done|].
      intros Hok. apply Hfile'. rewrite Hwrites.
      by replace (S (nwrites w) + length (c' :: rest') - 1)%nat
        with (nwrites w + length (c :: c' :: rest') - 1)%nat by (simpl; lia). }
  destruct (write_error (nwrites w)) as [err|] eqn:Hwrite; apply Hstep; done.
Qed.
End progress_facts.

(** ** The run from its stages *)

Section run_facts.
Variable rem : Remote.
Variable host : Host.
Variable cfg : Config.

(** Once [prepare] has returned, the run either stops before the sending
    loop, with no transfer and no write, or reaches the loop with a chunk
    size between 1 and 512 and the working set cut into chunks of at most
    that size; from there the run is the sending loop. *)
Lemma main_stages write_error entries w p w1 :
  prepare rem host cfg entries w = (Ok p, w1) ->
  ((main rem host write_error cfg entries w).1 <> Ok tt
   /\ transferred (calls (history (net (main rem host write_error cfg entries w).2)))
      = transferred (calls (history (net w)))
   /\ fslog (main rem host write_error cfg entries w).2 = fslog w1
   /\ file (main rem host write_error cfg entries w).2 = file w1)
  \/ exists chunkSize chunks n4,
       1 <= chunkSize <= 512
       /\ chunk (validEntries (tally p)) chunkSize = Some chunks
       /\ concat chunks = validEntries (tally p)
       /\ Forall (fun c => Z.of_nat (length c) <= chunkSize) chunks
       /\ transferred (calls (history n4)) = transferred (calls (history (net w)))
       /\ (main rem host write_error cfg entries w).2
          = (sendChunks rem host write_error cfg (wallet_address p) 0 chunks
               (sentKeys0 p) (checkpoints0 p)
               {| net := n4; file := file w1; nwrites := nwrites w1;
                  fslog := fslog w1; console := console w1 |}).2
       /\ ((main rem host write_error cfg entries w).1 = Ok tt
           <-> exists r,
                (sendChunks rem host write_error cfg (wallet_address p) 0 chunks
                   (sentKeys0 p) (checkpoints0 p)
                   {| net := n4; file := file w1; nwrites := nwrites w1;
                      fslog := fslog w1; console := console w1 |}).1
                = Ok r).
Proof.
  intros Hprep.
  destruct (emits_prepare rem host cfg entries w) as (cs0 & Hcs0 & Hall0).
  rewrite Hprep in Hcs0. simpl in Hcs0.
  assert (H0 : transferred cs0 = []).
  { apply transferred_none. eapply Forall_impl; [exact Hall0|].
    intros [req ok] Hreq. simpl in *. by destruct req. }
  destruct (main rem host write_error cfg entries w) as [out wf] eqn:Hmain.
  cbn [fst snd].
  unfold main, deliver in Hmain. unfold bind at 1 in Hmain. rewrite Hprep in Hmain.
  unfold bind at 1 in Hmain. rewrite lift_run in Hmain.
  destruct (emits_ensureFunds rem cfg (wallet_address p) (totalOf p) (net w1))
    as (cs1 & Hcs1 & Hall1).
  apply transferred_none in Hall1. unfold id in Hcs1.
  destruct (ensureFunds rem cfg (wallet_address p) (totalOf p) (net w1)) as [[[]|e|] n2];
    cbn [fst snd] in Hcs1, Hmain.
  2,3: left; injection Hmain as <- <-; cbn [net fslog file];
       rewrite Hcs1, Hcs0, !transferred_app, H0, Hall1, !app_nil_r; done.
  unfold bind at 1 in Hmain. rewrite lift_run in Hmain. cbn [net] in Hmain.
  destruct (emits_planning rem host cfg (map e_address (validEntries (tally p)))
              (map amt (validEntries (tally p))) n2) as (cs2 & Hcs2 & Hall2).
  apply transferred_none in Hall2. unfold id, bind in Hcs2.
  destruct (readGasBudget rem host cfg n2) as [[gasBudget|e|] n3];
    cbn [fst snd] in Hcs2, Hmain.
  2,3: left; injection Hmain as <- <-; cbn [net fslog file];
       rewrite Hcs2, Hcs1, Hcs0, !transferred_app, H0, Hall1, Hall2, !app_nil_r; done.
  unfold bind at 1 in Hmain. rewrite lift_run in Hmain. cbn [net] in Hmain.
  destruct (search_bounds _ gasBudget
              (estimateForCount_total rem cfg (map e_address (validEntries (tally p)))
                 (map amt (validEntries (tally p))))
              (Z.min (Z.of_nat (length (map e_address (validEntries (tally p))))) 512) n3)
    as (chunkSize & n4 & Hsize & Hbound).
  rewrite <- findChunkSize_search in Hsize. rewrite Hsize in Hcs2, Hmain.
  cbn [fst snd] in Hcs2, Hmain.
  destruct (chunk_covers (validEntries (tally p)) chunkSize ltac:(lia))
    as (chunks & Hchunk & Hcat & Hsizes).
  rewrite Hchunk in Hmain. unfold bind at 1 in Hmain.
  right. exists chunkSize, chunks, n4.
  split; [lia|]. split; [done|]. split; [done|]. split; [done|].
  split; [rewrite Hcs2, Hcs1, Hcs0, !transferred_app, H0, Hall1, Hall2, !app_nil_r; done|].
  cbn [net file nwrites fslog console] in Hmain.
  destruct (sendChunks rem host write_error cfg (wallet_address p) 0 chunks
              (sentKeys0 p) (checkpoints0 p) _) as [[r|e|] w5];
    injection Hmain as <- <-; cbn [fst snd]; (split; [done|]).
  - split; [by eexists|done].
  - split; [done|by intros [? ?]].
  - split; [done|by intros [? ?]].
Qed.
End run_facts.

(** ** What a run sends and records *)

(** X7: the transfers of a run follow the working set: cut into chunks of at
    most 512 entries, in input order, the transfers that returned are the
    first [kt] chunks, whatever ended the run, and all of them when the run
    completed. *)
Theorem transfers_follow_the_working_set (rem : Remote) (host : Host)
    (write_error : nat -> option Error) (cfg : Config) (entries : list Recipient)
    (w w1 : World) (p : Prepared) :
  prepare rem host cfg entries w = (Ok p, w1) ->
  exists (chunks : list (list Entry)) (kt : nat),
    concat chunks = validEntries (tally p)
    /\ Forall (fun c => Z.of_nat (length c) <= 512) chunks
    /\ transferred (calls (history (net (main rem host write_error cfg entries w).2)))
       = transferred (calls (history (net w)))
         ++ take kt (map (fun c => (map e_address c, map amt c)) chunks)
    /\ ((main rem host write_error cfg entries w).1 = Ok tt -> kt = length chunks).
Proof.
  intros Hprep.
  destruct (main_stages rem host cfg write_error entries w p w1 Hprep)
    as [(Hfail & Hnone & _)
       |(chunkSize & chunks & n4 & Hsize & _ & Hcat & Hsizes & Hn4 & Hrun & Hok)].
  - destruct (chunk_covers (validEntries (tally p)) 1 ltac:(lia))
      as (chunks & _ & Hcat & Hsizes).
    exists chunks, 0%nat. rewrite Hnone, app_nil_r.
    split; [done|]. split; [|done].
    eapply Forall_impl; [exact Hsizes|]. simpl. lia.
  - destruct (sendChunks_progress rem host cfg write_error (wallet_address p) 0 chunks
                (sentKeys0 p) (checkpoints0 p)
                {| net := n4; file := file w1; nwrites := nwrites w1;
                   fslog := fslog w1; console := console w1 |})
      as (kt & kw & log & Hk & _ & Htrans & _ & _ & _ & Hall).
    exists chunks, kt. rewrite Hrun, Htrans. cbn [net]. rewrite Hn4.
    split; [done|]. split; [|split; [done|]].
    + eapply Forall_impl; [exact Hsizes|]. simpl. lia.
    + intros Hdone. apply Hok, Hall in Hdone. lia.
Qed.

Lemma transfers_follow_the_working_set_witness :
  exists (chunks : list (list Entry)) (kt : nat),
    concat chunks = [mkEntry "0xA" "3" 3; mkEntry "0xB" "2" 2; mkEntry "0xC" "1" 1]
    /\ Forall (fun c => Z.of_nat (length c) <= 512) chunks
    /\ transferred
         (calls (history
                   (net (main steady_remote sample_host never_fails
                           (sample_config 5 false (Some 0) false)
                           [mkRecipient "0xA" "3"; mkRecipient "0xB" "2";
                            mkRecipient "0xC" "1"]
                           (world0 None)).2)))
       = transferred (calls (history (net (world0 None))))
         ++ take kt (map (fun c => (map e_address c, map amt c)) chunks)
    /\ ((main steady_remote sample_host never_fails
           (sample_config 5 false (Some 0) false)
           [mkRecipient "0xA" "3"; mkRecipient "0xB" "2"; mkRecipient "0xC" "1"]
           (world0 None)).1 = Ok tt -> kt = length chunks).
Proof.
  refine (transfers_follow_the_working_set steady_remote sample_host never_fails
            (sample_config 5 false (Some 0) false)
            [mkRecipient "0xA" "3"; mkRecipient "0xB" "2"; mkRecipient "0xC" "1"]
            (world0 None) _
            {| wallet_address := "0xme"; checkpoints0 := ∅; sentKeys0 := [];
               tally := {| validEntries := [mkEntry "0xA" "3" 3; mkEntry "0xB" "2" 2;
                                            mkEntry "0xC" "1" 1];
                           skippedInvalid := 0; skippedZero := 0 |} |} _).
  vm_compute. reflexivity.
Defined.



(** ** Running again after a completed run *)

Section rerun_facts.
Variable host : Host.
Variable cfg : Config.



End rerun_facts.



(** ** The chunk size is one that was estimated *)

Section search_safety.
Variable estimate : Z -> St Net (option Z).
Variable gasBudget : Z.
Hypothesis estimate_counts : forall c m, (ncalls m <= ncalls (estimate c m).2)%nat.

Lemma overBudget_withinBudget est :
  overBudget gasBudget est = negb (withinBudget gasBudget est).
Proof.
  destruct est as [g|]; [|done]. simpl.
  destruct (g =? 0); [done|]. simpl. by rewrite Z.leb_antisym.
Qed.

Lemma withinBudget_inv est :
  withinBudget gasBudget est = true -> exists g, est = Some g /\ g <> 0 /\ g < gasBudget.
Proof.
  destruct est as [g|]; [|done]. simpl. intros [Hg Hlt]%andb_true_iff.
  exists g. split; [done|]. split; [|lia].
  intros ->. done.
Qed.

Lemma estimated_later n0 n n' s :
  (ncalls n <= ncalls n')%nat ->
  estimated estimate gasBudget n0 n s -> estimated estimate gasBudget n0 n' s.
Proof.
  intros Hle (m & g & H0 & H1 & Hrest). exists m, g. split; [done|]. split; [lia|done].
Qed.

Lemma estimated_now n0 n s est n1 :
  (ncalls n0 <= ncalls n)%nat ->
  estimate s n = (Ok est, n1) ->
  withinBudget gasBudget est = true ->
  estimated estimate gasBudget n0 n1 s.
Proof.
  intros Hle Hrun (g & -> & Hg & Hlt)%withinBudget_inv.
  exists n, g. rewrite Hrun. done.
Qed.

Lemma searchUp_safe fuel test low high safe n0 n low' high' safe' n' :
  (ncalls n0 <= ncalls n)%nat ->
  safe = 1 \/ estimated estimate gasBudget n0 n safe ->
  searchUp estimate gasBudget fuel test low high safe n = (Ok (low', high', safe'), n') ->
  (ncalls n <= ncalls n')%nat
  /\ (safe' = 1 \/ estimated estimate gasBudget n0 n' safe').
Proof.
  revert test low safe n. induction fuel as [|fuel IH]; intros test low safe n Hle Hsafe.
  { simpl. destruct (test <=? high); [done|]. unfold ret. intros [= <- <- <- <-]. done. }
  rewrite searchUp_step. destruct (test <=? high).
  2: { unfold ret. intros [= <- <- <- <-]. done. }
  unfold bind at 1. pose proof (estimate_counts test n) as Hcount.
  destruct (estimate test n) as [[est|e|] n1] eqn:Hest; [|done..].
  cbn [fst snd] in *. rewrite overBudget_withinBudget.
  destruct (withinBudget gasBudget est) eqn:Hwithin; cbn [negb].
  - assert (Hnow : estimated estimate gasBudget n0 n1 test)
      by (by eapply estimated_now).
    destruct (test =? high).
    + unfold ret. intros [= <- <- <- <-]. split; [done|by right].
    + intros Hrun. apply IH in Hrun as [Hle' Hres]; [|lia|by right].
      split; [lia|done].
  - unfold ret. intros [= <- <- <- <-]. split; [done|].
    destruct Hsafe as [->|Hsafe]; [by left|right]. by eapply estimated_later.
Qed.

Lemma searchBetween_safe fuel low high safe n0 n safe' n' :
  (ncalls n0 <= ncalls n)%nat ->
  safe = 1 \/ estimated estimate gasBudget n0 n safe ->
  searchBetween estimate gasBudget fuel low high safe n = (Ok safe', n') ->
  (ncalls n <= ncalls n')%nat
  /\ (safe' = 1 \/ estimated estimate gasBudget n0 n' safe').
Proof.
  revert low high safe n.
  induction fuel as [|fuel IH]; intros low high safe n Hle Hsafe; simpl.
  { destruct (low + 1 <? high); [done|]. unfold ret. intros [= <- <-]. done. }
  destruct (low + 1 <? high).
  2: { unfold ret. intros [= <- <-]. done. }
  unfold bind at 1. pose proof (estimate_counts ((low + high) / 2) n) as Hcount.
  destruct (estimate ((low + high) / 2) n) as [[est|e|] n1] eqn:Hest; [|done..].
  cbn [fst snd] in *.
  destruct (withinBudget gasBudget est) eqn:Hwithin.
  - intros Hrun. apply IH in Hrun as [Hle' Hres]; [split; [lia|done]|lia|].
    right. by eapply estimated_now.
  - intros Hrun. apply IH in Hrun as [Hle' Hres]; [split; [lia|done]|lia|].
    destruct Hsafe as [->|Hsafe]; [by left|right]. by eapply estimated_later.
Qed.

Lemma search_safe maxTry n s n' :
  search estimate gasBudget maxTry n = (Ok s, n') ->
  s = 1 \/ estimated estimate gasBudget n n' s.
Proof.
  unfold search. unfold bind at 1.
  destruct (searchUp estimate gasBudget (Z.to_nat maxTry) 1 1 maxTry 1 n)
    as [[[[low high] safe]|e|] n1] eqn:Hup; [|done..].
  apply searchUp_safe with (n0 := n) in Hup as [Hle Hsafe]; [|done|by left].
  unfold bind at 1.
  destruct (searchBetween estimate gasBudget (Z.to_nat (high - low)) low high safe n1)
    as [[safe'|e|] n2] eqn:Hmid; [|done..].
  apply searchBetween_safe with (n0 := n) in Hmid as [Hle' Hsafe']; [|done|done].
  unfold ret. intros [= <- <-].
  destruct Hsafe' as [->|Hsafe']; [by left|].
  destruct (decide (safe' <= 1)) as [Hsmall|Hbig].
  - left. lia.
  - right. by replace (Z.max 1 safe') with safe' by lia.
Qed.
End search_safety.

Section estimate_replies.
Variable rem : Remote.
Variable cfg : Config.
Variables (recipients : list string) (amounts : list Z).

(** [estimateForCount] answers with the reply to one of the invocations it
    made. *)
Lemma estimateForCount_reply count n :
  exists k n',
    (ncalls n <= k < ncalls n')%nat
    /\ estimateForCount rem cfg recipients amounts count n
       = (Ok (match reply_num rem k (estimateRequest cfg recipients amounts count) with
              | Returns est => Some est
              | Rejects _ => None
              end), n').
Proof.
  unfold estimateForCount, estimateRequest, try_catch.
  destruct (isNative cfg); unfold bind at 1, retried;
    match goal with |- context [callWithRetry rem cfg (invoke rem reply_num ?req) n] =>
      destruct (callWithRetry_spec rem cfg reply_num req n)
        as (j & n' & _ & -> & _ & _ & Hcount & _)
    end;
    exists (ncalls n + j)%nat, n'; (split; [lia|]); by destruct (reply_num rem _ _).
Qed.

Lemma estimateForCount_counts count n :
  (ncalls n <= ncalls (estimateForCount rem cfg recipients amounts count n).2)%nat.
Proof.
  destruct (estimateForCount_reply count n) as (k & n' & Hk & ->). simpl. lia.
Qed.
End estimate_replies.

Section ui_estimate_replies.
Variable rem : Remote.
Variables (st : App.AppState) (recips : list string) (amts : list Z).


End ui_estimate_replies.

(** X10: the chunk size the prober returns was estimated, unless it is 1: the
    search made an estimate call for exactly that many recipients, and the
    endpoint answered it with a non-zero gas figure below the budget. *)
Theorem chunk_size_was_estimated (rem : Remote) (cfg : Config)
    (recipients : list string) (amounts : list Z) (gasBudget : Z) (n : Net) :
  exists s n',
    findChunkSize rem cfg recipients amounts gasBudget n = (Ok s, n')
    /\ (s = 1
        \/ exists (k : nat) g,
             (ncalls n <= k < ncalls n')%nat
             /\ reply_num rem k (estimateRequest cfg recipients amounts s) = Returns g
             /\ g <> 0 /\ g < gasBudget).
Proof.
  rewrite findChunkSize_search.
  destruct (search_bounds (estimateForCount rem cfg recipients amounts) gasBudget
              (estimateForCount_total rem cfg recipients amounts)
              (Z.min (Z.of_nat (length recipients)) 512) n) as (s & n' & Hrun & _).
  exists s, n'. split; [done|].
  apply search_safe in Hrun as [->|(m & g & Hfrom & Hto & Hest & Hg & Hlt)];
    [by left| |apply estimateForCount_counts].
  right.
  destruct (estimateForCount_reply rem cfg recipients amounts s m) as (k & m' & Hk & Hrun).
  rewrite Hrun in Hest, Hto. cbn [fst snd] in Hest, Hto.
  exists k, g. split; [lia|].
  destruct (reply_num rem k _) as [g'|e]; [|done].
  injection Hest as ->. done.
Qed.



(** ** Checks made before anything is sent *)

(** X12: in native mode the balance is checked against the total of the working
    set before any transfer: a balance below the total ends the run with
    the "Insufficient native balance" error, the balance query being the
    last invocation made. *)
Theorem insufficient_native_balance_stops_the_run (rem : Remote) (host : Host)
    (write_error : nat -> option Error) (cfg : Config) (entries : list Recipient)
    (w w1 : World) (p : Prepared) (balance : Z) (n1 : Net) :
  prepare rem host cfg entries w = (Ok p, w1) ->
  isNative cfg = true ->
  retried rem cfg reply_num (GetBalance (wallet_address p)) (net w1) = (Ok balance, n1) ->
  balance < sumAmounts (map amt (validEntries (tally p))) ->
  (main rem host write_error cfg entries w).1
  = Throw (js_error ("Insufficient native balance. Required: "
                     +:+ pretty (sumAmounts (map amt (validEntries (tally p))))
                     +:+ ", Available: " +:+ pretty balance))
  /\ net (main rem host write_error cfg entries w).2 = n1
  /\ transferred (calls (history n1)) = transferred (calls (history (net w))).
Proof.
  intros Hprep Hnative Hbalance Hlow.
  destruct (emits_prepare rem host cfg entries w) as (cs0 & Hcs0 & Hall0).
  rewrite Hprep in Hcs0. simpl in Hcs0.
  assert (H0 : transferred cs0 = []).
  { apply transferred_none. eapply Forall_impl; [exact Hall0|].
    intros [req ok] Hreq. simpl in *. by destruct req. }
  pose proof (retried_transferred rem cfg reply_num (GetBalance (wallet_address p)) (net w1))
    as Hquery.
  rewrite Hbalance in Hquery. cbn [fst snd] in Hquery.
  assert (Hmain : main rem host write_error cfg entries w
                  = (Throw (js_error ("Insufficient native balance. Required: "
                                      +:+ pretty (sumAmounts (map amt (validEntries (tally p))))
                                      +:+ ", Available: " +:+ pretty balance)),
                     {| net := n1; file := file w1; nwrites := nwrites w1;
                        fslog := fslog w1; console := console w1 |})).
  { assert (Hfunds : ensureFunds rem cfg (wallet_address p) (totalOf p) (net w1)
                     = (Throw (js_error ("Insufficient native balance. Required: "
                                         +:+ pretty (sumAmounts
                                                       (map amt (validEntries (tally p))))
                                         +:+ ", Available: " +:+ pretty balance)), n1)).
    { unfold ensureFunds, totalOf. rewrite Hnative. cbn [negb].
      unfold bind at 1. rewrite Hbalance.
      apply Z.ltb_lt in Hlow. by rewrite Hlow. }
    unfold main. unfold bind at 1. rewrite Hprep.
    unfold bind at 1. by rewrite lift_run, Hfunds. }
  rewrite Hmain. cbn [fst snd net].
  split; [done|]. split; [done|].
  rewrite Hquery, Hcs0, transferred_app, H0. simpl. by rewrite !app_nil_r.
Qed.

Lemma insufficient_native_balance_stops_the_run_witness :
  (main steady_remote sample_host never_fails (sample_config 5 true None false)
     [mkRecipient "0xA" "1"] (world0 None)).1
  = Throw (js_error ("Insufficient native balance. Required: "
                     +:+ pretty (sumAmounts (map amt [mkEntry "0xA" "1" (10 ^ 18)]))
                     +:+ ", Available: " +:+ pretty 100))
  /\ net (main steady_remote sample_host never_fails (sample_config 5 true None false)
            [mkRecipient "0xA" "1"] (world0 None)).2
     = (retried steady_remote (sample_config 5 true None false) reply_num
          (GetBalance "0xme") net0).2
  /\ transferred
       (calls (history (retried steady_remote (sample_config 5 true None false) reply_num
                          (GetBalance "0xme") net0).2))
     = transferred (calls (history (net (world0 None)))).
Proof.
  refine (insufficient_native_balance_stops_the_run steady_remote sample_host never_fails
            (sample_config 5 true None false) [mkRecipient "0xA" "1"] (world0 None) _
            {| wallet_address := "0xme"; checkpoints0 := ∅; sentKeys0 := [];
               tally := {| validEntries := [mkEntry "0xA" "1" (10 ^ 18)];
                           skippedInvalid := 0; skippedZero := 0 |} |}
            100
            (retried steady_remote (sample_config 5 true None false) reply_num
               (GetBalance "0xme") net0).2 _ _ _ _);
    [vm_compute; reflexivity|reflexivity|vm_compute; reflexivity|vm_compute; reflexivity].
Defined.

(** X13: A list in which no address occurs twice, in canonical form, passes
    the duplicate check: the check reports nothing it has not seen twice,
    and entries whose address [getAddress] rejects never count. *)
Theorem distinct_addresses_pass_the_check (host : Host) (entries : list Recipient)
    (w : World) :
  NoDup (canonical host (map address entries)) ->
  checkDuplicates host entries w = (Ok tt, w).
Proof.
  intros Hnodup. unfold checkDuplicates. by rewrite scanDuplicates_NoDup.
Qed.

Lemma distinct_addresses_pass_the_check_witness :
  checkDuplicates sample_host [mkRecipient "0xA" "1"; mkRecipient "0xB" "1"] (world0 None)
  = (Ok tt, world0 None).
Proof.
  apply (distinct_addresses_pass_the_check sample_host
           [mkRecipient "0xA" "1"; mkRecipient "0xB" "1"] (world0 None)).
  apply (bool_decide_unpack _). by vm_compute.
Defined.

(** ** The UI: what the entries are and what is sent *)

Section chunk_map_facts.
Context {A B : Type}.
Variable f : A -> B.

Lemma slice_map (l : list A) (i j : Z) : slice (map f l) i j = map f (slice l i j).
Proof. unfold slice. by rewrite length_map, skipn_map, firstn_map. Qed.

Lemma chunk_loop_map fuel (l : list A) (size i : Z) cs :
  chunk_loop fuel (map f l) size i (map (map f) cs)
  = option_map (map (map f)) (chunk_loop fuel l size i cs).
Proof.
  revert i cs. induction fuel as [|fuel IH]; intros i cs; simpl; rewrite length_map.
  - by destruct (i <? Z.of_nat (length l)).
  - destruct (i <? Z.of_nat (length l)); [|done].
    rewrite <- IH, map_app, slice_map. done.
Qed.

(** Cutting the image of a list is the image of cutting the list: the
    recipients and the amounts of the same entries are cut alike. *)
Lemma chunk_map (l : list A) (size : Z) :
  chunk (map f l) size = option_map (map (map f)) (chunk l size).
Proof. unfold chunk. rewrite length_map. apply (chunk_loop_map _ l size 0 []). Qed.
End chunk_map_facts.

Section ui_facts.
Variable rem : Remote.
Variable host : Host.

(** The invariant of the [normalized] loop: the addresses of [out] are
    among [addrs] and pairwise distinct, and every entry added comes from
    a row with that address and a positive parsed amount. *)
Lemma normalizedLoop_entries decimals rows addrs dups out :
  NoDup (map App.p_address out) ->
  (forall e, e ∈ out -> App.p_address e ∈ addrs) ->
  NoDup (map App.p_address
           (App.entries (App.normalizedLoop host decimals rows addrs dups out)))
  /\ forall e,
       e ∈ App.entries (App.normalizedLoop host decimals rows addrs dups out) ->
       e ∈ out
       \/ exists d r,
            decimals = Some d /\ r ∈ rows
            /\ getAddress host (App.address r) = Some (App.p_address e)
            /\ parseUnits host (App.amount r) d = Returns (App.amountWei e)
            /\ App.amountStr e = App.amount r
            /\ 0 < App.amountWei e.
Proof.
  revert addrs dups out.
  induction rows as [|r rest IH]; intros addrs dups out Hnodup Hseen; simpl.
  { split; [done|]. intros e He. by left. }
  assert (Hlater : forall addrs' dups' out',
             NoDup (map App.p_address out') ->
             (forall e, e ∈ out' -> App.p_address e ∈ addrs') ->
             (forall e, e ∈ out' ->
                e ∈ out
                \/ exists d r0,
                     decimals = Some d /\ r0 ∈ r :: rest
                     /\ getAddress host (App.address r0) = Some (App.p_address e)
                     /\ parseUnits host (App.amount r0) d = Returns (App.amountWei e)
                     /\ App.amountStr e = App.amount r0
                     /\ 0 < App.amountWei e) ->
             NoDup (map App.p_address
                      (App.entries (App.normalizedLoop host decimals rest addrs' dups' out')))
             /\ forall e,
                  e ∈ App.entries (App.normalizedLoop host decimals rest addrs' dups' out') ->
                  e ∈ out
                  \/ exists d r0,
                       decimals = Some d /\ r0 ∈ r :: rest
                       /\ getAddress host (App.address r0) = Some (App.p_address e)
                       /\ parseUnits host (App.amount r0) d = Returns (App.amountWei e)
                       /\ App.amountStr e = App.amount r0
                       /\ 0 < App.amountWei e).
  { intros addrs' dups' out' Hnodup' Hseen' Hfrom.
    destruct (IH addrs' dups' out' Hnodup' Hseen') as [Hdistinct Hentries].
    split; [done|]. intros e He.
    destruct (Hentries e He) as [Hout|(d & r0 & Hd & Hr0 & Hrest)]; [by apply Hfrom|].
    right. exists d, r0. split; [done|]. split; [by right|done]. }
  assert (Hkeep : forall e, e ∈ out ->
             e ∈ out
             \/ exists d r0,
                  decimals = Some d /\ r0 ∈ r :: rest
                  /\ getAddress host (App.address r0) = Some (App.p_address e)
                  /\ parseUnits host (App.amount r0) d = Returns (App.amountWei e)
                  /\ App.amountStr e = App.amount r0
                  /\ 0 < App.amountWei e) by (intros; by left).
  destruct (getAddress host (App.address r)) as [addr|] eqn:Haddr; [|apply Hlater; [done|done|exact Hkeep]].
  destruct (set_has addr addrs) eqn:Hhas; [apply Hlater; [done|done|exact Hkeep]|].
  assert (Hin : addr ∉ addrs) by (by apply bool_decide_eq_false in Hhas).
  assert (Hseen' : forall e, e ∈ out -> App.p_address e ∈ set_add addr addrs).
  { intros e He. apply set_add_elem. left. by apply Hseen. }
  destruct decimals as [d|]; [|apply Hlater; [done|done|exact Hkeep]].
  destruct (parseUnits host (App.amount r) d) as [wei|err] eqn:Hparse; [|apply Hlater; [done|done|exact Hkeep]].
  destruct (wei <=? 0) eqn:Hpos; [apply Hlater; [done|done|exact Hkeep]|].
  apply Hlater.
  - rewrite map_app. simpl. apply NoDup_app. split; [done|]. split; [|apply NoDup_singleton].
    intros a Ha ->%list_elem_of_singleton.
    apply list_elem_of_fmap in Ha as (e & -> & He). apply Hin. by apply Hseen.
  - intros e [He| ->%list_elem_of_singleton]%elem_of_app; [by apply Hseen'|].
    simpl. apply set_add_elem. by right.
  - intros e [He| ->%list_elem_of_singleton]%elem_of_app; [by left|].
    right. exists d, r. simpl. split; [done|]. split; [by left|].
    split; [done|]. split; [done|]. split; [done|]. lia.
Qed.
End ui_facts.

(** X14: the entries the UI sends: their addresses are pairwise distinct in
    canonical form, and each comes from a row with that address whose
    amount, parsed with the token decimals, is positive; with no decimals
    fetched there is no entry. *)
Theorem ui_entries_are_distinct_and_positive (host : Host) (st : App.AppState) :
  NoDup (map App.p_address (App.entries (App.normalized host st)))
  /\ (forall e,
        e ∈ App.entries (App.normalized host st) ->
        exists d r,
          App.decimals st = Some d /\ r ∈ App.rows st
          /\ getAddress host (App.address r) = Some (App.p_address e)
          /\ parseUnits host (App.amount r) d = Returns (App.amountWei e)
          /\ App.amountStr e = App.amount r
          /\ 0 < App.amountWei e)
  /\ (App.decimals st = None -> App.entries (App.normalized host st) = []).
Proof.
  unfold App.normalized.
  destruct (normalizedLoop_entries host (App.decimals st) (App.rows st) [] [] [])
    as [Hdistinct Hentries]; [constructor|by intros e ?%elem_of_nil|].
  split; [done|]. split.
  - intros e He. destruct (Hentries e He) as [?%elem_of_nil|Hrow]; done.
  - intros Hnone.
    destruct (App.entries (App.normalizedLoop host (App.decimals st) (App.rows st) [] [] []))
      as [|e es] eqn:Hes; [done|].
    destruct (Hentries e ltac:(left)) as [?%elem_of_nil|(d & r & Hd & _)]; [done|].
    congruence.
Qed.

Section ui_sending_facts.
Variable rem : Remote.
Variable host : Host.

(** One turn of the UI's sending loop: the transfer is rejected and the
    loop throws; or it returns and the wait throws; or both return and the
    loop goes on with the next chunk. *)
Lemma sendLoop_step st total i r rest aChunks a pg :
  aChunks !! i = Some a ->
  let before := transferred (calls (history (App.page_net pg))) in
  (exists e pg1,
      App.sendLoop rem st total i (r :: rest) aChunks pg = (Throw e, pg1)
      /\ transferred (calls (history (App.page_net pg1))) = before)
  \/ (exists e pg2,
        App.sendLoop rem st total i (r :: rest) aChunks pg = (Throw e, pg2)
        /\ transferred (calls (history (App.page_net pg2))) = before ++ [(r, a)])
  \/ (exists pg3,
        App.sendLoop rem st total i (r :: rest) aChunks pg
        = App.sendLoop rem st total (S i) rest aChunks pg3
        /\ transferred (calls (history (App.page_net pg3))) = before ++ [(r, a)]).
Proof.
  intros Hlookup. cbn [App.sendLoop]. rewrite Hlookup.
  unfold bind, App.setStatus, App.update, App.lift, invoke, sleep.
  cbn [fst snd App.page_net App.updates ncalls history].
  destruct (reply_tx rem (ncalls (App.page_net pg)) _) as [tx|e]; cbn.
  - destruct (reply_receipt rem (S (ncalls (App.page_net pg))) _) as [rcpt|e]; cbn.
    + right. right. eexists. split; [reflexivity|]. cbn.
      rewrite !calls_app, !transferred_app. cbn. by rewrite !app_nil_r.
    + right. left. eexists _, _. split; [reflexivity|]. cbn.
      rewrite !calls_app, !transferred_app. cbn. by rewrite !app_nil_r.
  - left. eexists _, _. split; [reflexivity|]. cbn.
    rewrite !calls_app, !transferred_app. cbn. by rewrite !app_nil_r.
Qed.

Lemma sendLoop_progress st total (pre rest : list (list App.ParsedEntry)) pg :
  exists kt : nat,
    (kt <= length rest)%nat
    /\ transferred
         (calls (history
                   (App.page_net
                      (App.sendLoop rem st total (length pre)
                         (map (map App.p_address) rest)
                         (map (map App.amountWei) (pre ++ rest)) pg).2)))
       = transferred (calls (history (App.page_net pg)))
         ++ take kt (map (fun c => (map App.p_address c, map App.amountWei c)) rest)
    /\ ((App.sendLoop rem st total (length pre) (map (map App.p_address) rest)
           (map (map App.amountWei) (pre ++ rest)) pg).1 = Ok tt ->
        kt = length rest)
    /\ (App.sendLoop rem st total (length pre) (map (map App.p_address) rest)
          (map (map App.amountWei) (pre ++ rest)) pg).1 <> Diverge.
Proof.
  revert pre pg. induction rest as [|c rest IH]; intros pre pg.
  { exists 0%nat. simpl. rewrite app_nil_r. done. }
  assert (Hlookup : map (map App.amountWei) (pre ++ c :: rest) !! length pre
                    = Some (map App.amountWei c)).
  { rewrite map_app. simpl.
    rewrite <- (length_map (map App.amountWei) pre). by apply list_lookup_middle. }
  cbn [map].
  destruct (sendLoop_step st total (length pre) (map App.p_address c)
              (map (map App.p_address) rest) _ _ pg Hlookup)
    as [(e & pg1 & -> & Hsame)|[(e & pg2 & -> & Hsent)|(pg3 & -> & Hsent)]];
    cbn [fst snd].
  - exists 0%nat. rewrite Hsame. simpl. rewrite app_nil_r.
    split; [lia|]. done.
  - exists 1%nat. rewrite Hsent. simpl.
    split; [lia|]. split; [by rewrite take_0|]. done.
  - destruct (IH (pre ++ [c]) pg3) as (kt & Hkt & Htrans & Hok & Hdiv).
    rewrite length_app, Nat.add_1_r, <- app_assoc in Htrans, Hok, Hdiv.
    cbn [app] in Htrans, Hok, Hdiv.
    exists (S kt). rewrite Htrans, Hsent, <- app_assoc. simpl.
    split; [lia|]. split; [done|]. split; [|done].
    intros Hdone. by rewrite Hok.
Qed.
End ui_sending_facts.

Section ui_run_facts.
Variable rem : Remote.
Variable host : Host.

(** The prober of the UI makes no transfer, and it never runs forever: it
    returns a size of at least 1 and at most [max(1, maxTry)], or throws. *)
Lemma estimateChunkSize_outcome st recips amts maxTry n :
  transferred (calls (history (App.estimateChunkSize rem st recips amts maxTry n).2))
  = transferred (calls (history n))
  /\ match (App.estimateChunkSize rem st recips amts maxTry n).1 with
     | Ok s => 1 <= s <= Z.max 1 maxTry
     | Throw _ => True
     | Diverge => False
     end.
Proof.
  split.
  - assert (Hquiet : emits id (fun c => is_transfer c.1 = false)
                       (App.estimateChunkSize rem st recips amts maxTry)).
    { rewrite estimateChunkSize_search.
      destruct (_ || _); [apply emits_ret|].
      apply emits_bind; [emits_tac|]. intros latest.
      apply emits_search. intros count. unfold App.estCount. emits_tac. }
    destruct (Hquiet n) as (cs & Hcs & Hall). unfold id in Hcs.
    apply transferred_none in Hall. by rewrite Hcs, transferred_app, Hall, app_nil_r.
  - rewrite estimateChunkSize_search.
    destruct (_ || _); [unfold ret; simpl; lia|].
    unfold bind, invoke.
    destruct (reply_block rem (ncalls n) GetBlockLatest) as [latest|e]; simpl; [|done].
    match goal with |- context [search ?est ?budget ?m ?s] =>
      destruct (search_bounds est budget (estCount_total rem st recips amts) m s)
        as (size & n' & -> & Hsize)
    end.
    done.
Qed.

(** The [try] block of [onSend] after the allowance check: whatever the
    endpoint answers, the transfers that returned are the first [kt]
    chunks of the entries. *)
Lemma sendAll_progress st pg :
  exists (eChunks : list (list App.ParsedEntry)) (kt : nat),
    concat eChunks = App.entries (App.normalized host st)
    /\ Forall (fun c => Z.of_nat (length c) <= 512) eChunks
    /\ transferred (calls (history (App.page_net (App.sendAll rem host st pg).2)))
       = transferred (calls (history (App.page_net pg)))
         ++ take kt (map (fun c => (map App.p_address c, map App.amountWei c)) eChunks)
    /\ ((App.sendAll rem host st pg).1 = Ok tt -> kt = length eChunks)
    /\ (App.sendAll rem host st pg).1 <> Diverge.
Proof.
  set (es := App.entries (App.normalized host st)).
  assert (Hearly : exists eChunks : list (list App.ParsedEntry),
             concat eChunks = es
             /\ Forall (fun c => Z.of_nat (length c) <= 512) eChunks).
  { destruct (chunk_covers es 1 ltac:(lia)) as (eChunks & _ & Hcat & Hsizes).
    exists eChunks. split; [done|].
    eapply Forall_impl; [exact Hsizes|]. simpl. lia. }
  destruct (App.sendAll rem host st pg) as [out pgf] eqn:Hrun. cbn [fst snd].
  unfold App.sendAll in Hrun. fold es in Hrun.
  unfold bind at 1, App.setStatus at 1, App.update at 1 in Hrun.
  cbn [fst snd] in Hrun.
  unfold bind at 1 in Hrun. unfold App.lift at 1 in Hrun. cbn [App.page_net] in Hrun.
  destruct (estimateChunkSize_outcome st (map App.p_address es) (map App.amountWei es)
              (App.defaultMaxTry (map App.p_address es)) (App.page_net pg))
    as [Hquiet Hsize].
  destruct (App.estimateChunkSize rem st (map App.p_address es) (map App.amountWei es)
              (App.defaultMaxTry (map App.p_address es)) (App.page_net pg))
    as [[cSize|e|] n1]; cbn [fst snd] in Hquiet, Hsize, Hrun; [| |done].
  2: { destruct Hearly as (eChunks & Hcat & Hsizes). injection Hrun as <- <-.
       exists eChunks, 0%nat. cbn [App.page_net take]. rewrite Hquiet, app_nil_r. done. }
  clear Hearly.
  unfold bind at 1, App.update at 1 in Hrun. cbn [fst snd] in Hrun.
  unfold bind at 1, App.setStatus at 1, App.update at 1 in Hrun. cbn [fst snd] in Hrun.
  rewrite !App_chunk_same, !chunk_map in Hrun.
  destruct (chunk_covers es cSize ltac:(lia)) as (eChunks & Hchunk & Hcat & Hsizes).
  rewrite Hchunk in Hrun.
  cbn [option_map] in Hrun. unfold bind at 1 in Hrun.
  match type of Hrun with context [App.sendLoop rem st ?total 0%nat _ _ ?pg2] =>
    destruct (sendLoop_progress rem st total [] eChunks pg2)
      as (kt & Hkt & Htrans & Hok & Hdiv)
  end.
  cbn [length app App.page_net] in Htrans, Hok, Hdiv.
  exists eChunks, kt. split; [done|]. split.
  { eapply Forall_impl; [exact Hsizes|]. simpl. intros c Hc.
    unfold App.defaultMaxTry in Hsize. lia. }
  destruct (App.sendLoop rem st _ 0%nat _ _ _) as [[[]|e|] pg3];
    cbn [fst snd] in Htrans, Hok, Hdiv, Hrun.
  - unfold App.setStatus, App.update in Hrun. injection Hrun as <- <-.
    cbn [App.page_net].
    rewrite Htrans, Hquiet. split; [done|]. split; [by intros _; apply Hok|done].
  - injection Hrun as <- <-. rewrite Htrans, Hquiet. done.
  - done.
Qed.
End ui_run_facts.

(** X15: the UI sends the entries in order and in chunks of at most 512: the
    transfers that returned are the first [kt] chunks whatever ended the
    sending, all of them when it completed, and it always ends. *)
Theorem ui_transfers_follow_the_entries (rem : Remote) (host : Host)
    (st : App.AppState) (pg : App.Page) :
  exists (eChunks : list (list App.ParsedEntry)) (kt : nat),
    concat eChunks = App.entries (App.normalized host st)
    /\ Forall (fun c => Z.of_nat (length c) <= 512) eChunks
    /\ transferred (calls (history (App.page_net (App.sendAll rem host st pg).2)))
       = transferred (calls (history (App.page_net pg)))
         ++ take kt (map (fun c => (map App.p_address c, map App.amountWei c)) eChunks)
    /\ ((App.sendAll rem host st pg).1 = Ok tt -> kt = length eChunks)
    /\ (App.sendAll rem host st pg).1 <> Diverge.
Proof. apply sendAll_progress. Qed.

(** ** The UI handler always settles *)

Section reports_facts.
Variable P : App.UiEvent -> Prop.

Lemma reports_ret {A} (a : A) : reports P (ret a).
Proof. intros pg. exists []. by rewrite app_nil_r. Qed.

Lemma reports_throw {A} e : reports P (throw (A := A) e).
Proof. intros pg. exists []. by rewrite app_nil_r. Qed.

Lemma reports_diverge {A} : reports P (diverge (A := A)).
Proof. intros pg. exists []. by rewrite app_nil_r. Qed.

Lemma reports_update ev : P ev -> reports P (App.update ev).
Proof. intros Hev pg. exists [ev]. split; [done|]. by constructor. Qed.

Lemma reports_lift {A} (m : St Net A) : reports P (App.lift m).
Proof.
  intros pg. exists []. unfold App.lift. destruct (m (App.page_net pg)). simpl.
  by rewrite app_nil_r.
Qed.

Lemma reports_bind {A B} (m : St App.Page A) (k : A -> St App.Page B) :
  reports P m -> (forall a, reports P (k a)) -> reports P (let* x := m in k x).
Proof.
  intros Hm Hk pg. unfold bind. destruct (Hm pg) as (ups & Hups & Hall).
  destruct (m pg) as [[a|e|] pg1]; simpl in *; [|by exists ups..].
  destruct (Hk a pg1) as (ups' & Hups' & Hall'). exists (ups ++ ups').
  rewrite Hups', Hups, <- app_assoc. split; [done|]. by apply Forall_app.
Qed.

Lemma reports_try_catch {A} (m : St App.Page A) (h : Error -> St App.Page A) :
  reports P m -> (forall e, reports P (h e)) -> reports P (try_catch m h).
Proof.
  intros Hm Hh pg. unfold try_catch. destruct (Hm pg) as (ups & Hups & Hall).
  destruct (m pg) as [[a|e|] pg1]; simpl in *; [by exists ups| |by exists ups].
  destruct (Hh e pg1) as (ups' & Hups' & Hall'). exists (ups ++ ups').
  rewrite Hups', Hups, <- app_assoc. split; [done|]. by apply Forall_app.
Qed.
End reports_facts.

Ltac reports_tac :=
  repeat first
    [ apply reports_ret | apply reports_throw | apply reports_diverge
    | apply reports_lift
    | apply reports_update; exact I
    | apply reports_bind; [|intros ?]
    | apply reports_try_catch; [|intros ?]
    | match goal with |- reports _ (if ?b then _ else _) => destruct b end
    | match goal with |- reports _ (match ?x with _ => _ end) => destruct x end ].

Section settle_facts.
Variable rem : Remote.
Variable host : Host.

Lemma reports_sendLoop st total i todo aChunks :
  reports keeps_sending (App.sendLoop rem st total i todo aChunks).
Proof.
  revert i. induction todo as [|r rest IH]; intros i; simpl; [apply reports_ret|].
  destruct (aChunks !! i); [|apply reports_throw].
  unfold App.setStatus.
  repeat (apply reports_bind; [reports_tac|intros ?]). apply IH.
Qed.

Lemma reports_try_block st :
  reports keeps_sending
    (try_catch (App.approveIfNeeded rem host st;; App.sendAll rem host st)
       (fun e => App.setStatus ("Send failed: " +:+ App.errMsg e))).
Proof.
  apply reports_try_catch; [|intros e; unfold App.setStatus; reports_tac].
  apply reports_bind; [unfold App.approveIfNeeded, App.setStatus; reports_tac|intros _].
  unfold App.sendAll, App.setStatus.
  apply reports_bind; [reports_tac|intros _].
  apply reports_bind; [reports_tac|intros cSize].
  apply reports_bind; [reports_tac|intros _].
  apply reports_bind; [reports_tac|intros _].
  destruct (App_chunk.chunk _ cSize) as [rChunks|]; [|apply reports_diverge].
  destruct (App_chunk.chunk _ cSize) as [aChunks|]; [|apply reports_diverge].
  apply reports_bind; [apply reports_sendLoop|intros _]. reports_tac.
Qed.

Lemma approveIfNeeded_settles st pg :
  (App.approveIfNeeded rem host st pg).1 <> Diverge.
Proof.
  unfold App.approveIfNeeded, bind, App.lift, invoke, App.setStatus, App.update.
  cbn [fst snd App.page_net App.updates ncalls].
  destruct (reply_account rem _ _); cbn; [|done].
  destruct (reply_num rem _ _); cbn; [|done].
  destruct (_ <? _); cbn; [|done].
  destruct (reply_tx rem _ _); cbn; [|done].
  destruct (reply_receipt rem _ _); cbn; done.
Qed.

Lemma try_block_settles st pg :
  (try_catch (App.approveIfNeeded rem host st;; App.sendAll rem host st)
     (fun e => App.setStatus ("Send failed: " +:+ App.errMsg e)) pg).1 = Ok tt.
Proof.
  unfold try_catch, bind.
  pose proof (approveIfNeeded_settles st pg) as Happrove.
  destruct (App.approveIfNeeded rem host st pg) as [[[]|e|] pg1]; cbn [fst snd] in *;
    [|done..].
  destruct (sendAll_progress rem host st pg1) as (_ & _ & _ & _ & _ & _ & Hsend).
  destruct (App.sendAll rem host st pg1) as [[[]|e|] pg2]; done.
Qed.
(** [onSend] from a state in which it can start, and from one in which it
    cannot. *)
Lemma onSend_run st pg :
  if ready host st then
    App.onSend rem host st pg
    = finally
        (try_catch (App.approveIfNeeded rem host st;; App.sendAll rem host st)
           (fun e => App.setStatus ("Send failed: " +:+ App.errMsg e)))
        (fun p => {| App.page_net := App.page_net p;
                     App.updates := App.updates p ++ [App.SetSending false] |})
        {| App.page_net := App.page_net pg;
           App.updates := App.updates pg ++ [App.SetSending true] |}
  else
    exists msg,
      App.onSend rem host st pg
      = (Ok tt, {| App.page_net := App.page_net pg;
                   App.updates := App.updates pg ++ [App.SetStatus msg] |}).
Proof.
  unfold App.onSend, ready.
  destruct (App.connected st); cbn [negb andb]; [|by eexists].
  destruct (truthy (App.tokenAddress st)); cbn [negb andb orb]; [|by eexists].
  destruct (truthy (App.batchAddress st)); cbn [negb andb orb]; [|by eexists].
  destruct (App.decimals st) as [d|] eqn:Hd.
  2: { rewrite bool_decide_eq_false_2 by (by intros [? ?]). by eexists. }
  rewrite bool_decide_eq_true_2 by (by eexists). cbn [andb].
  rewrite length_map.
  destruct (length (App.entries (App.normalized host st)) =? 0)%nat; cbn [negb];
    [by eexists|].
  reflexivity.
Qed.
End settle_facts.

(** X16: [onSend] never throws and never hangs, whatever the endpoint answers:
    a request that cannot start sets one status line and invokes nothing;
    one that starts sets [sending] to true first and to false last, and
    nowhere in between, so the UI is never left locked. *)
Theorem onSend_always_settles (rem : Remote) (host : Host) (st : App.AppState)
    (pg : App.Page) :
  (App.onSend rem host st pg).1 = Ok tt
  /\ if ready host st then
       exists mid,
         App.updates (App.onSend rem host st pg).2
         = App.updates pg ++ App.SetSending true :: mid ++ [App.SetSending false]
         /\ Forall keeps_sending mid
     else
       (exists msg,
           App.updates (App.onSend rem host st pg).2 = App.updates pg ++ [App.SetStatus msg])
       /\ App.page_net (App.onSend rem host st pg).2 = App.page_net pg.
Proof.
  pose proof (onSend_run rem host st pg) as Hrun.
  destruct (ready host st).
  - rewrite Hrun. unfold finally.
    match goal with |- context [try_catch ?m ?h ?pg1] =>
      pose proof (try_block_settles rem host st pg1) as Hok;
      destruct (reports_try_block rem host st pg1) as (mid & Hmid & Hall);
      destruct (try_catch m h pg1) as [out pg2]
    end.
    cbn [fst snd App.updates] in *. subst out. split; [done|].
    exists mid. rewrite Hmid, <- !app_assoc. done.
  - destruct Hrun as (msg & ->). cbn [fst snd App.updates App.page_net].
    split; [done|]. split; [by exists msg|done].
Qed.
(** ** Text helpers *)

Section text_facts.

Lemma append_cons c (s t : string) : String c s +:+ t = String c (s +:+ t).
Proof. reflexivity. Qed.

Lemma append_nil (t : string) : EmptyString +:+ t = t.
Proof. reflexivity. Qed.

Lemma append_empty (s : string) : s +:+ EmptyString = s.
Proof. induction s as [|c s IH]; [done|]. by rewrite append_cons, IH. Qed.

Lemma trimStart_idem s : trimStart (trimStart s) = trimStart s.
Proof.
  induction s as [|c s IH]; [done|]. simpl.
  destruct (is_space c) eqn:Hc; [done|]. simpl. by rewrite Hc.
Qed.

Lemma trimEnd_idem s : trimEnd (trimEnd s) = trimEnd s.
Proof.
  induction s as [|c s IH]; [done|]. simpl.
  destruct (trimEnd s) as [|c' t] eqn:Ht.
  - destruct (is_space c) eqn:Hc; [done|]. simpl. by rewrite Hc.
  - change (trimEnd (String c (String c' t)))
      with (match trimEnd (String c' t) with
            | EmptyString => if is_space c then EmptyString else String c EmptyString
            | t' => String c t'
            end).
    by rewrite IH.
Qed.

Lemma trimStart_trimEnd s : trimStart (trimEnd s) = trimEnd (trimStart s).
Proof.
  induction s as [|c s IH]; [done|].
  cbn [trimStart trimEnd].
  destruct (is_space c) eqn:Hc.
  - rewrite <- IH. destruct (trimEnd s) as [|c' t]; [done|]. simpl. by rewrite Hc.
  - cbn [trimEnd]. destruct (trimEnd s) as [|c' t]; simpl; by rewrite Hc.
Qed.

Lemma trim_idem s : trim (trim s) = trim s.
Proof.
  unfold trim. by rewrite trimStart_trimEnd, trimStart_idem, trimEnd_idem.
Qed.

Lemma trim_trimStart s : trim (trimStart s) = trim s.
Proof. unfold trim. by rewrite trimStart_idem. Qed.

Lemma trim_trimEnd s : trim (trimEnd s) = trim s.
Proof. unfold trim. by rewrite trimStart_trimEnd, trimEnd_idem. Qed.

Lemma trimEnd_empty s : trimEnd s = EmptyString <-> every is_space s = true.
Proof.
  induction s as [|c s IH]; [done|]. simpl.
  destruct (trimEnd s) as [|c' t].
  - destruct (is_space c); simpl; [|split; done]. rewrite <- IH. done.
  - split; [done|]. intros [_ Hs%IH]%andb_true_iff. done.
Qed.

Lemma trimStart_empty s : trimStart s = EmptyString <-> every is_space s = true.
Proof.
  induction s as [|c s IH]; [done|]. simpl.
  destruct (is_space c); simpl; [done|]. split; done.
Qed.

Lemma trim_empty s : trim s = EmptyString <-> every is_space s = true.
Proof.
  unfold trim. rewrite trimEnd_empty.
  induction s as [|c s IH]; [done|]. simpl.
  destruct (is_space c) eqn:Hc; simpl; [done|]. by rewrite Hc.
Qed.

(** A string with no white space at either end is trimmed already. *)
Lemma trimEnd_every P s :
  (forall c, P c = true -> is_space c = false) -> every P s = true -> trimEnd s = s.
Proof.
  intros HP. induction s as [|c s IH]; [done|]. simpl.
  intros [Hc Hs]%andb_true_iff. rewrite (IH Hs), (HP c Hc). by destruct s.
Qed.

Lemma trimStart_every P s :
  (forall c, P c = true -> is_space c = false) -> every P s = true -> trimStart s = s.
Proof.
  intros HP. destruct s as [|c s]; [done|]. simpl.
  intros [Hc Hs]%andb_true_iff. by rewrite (HP c Hc).
Qed.

Lemma trim_every P s :
  (forall c, P c = true -> is_space c = false) -> every P s = true -> trim s = s.
Proof.
  intros HP Hs. unfold trim. by rewrite (trimStart_every P), (trimEnd_every P).
Qed.

Lemma remove_every P c s :
  P c = false -> every P s = true -> remove c s = s.
Proof.
  intros Hc. induction s as [|c' s IH]; [done|]. simpl.
  intros [Hc' Hs]%andb_true_iff.
  destruct (Ascii.eqb_spec c' c) as [->|_]; [congruence|]. by rewrite IH.
Qed.

Lemma every_weaken (P Q : ascii -> bool) s :
  (forall c, P c = true -> Q c = true) -> every P s = true -> every Q s = true.
Proof.
  intros HPQ. induction s as [|c s IH]; [done|]. simpl.
  intros [Hc Hs]%andb_true_iff. by rewrite (HPQ c Hc), IH.
Qed.

Lemma every_app P s t : every P (s +:+ t) = every P s && every P t.
Proof.
  induction s as [|c s IH]; [done|]. rewrite append_cons. simpl. by rewrite IH, andb_assoc.
Qed.

(** The longest run of digits is made of digits, and what is left does
    not start with one. *)
Lemma skipDigits_split s :
  exists ds, s = ds +:+ skipDigits s /\ every is_digit ds = true.
Proof.
  induction s as [|c s (ds & Hs & Hds)]; [by exists EmptyString|]. simpl.
  destruct (is_digit c) eqn:Hc.
  - exists (String c ds). rewrite append_cons. split; [by f_equal|]. simpl. by rewrite Hc.
  - by exists EmptyString.
Qed.

Lemma skipDigits_every s : every is_digit s = true -> skipDigits s = EmptyString.
Proof.
  induction s as [|c s IH]; [done|]. simpl. intros [-> Hs]%andb_true_iff. by apply IH.
Qed.

(** The strings that [/^\d+(\.\d+)?$/] accepts: one or more digits, or
    one or more digits, a dot and one or more digits. *)
Lemma isAmount_shape s :
  isAmount s = true
  <-> exists whole frac,
        every is_digit whole = true /\ whole <> EmptyString
        /\ every is_digit frac = true
        /\ (s = whole \/ (frac <> EmptyString /\ s = whole +:+ "." +:+ frac)).
Proof.
  unfold isAmount, digits. split.
  - destruct s as [|c s]; [done|].
    destruct (is_digit c) eqn:Hc; [|done].
    destruct (skipDigits_split s) as (ds & Hs & Hds).
    destruct (skipDigits s) as [|d rest] eqn:Hrest.
    + intros _. exists (String c ds), EmptyString. simpl. rewrite Hc, Hds.
      split; [done|]. split; [done|]. split; [done|]. left.
      rewrite append_empty in Hs. by subst s.
    + destruct (Ascii.eqb_spec d ".") as [->|Hd]; [|by destruct d as [[] [] [] [] [] [] [] []]].
      destruct rest as [|c' frac]; [done|].
      destruct (is_digit c') eqn:Hc'; [|done].
      destruct (skipDigits_split frac) as (fs & Hfrac & Hfs).
      destruct (skipDigits frac); [|done]. intros _.
      exists (String c ds), (String c' fs). simpl. rewrite Hc, Hds, Hc', Hfs.
      split; [done|]. split; [done|]. split; [done|]. right. split; [done|].
      rewrite append_empty in Hfrac. subst frac s.
      by rewrite !append_cons, append_nil.
  - intros (whole & frac & Hwhole & Hne & Hfrac & [->| [Hfne ->]]).
    + destruct whole as [|c ds]; [done|]. simpl in *.
      apply andb_true_iff in Hwhole as [-> Hds]. by rewrite skipDigits_every.
    + destruct whole as [|c ds]; [done|]. simpl in *.
      apply andb_true_iff in Hwhole as [-> Hds].
      assert (Hskip : skipDigits (ds +:+ String "." frac) = String "." frac).
      { clear -Hds. induction ds as [|d ds IH]; [done|]. simpl in *.
        apply andb_true_iff in Hds as [-> Hds]. by apply IH. }
      change ("." +:+ frac) with (String "." frac).
      rewrite Hskip. destruct frac as [|c' fs]; [done|]. simpl in *.
      apply andb_true_iff in Hfrac as [-> Hfs]. by rewrite skipDigits_every.
Qed.

Lemma isAmount_every s :
  isAmount s = true -> every (fun c => is_digit c || Ascii.eqb c ".") s = true.
Proof.
  intros (whole & frac & Hwhole & _ & Hfrac & [->| [_ ->]])%isAmount_shape.
  - eapply every_weaken; [|exact Hwhole]. by intros c ->.
  - rewrite !every_app. simpl.
    rewrite (every_weaken is_digit _ whole), (every_weaken is_digit _ frac); try done.
    all: by intros c ->.
Qed.

Lemma amount_char_facts c :
  is_digit c || Ascii.eqb c "." = true ->
  is_space c = false /\ Ascii.eqb c "," = false /\ Ascii.eqb c "$" = false.
Proof. destruct c as [[] [] [] [] [] [] [] []]; by vm_compute. Qed.

(** An accepted amount is left as it is by the cleaning steps. *)
Lemma isAmount_clean s :
  isAmount s = true -> trim s = s /\ remove "$" s = s /\ remove "," s = s.
Proof.
  intros Hs%isAmount_every. split; [|split].
  - apply (trim_every _ _ (fun c Hc => proj1 (amount_char_facts c Hc)) Hs).
  - apply (remove_every (fun c => is_digit c || Ascii.eqb c ".")); done.
  - apply (remove_every (fun c => is_digit c || Ascii.eqb c ".")); done.
Qed.

Lemma split_nonempty sep s : split sep s <> [].
Proof.
  destruct s as [|c s]; [done|]. simpl.
  destruct (Ascii.eqb c sep); [done|]. by destruct (split sep s).
Qed.

(** One piece means no separator. *)
Lemma split_single sep s x : split sep s = [x] -> x = s.
Proof.
  revert x. induction s as [|c s IH]; intros x; simpl; [by intros [= <-]|].
  destruct (Ascii.eqb c sep).
  - intros [= _ Hs]. by destruct (split_nonempty sep s).
  - destruct (split sep s) as [|p ps] eqn:Hs; [by destruct (split_nonempty sep s)|].
    intros [= <- ->]. by rewrite (IH p).
Qed.

Lemma split_every sep s :
  every (fun c => negb (Ascii.eqb c sep)) s = true -> split sep s = [s].
Proof.
  induction s as [|c s IH]; [done|]. simpl.
  intros [Hc Hs]%andb_true_iff. apply negb_true_iff in Hc. by rewrite Hc, IH.
Qed.

(** The text before the first separator is the first piece. *)
Lemma split_app sep a b :
  every (fun c => negb (Ascii.eqb c sep)) a = true ->
  split sep (a +:+ String sep b) = a :: split sep b.
Proof.
  induction a as [|c a IH].
  - intros _. rewrite append_nil. simpl. by rewrite Ascii.eqb_refl.
  - cbn [every]. intros [Hc Ha]%andb_true_iff. apply negb_true_iff in Hc.
    rewrite append_cons. cbn [split]. by rewrite Hc, IH.
Qed.

(** Trimming a text at its start trims its first piece. *)
Lemma split_trimStart sep l :
  is_space sep = false ->
  exists p ps, split sep l = p :: ps /\ split sep (trimStart l) = trimStart p :: ps.
Proof.
  intros Hsep. induction l as [|c l (p & ps & Hl & Htrim)]; [by exists EmptyString, []|].
  simpl. destruct (Ascii.eqb_spec c sep) as [->|Hc].
  - rewrite Hsep. exists EmptyString, (split sep l). simpl. by rewrite Ascii.eqb_refl.
  - rewrite Hl. exists (String c p), ps. split; [done|]. simpl.
    destruct (is_space c); [done|]. simpl.
    apply Ascii.eqb_neq in Hc. by rewrite Hc, Hl.
Qed.

Lemma trimEnd_cons c s :
  trimEnd (String c s)
  = if String.eqb (trimEnd s) EmptyString
    then (if is_space c then EmptyString else String c EmptyString)
    else String c (trimEnd s).
Proof. simpl. by destruct (trimEnd s). Qed.

Lemma split_cons sep c s :
  split sep (String c s)
  = if Ascii.eqb c sep then EmptyString :: split sep s
    else match split sep s with
         | p :: ps => String c p :: ps
         | [] => [String c EmptyString]
         end.
Proof. reflexivity. Qed.

(** Trimming a text at its end trims its last piece. *)
Lemma split_trimEnd sep l :
  is_space sep = false ->
  exists init last,
    split sep l = init ++ [last] /\ split sep (trimEnd l) = init ++ [trimEnd last].
Proof.
  intros Hsep.
  induction l as [|c l (init & last & Hl & Htrim)]; [by exists [], EmptyString|].
  rewrite trimEnd_cons, split_cons. destruct (Ascii.eqb_spec c sep) as [->|Hc].
  - exists (EmptyString :: init), last. rewrite Hl. split; [done|]. rewrite Hsep.
    destruct (String.eqb_spec (trimEnd l) EmptyString) as [Ht|Ht].
    + rewrite Ht in Htrim. rewrite split_cons, Ascii.eqb_refl. simpl in Htrim |- *.
      by rewrite <- Htrim.
    + rewrite split_cons, Ascii.eqb_refl. by rewrite Htrim.
  - apply Ascii.eqb_neq in Hc. destruct init as [|p0 init].
    + simpl in Hl, Htrim. rewrite Hl. exists [], (String c last). split; [done|].
      cbn [app]. rewrite trimEnd_cons.
      apply split_single in Htrim as Hlast. rewrite Hlast.
      destruct (String.eqb (trimEnd l) EmptyString).
      * destruct (is_space c); [done|]. by rewrite split_cons, Hc.
      * by rewrite split_cons, Hc, Htrim, Hlast.
    + simpl in Hl, Htrim. rewrite Hl. exists (String c p0 :: init), last.
      split; [done|].
      destruct (String.eqb_spec (trimEnd l) EmptyString) as [Ht|Ht].
      * rewrite Ht in Htrim. simpl in Htrim. by destruct init.
      * by rewrite split_cons, Hc, Htrim.
Qed.

(** The trimmed pieces of a line are those of the trimmed line. *)
Lemma map_trim_split sep l :
  is_space sep = false ->
  map trim (split sep (trim l)) = map trim (split sep l).
Proof.
  intros Hsep. unfold trim at 2.
  destruct (split_trimEnd sep (trimStart l) Hsep) as (init & last & Hl & ->).
  destruct (split_trimStart sep l Hsep) as (p & ps & -> & Hstart).
  rewrite Hstart in Hl. rewrite !map_app. simpl. rewrite trim_trimEnd.
  rewrite <- (trim_trimStart p).
  change (trim (trimStart p) :: map trim ps) with (map trim (trimStart p :: ps)).
  by rewrite Hl, map_app.
Qed.

Lemma is_space_lower c : is_space (ascii_lower c) = is_space c.
Proof. destruct c as [[] [] [] [] [] [] [] []]; by vm_compute. Qed.

Lemma toLowerCase_empty s : toLowerCase s = EmptyString <-> s = EmptyString.
Proof. by destruct s. Qed.

Lemma toLowerCase_trimStart s : toLowerCase (trimStart s) = trimStart (toLowerCase s).
Proof.
  induction s as [|c s IH]; [done|]. simpl. rewrite is_space_lower.
  by destruct (is_space c).
Qed.

Lemma toLowerCase_trimEnd s : toLowerCase (trimEnd s) = trimEnd (toLowerCase s).
Proof.
  induction s as [|c s IH]; [done|].
  change (toLowerCase (String c s)) with (String (ascii_lower c) (toLowerCase s)).
  rewrite !trimEnd_cons, <- IH, is_space_lower.
  destruct (trimEnd s) as [|c' t]; [|done]. simpl. by destruct (is_space c).
Qed.

Lemma toLowerCase_trim s : toLowerCase (trim s) = trim (toLowerCase s).
Proof. unfold trim. by rewrite toLowerCase_trimEnd, toLowerCase_trimStart. Qed.

Lemma prefix_cons a pat c s :
  String.prefix (String a pat) (String c s)
  = if Ascii.eqb a c then String.prefix pat s else false.
Proof.
  simpl. destruct (ascii_dec a c) as [->|Hne].
  - by rewrite Ascii.eqb_refl.
  - apply Ascii.eqb_neq in Hne. by rewrite Hne.
Qed.

(** A pattern without white space matches at the start of a text exactly
    when it does with the end of the text trimmed. *)
Lemma prefix_trimEnd pat s :
  every (fun c => negb (is_space c)) pat = true ->
  String.prefix pat (trimEnd s) = String.prefix pat s.
Proof.
  revert pat. induction s as [|c s IH]; intros pat Hpat; [done|].
  destruct pat as [|a pat]; [by destruct (trimEnd (String c s))|].
  cbn [every] in Hpat. apply andb_true_iff in Hpat as [Ha Hpat].
  apply negb_true_iff in Ha.
  rewrite trimEnd_cons, prefix_cons.
  destruct (String.eqb_spec (trimEnd s) EmptyString) as [Ht|Ht].
  - rewrite <- (IH pat Hpat), Ht.
    destruct (is_space c) eqn:Hc.
    + destruct (Ascii.eqb_spec a c) as [->|_]; [congruence|]. done.
    + by rewrite prefix_cons.
  - by rewrite prefix_cons, IH.
Qed.

Lemma includes_cons pat c s :
  includes pat (String c s) = String.prefix pat (String c s) || includes pat s.
Proof. reflexivity. Qed.

Lemma includes_trimEnd pat s :
  every (fun c => negb (is_space c)) pat = true ->
  includes pat (trimEnd s) = includes pat s.
Proof.
  intros Hpat. induction s as [|c s IH]; [done|].
  rewrite includes_cons, <- (prefix_trimEnd pat (String c s) Hpat), <- IH.
  rewrite trimEnd_cons.
  destruct (String.eqb_spec (trimEnd s) EmptyString) as [Ht|Ht].
  - rewrite Ht. destruct (is_space c).
    + change (includes pat "") with (String.prefix pat "" || false).
      by destruct (String.prefix pat "").
    + by rewrite includes_cons.
  - by rewrite includes_cons.
Qed.

Lemma includes_trimStart pat s :
  every (fun c => negb (is_space c)) pat = true -> pat <> EmptyString ->
  includes pat (trimStart s) = includes pat s.
Proof.
  intros Hpat Hne. induction s as [|c s IH]; [done|].
  cbn [trimStart]. destruct (is_space c) eqn:Hc; [|done].
  rewrite includes_cons, IH.
  destruct pat as [|a pat]; [done|]. rewrite prefix_cons.
  cbn [every] in Hpat. apply andb_true_iff in Hpat as [Ha _].
  apply negb_true_iff in Ha.
  destruct (Ascii.eqb_spec a c) as [->|_]; [congruence|]. done.
Qed.

(** Whether a line is the header does not depend on the white space
    around it. *)
Lemma isHeader_trim l : isHeader (trim l) = isHeader l.
Proof.
  unfold isHeader. rewrite toLowerCase_trim. unfold trim.
  by rewrite !includes_trimEnd, !includes_trimStart.
Qed.

End text_facts.

(** ** What the readers accept *)

Section reader_facts.

Lemma nonBlank_nonempty l : nonBlank l = true -> truthy l = true.
Proof. unfold nonBlank, truthy. by destruct l. Qed.

(** From the second line on, or on a first line that is no header, the
    loop of the UI and the loop of the script read the same rows and fail
    on the same line. *)
Lemma parse_loops_agree i lines rows :
  (i =? 0)%nat && match lines with l :: _ => isHeader l | [] => false end = false ->
  match parseCsvLoop i lines rows, parseCsvLines i lines (map toRecipient rows) with
  | Returns rows', Returns out => out = map toRecipient rows'
  | Rejects _, Rejects _ => True
  | _, _ => False
  end.
Proof.
  revert i rows. induction lines as [|l rest IH]; intros i rows Hhead; [done|].
  cbn [parseCsvLoop parseCsvLines]. rewrite isHeader_trim, Hhead.
  rewrite (map_trim_split "," l eq_refl).
  destruct (split "," l) as [|a [|b extra]]; [done..|].
  cbn [map]. unfold normalizeAmountString. rewrite trim_idem.
  destruct (isAmount (remove "," (remove "$" (trim b)))); cbn [negb]; [|done].
  specialize (IH (S i) (rows ++ [{| App.address := trim a;
                                    App.amount := remove "," (remove "$" (trim b)) |}])
                eq_refl).
  by rewrite map_app in IH.
Qed.

Lemma normalizeAmountString_amount s cleaned :
  normalizeAmountString s = Returns cleaned -> isAmount cleaned = true.
Proof.
  unfold normalizeAmountString.
  destruct (isAmount (remove "," (remove "$" (trim s)))) eqn:Hamount; cbn [negb]; [|done].
  by intros [= <-].
Qed.
End reader_facts.

(** X17: [normalizeAmountString] in full: it answers with the text trimmed and
    with every dollar sign and comma taken out, when that is digits with
    an optional fraction, and such an answer is a fixed point; otherwise it
    throws, naming the text as it was given. *)
Theorem normalizeAmountString_result (amountStr : string) :
  match normalizeAmountString amountStr with
  | Returns cleaned =>
      cleaned = remove "," (remove "$" (trim amountStr))
      /\ (exists whole frac,
             every is_digit whole = true /\ whole <> EmptyString
             /\ every is_digit frac = true
             /\ (cleaned = whole \/ (frac <> EmptyString /\ cleaned = whole +:+ "." +:+ frac)))
      /\ normalizeAmountString cleaned = Returns cleaned
  | Rejects e =>
      e = js_error ("Invalid amount: " +:+ amountStr)
      /\ isAmount (remove "," (remove "$" (trim amountStr))) = false
  end.
Proof.
  unfold normalizeAmountString at 1.
  destruct (isAmount (remove "," (remove "$" (trim amountStr)))) eqn:Hamount; cbn [negb];
    [|done].
  split; [done|]. split; [by apply isAmount_shape|].
  unfold normalizeAmountString.
  destruct (isAmount_clean _ Hamount) as (-> & -> & ->). by rewrite Hamount.
Qed.

(** X18: the UI and the script read a CSV text alike: both return the same
    rows, or both throw. *)
Theorem ui_and_script_read_the_same_rows (text : string) :
  match parseCsv text, parseCsvRecipients text with
  | Returns rows, Returns recipients => recipients = map toRecipient rows
  | Rejects _, Rejects _ => True
  | _, _ => False
  end.
Proof.
  unfold parseCsv, parseCsvRecipients.
  destruct (filter (fun l => Is_true (nonBlank l)) (splitLines text)) as [|l0 rest] eqn:Hlines;
    [done|].
  assert (Hl0 : truthy l0 = true).
  { apply nonBlank_nonempty, Is_true_true.
    assert (Hin : l0 ∈ filter (fun l => Is_true (nonBlank l)) (splitLines text))
      by (rewrite Hlines; left).
    by apply list_elem_of_filter in Hin as [? _]. }
  rewrite Hl0. cbn [andb].
  destruct (isHeader l0) eqn:Hheader.
  - cbn [drop parseCsvLines Nat.eqb andb]. rewrite isHeader_trim, Hheader.
    apply (parse_loops_agree 1 rest []). done.
  - apply (parse_loops_agree 0 (l0 :: rest) []). simpl. by rewrite Hheader.
Qed.

(** X19: A line is read by its first two fields alone: of a one-line text with
    three fields or more, the recipient is the first field and the
    cleaned second field, whatever follows. A thousands separator in the
    amount therefore cuts the amount. *)
Theorem csv_fields_after_the_second_are_ignored (l a b : string) (extra : list string) :
  every (fun c => negb (Ascii.eqb c "010")) l = true ->
  isHeader l = false ->
  split "," l = a :: b :: extra ->
  parseCsvRecipients l
  = match normalizeAmountString (trim b) with
    | Returns amountStr => Returns [{| address := trim a; amountStr := amountStr |}]
    | Rejects e => Rejects e
    end.
Proof.
  intros Hline Hheader Hsplit. unfold parseCsvRecipients, splitLines.
  rewrite (split_every "010" l Hline). cbn [chopCRs].
  assert (Hblank : nonBlank l = true).
  { unfold nonBlank. apply negb_true_iff, String.eqb_neq. intros Hempty%trim_empty.
    rewrite (split_every "," l) in Hsplit; [done|].
    eapply every_weaken; [|exact Hempty].
    intros c Hc. by destruct c as [[] [] [] [] [] [] [] []]. }
  rewrite filter_cons_bool, Hblank. cbn [filter parseCsvLines Nat.eqb andb].
  rewrite isHeader_trim, Hheader, (map_trim_split "," l eq_refl), Hsplit.
  cbn [map]. by destruct (normalizeAmountString (trim b)).
Qed.

Lemma csv_fields_after_the_second_are_ignored_witness :
  parseCsvRecipients "0xA1,1,000"
  = match normalizeAmountString (trim "1") with
    | Returns amountStr => Returns [{| address := trim "0xA1"; amountStr := amountStr |}]
    | Rejects e => Rejects e
    end.
Proof.
  apply (csv_fields_after_the_second_are_ignored "0xA1,1,000" "0xA1" "1" ["000"]);
    reflexivity.
Defined.

(** ** The converter and the readers *)

Section converter_facts.

Lemma chopCR_cons c s :
  chopCR (String c s)
  = match s with
    | EmptyString => if Ascii.eqb c "013" then EmptyString else String c EmptyString
    | _ => String c (chopCR s)
    end.
Proof. by destruct s. Qed.

Lemma chopCR_every P s :
  P "013"%char = false -> every P s = true -> chopCR s = s.
Proof.
  intros HP. induction s as [|c s IH]; [done|]. cbn [every].
  intros [Hc Hs]%andb_true_iff. rewrite chopCR_cons, (IH Hs).
  destruct s; [|done]. destruct (Ascii.eqb_spec c "013") as [->|_]; [congruence|done].
Qed.

Lemma chopCR_append a b : b <> EmptyString -> chopCR (a +:+ b) = a +:+ chopCR b.
Proof.
  intros Hb. induction a as [|c a IH]; [done|].
  rewrite !append_cons, chopCR_cons, IH.
  destruct (a +:+ b) eqn:Hab; [|done]. destruct a; [|done]. by rewrite append_nil in Hab.
Qed.

Lemma chopCRs_id pieces : Forall (fun p => chopCR p = p) pieces -> chopCRs pieces = pieces.
Proof.
  induction 1 as [|p pieces Hp _ IH]; [done|]. cbn [chopCRs].
  destruct pieces; [done|]. by rewrite Hp, IH.
Qed.

Lemma concat_cons sep l l' ls :
  String.concat sep (l :: l' :: ls) = l +:+ sep +:+ String.concat sep (l' :: ls).
Proof. reflexivity. Qed.

(** Lines joined by line feeds split into the same lines. *)
Lemma split_concat ls :
  ls <> [] ->
  Forall (fun l => every (fun c => negb (Ascii.eqb c "010")) l = true) ls ->
  split "010" (String.concat (String "010" "") ls) = ls.
Proof.
  intros Hne Hall. induction Hall as [|l ls Hl Hls IH]; [done|].
  destruct ls as [|l' ls]; [by apply split_every|].
  rewrite concat_cons.
  change (String "010" "" +:+ String.concat (String "010" "") (l' :: ls))
    with (String "010" (String.concat (String "010" "") (l' :: ls))).
  rewrite split_app by done. by rewrite IH.
Qed.

(** [cleanAmount] answers with an accepted amount or with the empty text. *)
Lemma cleanAmount_amount raw :
  cleanAmount raw <> EmptyString -> isAmount (cleanAmount raw) = true.
Proof.
  unfold cleanAmount. destruct raw; try done.
  all: destruct (isAmount _) eqn:Hok; cbn [negb]; done.
Qed.

Lemma normalizeAddress_trim addr : trim (normalizeAddress addr) = normalizeAddress addr.
Proof.
  unfold normalizeAddress. destruct (js_truthy addr); cbn [negb]; [apply trim_idem|done].
Qed.

(** What the loop of [convert] keeps: a trimmed address that is not
    empty, and an amount of digits with an optional fraction. *)
Lemma convertRows_rows data rows0 rows :
  convertRows data rows0 = Returns rows ->
  Forall (fun r => trim (App.address r) = App.address r
                   /\ App.address r <> EmptyString
                   /\ isAmount (App.amount r) = true) rows0 ->
  Forall (fun r => trim (App.address r) = App.address r
                   /\ App.address r <> EmptyString
                   /\ isAmount (App.amount r) = true) rows.
Proof.
  revert rows0. induction data as [|[item|] rest IH]; intros rows0; cbn [convertRows].
  - by intros [= <-].
  - set (address := normalizeAddress _). set (amount := cleanAmount _).
    destruct (truthy address) eqn:Haddress; cbn [negb orb]; [|by apply IH].
    destruct (truthy amount) eqn:Hamount; cbn [negb orb]; [|by apply IH].
    intros Hrun Hrows0. apply (IH _ Hrun). apply Forall_app. split; [done|].
    constructor; [|done]. cbn [App.address App.amount].
    split; [|split].
    + apply normalizeAddress_trim.
    + intros Hempty. by rewrite Hempty in Haddress.
    + apply cleanAmount_amount. intros Hempty. unfold amount in Hamount.
      by rewrite Hempty in Hamount.
  - done.
Qed.

Lemma line_facts (r : App.CsvRow) :
  trim (App.address r) = App.address r ->
  isAmount (App.amount r) = true ->
  plainAddress r ->
  let l := App.address r +:+ "," +:+ App.amount r in
  every (fun c => negb (Ascii.eqb c "010")) l = true
  /\ chopCR l = l
  /\ nonBlank l = true
  /\ truthy l = true
  /\ map trim (split "," l) = [App.address r; App.amount r].
Proof.
  intros Htrim Hamount Hplain l. unfold plainAddress in Hplain.
  pose proof (isAmount_every _ Hamount) as Hchars.
  destruct (isAmount_clean _ Hamount) as (Hclean & _ & _).
  assert (Hline : l = App.address r +:+ String "," (App.amount r)) by done.
  assert (Hblank : nonBlank l = true).
  { unfold nonBlank. apply negb_true_iff, String.eqb_neq. intros Hempty%trim_empty.
    rewrite Hline, every_app in Hempty. cbn [every] in Hempty.
    apply andb_true_iff in Hempty as [_ Hempty]. done. }
  split; [|split; [|split; [|split]]].
  - rewrite Hline, every_app. cbn [every]. apply andb_true_iff. split.
    + eapply every_weaken; [|exact Hplain]. by intros c [_ ?]%andb_true_iff.
    + change (negb ("," =? "010")%char) with true. cbn [andb].
      eapply every_weaken; [|exact Hchars].
      intros c Hc. by destruct c as [[] [] [] [] [] [] [] []].
  - rewrite Hline, chopCR_append by done. f_equal.
    rewrite chopCR_cons. destruct (App.amount r) as [|c amount] eqn:Ha; [done|].
    f_equal. rewrite <- Ha in *.
    apply (chopCR_every (fun c => is_digit c || Ascii.eqb c ".")); done.
  - done.
  - by apply nonBlank_nonempty.
  - rewrite Hline, split_app.
    + rewrite (split_every "," (App.amount r)).
      * cbn [map]. by rewrite Htrim, Hclean.
      * eapply every_weaken; [|exact Hchars].
        intros c Hc. by destruct (amount_char_facts c Hc) as (_ & -> & _).
    + eapply every_weaken; [|exact Hplain]. by intros c [? _]%andb_true_iff.
Qed.

(** The UI's loop reads the lines of well-formed rows back as those rows. *)
Lemma parseCsvLoop_lines i rows0 rows :
  Forall (fun r => trim (App.address r) = App.address r
                   /\ App.address r <> EmptyString
                   /\ isAmount (App.amount r) = true) rows ->
  Forall plainAddress rows ->
  parseCsvLoop i (map (fun r => App.address r +:+ "," +:+ App.amount r) rows) rows0
  = Returns (rows0 ++ rows).
Proof.
  intros Hrows. revert i rows0.
  induction Hrows as [|r rows (Htrim & _ & Hamount) _ IH]; intros i rows0 Hplain.
  { simpl. by rewrite app_nil_r. }
  apply Forall_cons in Hplain as [Hr Hplain].
  destruct (line_facts r Htrim Hamount Hr) as (_ & _ & _ & _ & Hparts).
  cbn [map parseCsvLoop]. cbv zeta in Hparts. rewrite Hparts.
  destruct (isAmount_clean _ Hamount) as (_ & -> & ->). rewrite Hamount. cbn [negb].
  rewrite IH by done. rewrite <- app_assoc. by destruct r.
Qed.

(** The lines of the text the converter builds. *)
Lemma splitLines_csvOf rows :
  Forall (fun r => trim (App.address r) = App.address r
                   /\ App.address r <> EmptyString
                   /\ isAmount (App.amount r) = true) rows ->
  Forall plainAddress rows ->
  splitLines (csvOf rows)
  = "address,amount"%string
    :: match rows with
       | [] => [EmptyString]
       | _ => map (fun r => App.address r +:+ "," +:+ App.amount r) rows
       end.
Proof.
  intros Hrows Hplain. unfold splitLines, csvOf.
  change (("address,amount" +:+ String "010" "") +:+ ?x)
    with ("address,amount" +:+ String "010" x).
  rewrite split_app by done.
  destruct rows as [|r rows]; [done|].
  assert (Hlines : Forall (fun l => every (fun c => negb (Ascii.eqb c "010")) l = true
                                    /\ chopCR l = l)
                     (map (fun r => App.address r +:+ "," +:+ App.amount r) (r :: rows))).
  { apply Forall_fmap. eapply Forall_impl.
    - apply Forall_and. split; [exact Hrows|exact Hplain].
    - intros r' [(Htrim & _ & Hamount) Hr']. simpl.
      by destruct (line_facts r' Htrim Hamount Hr') as (? & ? & _). }
  apply Forall_and in Hlines as [Hlf Hcr].
  rewrite split_concat; [|done|done].
  change (chopCRs ("address,amount"%string :: ?ls))
    with (match ls with
          | _ :: _ => chopCR "address,amount" :: chopCRs ls
          | [] => ["address,amount"%string]
          end).
  cbn [map]. by rewrite chopCRs_id.
Qed.
End converter_facts.

(** X20: what the converter writes, the readers read back: when no address
    holds a comma or a line feed, the UI and the script both read the
    output of [convert] as the rows it kept, in order, and [rowsCount]
    counts them. *)
Theorem converted_file_reads_back (JSON_parse : string -> Reply JsonData)
    (jsonText : string) (data : list (option Item)) (rows : list App.CsvRow) :
  JSON_parse jsonText = Returns (JsonArray data) ->
  convertRows data [] = Returns rows ->
  Forall plainAddress rows ->
  exists csv,
    convert JSON_parse jsonText = Returns csv
    /\ parseCsv csv = Returns rows
    /\ parseCsvRecipients csv = Returns (map toRecipient rows)
    /\ rowsCount csv = Z.of_nat (length rows).
Proof.
  intros Hparse Hrows Hplain. exists (csvOf rows).
  unfold convert. rewrite Hparse, Hrows. split; [done|].
  pose proof (convertRows_rows data [] rows Hrows ltac:(constructor)) as Hwell.
  pose proof (splitLines_csvOf rows Hwell Hplain) as Hlines.
  assert (Hkept : forall (f : string -> bool),
             f "address,amount" = true -> f EmptyString = false ->
             (forall r, trim (App.address r) = App.address r ->
                        isAmount (App.amount r) = true -> plainAddress r ->
                        f (App.address r +:+ "," +:+ App.amount r) = true) ->
             filter (fun l => Is_true (f l)) (splitLines (csvOf rows))
             = "address,amount"%string
               :: map (fun r => App.address r +:+ "," +:+ App.amount r) rows).
  { intros f Hheader Hempty Hline. rewrite Hlines, filter_cons_bool, Hheader. f_equal.
    destruct rows as [|r rows']; [by rewrite filter_cons_bool, Hempty|].
    clear Hlines Hrows.
    induction Hwell as [|r0 rows0 (Htrim & _ & Hamount) _ IH]; [done|].
    apply Forall_cons in Hplain as [Hr0 Hplain].
    cbn [map]. rewrite filter_cons_bool, (Hline r0 Htrim Hamount Hr0). f_equal.
    by apply IH. }
  assert (Hui : parseCsv (csvOf rows) = Returns rows).
  { unfold parseCsv. rewrite (Hkept nonBlank); [| done | done |].
    - change (truthy "address,amount" && isHeader "address,amount") with true.
      change (if true then 1%nat else 0%nat) with 1%nat.
      cbn [drop]. rewrite drop_0. by rewrite parseCsvLoop_lines.
    - intros r Htrim Hamount Hr. by destruct (line_facts r Htrim Hamount Hr) as (_ & _ & ? & _). }
  split; [done|]. split.
  - unfold parseCsv in Hui. unfold parseCsvRecipients.
    rewrite (Hkept nonBlank) in Hui |- *; [| done | done | | done | done |].
    2,3: intros r Htrim Hamount Hr;
         by destruct (line_facts r Htrim Hamount Hr) as (_ & _ & ? & _).
    change (truthy "address,amount" && isHeader "address,amount") with true in Hui.
    change (if true then 1%nat else 0%nat) with 1%nat in Hui.
    cbn [drop] in Hui. rewrite drop_0 in Hui.
    change (parseCsvLines 0 ("address,amount"%string :: ?ls) [])
      with (parseCsvLines 1 ls []).
    pose proof (parse_loops_agree 1
                  (map (fun r => App.address r +:+ "," +:+ App.amount r) rows) []
                  eq_refl) as Hagree.
    rewrite Hui in Hagree. cbn [map] in Hagree.
    destruct (parseCsvLines 1 _ []) as [out|e]; [by rewrite Hagree|done].
  - unfold rowsCount. rewrite (Hkept truthy); [| done | done |].
    + cbn [length]. rewrite length_map. lia.
    + intros r Htrim Hamount Hr. by destruct (line_facts r Htrim Hamount Hr) as (_ & _ & _ & ? & _).
Qed.

Lemma converted_file_reads_back_witness :
  exists csv,
    convert (fun _ => Returns (JsonArray [Some (mkItem (JString " 0xA1 ") JNull JNull
                                                  (JString "$1,000.50") JNull);
                                          Some (mkItem JNull JNull JNull (JNumber "5") JNull);
                                          Some (mkItem JNull (JString "0xB2") JNull
                                                  JNull (JNumber "0"))]))
      "[...]"
    = Returns csv
    /\ parseCsv csv = Returns [App.mkCsvRow "0xA1" "1000.50"; App.mkCsvRow "0xB2" "0"]
    /\ parseCsvRecipients csv
       = Returns (map toRecipient [App.mkCsvRow "0xA1" "1000.50"; App.mkCsvRow "0xB2" "0"])
    /\ rowsCount csv
       = Z.of_nat (length [App.mkCsvRow "0xA1" "1000.50"; App.mkCsvRow "0xB2" "0"]).
Proof.
  apply (converted_file_reads_back _ "[...]"
           [Some (mkItem (JString " 0xA1 ") JNull JNull (JString "$1,000.50") JNull);
            Some (mkItem JNull JNull JNull (JNumber "5") JNull);
            Some (mkItem JNull (JString "0xB2") JNull JNull (JNumber "0"))]);
    [reflexivity|reflexivity|].
  repeat constructor.
Defined.

(** X21: the JSON reader of the script is strict where the converter skips:
    every recipient it returns has an address that is trimmed and not
    empty and an amount of digits with an optional fraction, one for each
    element of the array, in order. *)
Theorem parseJsonRecipients_result (JSON_parse : string -> Reply JsonData)
    (jsonStr : string) (out : list Recipient) :
  parseJsonRecipients JSON_parse jsonStr = Returns out ->
  exists data,
    JSON_parse jsonStr = Returns (JsonArray data)
    /\ length out = length data
    /\ Forall (fun r => trim (address r) = address r
                        /\ address r <> EmptyString
                        /\ isAmount (amountStr r) = true) out.
Proof.
  unfold parseJsonRecipients.
  destruct (JSON_parse jsonStr) as [[data|]|e]; [|done..].
  intros Hitems. exists data. split; [done|].
  revert out Hitems. generalize 0%nat.
  induction data as [|[item|] rest IH]; intros idx out; cbn [parseJsonItems].
  - by intros [= <-].
  - destruct (normalizeAmountString _) as [cleaned|e] eqn:Hnorm; [|done].
    apply normalizeAmountString_amount in Hnorm as Hshape.
    destruct (truthy (trim _)) eqn:Haddress; cbn [negb orb]; [|done].
    destruct (truthy cleaned); cbn [negb orb]; [|done].
    destruct (parseJsonItems (S idx) rest) as [out'|e] eqn:Hrest; [|done].
    intros [= <-]. destruct (IH (S idx) out' Hrest) as [Hlen Hall].
    split; [simpl; by rewrite Hlen|]. constructor; [|done].
    cbn [address amountStr]. split; [apply trim_idem|]. split; [|done].
    intros Hempty. by rewrite Hempty in Haddress.
  - done.
Qed.

Lemma parseJsonRecipients_result_witness :
  exists data,
    (fun _ : string => Returns (JsonArray [Some (mkItem JNull (JString " 0xA1 ") JNull
                                                   JNull (JString "$1,000"))])) "[...]"
    = Returns (JsonArray data)
    /\ length [mkRecipient "0xA1" "1000"] = length data
    /\ Forall (fun r => trim (address r) = address r
                        /\ address r <> EmptyString
                        /\ isAmount (amountStr r) = true) [mkRecipient "0xA1" "1000"].
Proof.
  apply (parseJsonRecipients_result
           (fun _ => Returns (JsonArray [Some (mkItem JNull (JString " 0xA1 ") JNull
                                                 JNull (JString "$1,000"))]))
           "[...]" [mkRecipient "0xA1" "1000"]).
  reflexivity.
Defined.

(** ** The BatchSender contract *)

Section contract_facts.
Import BatchSender.
Context {Env : Type}.
Variable chain : Chain Env.
Variable this : Z.

Lemma foldl_add_le (amounts : list Z) (t : Z) :
  Forall (fun a => 0 <= a) amounts -> t <= foldl Z.add t amounts.
Proof.
  intros Hall. revert t. induction Hall as [|a amounts Ha _ IH]; intros t; simpl; [lia|].
  specialize (IH (t + a)). lia.
Qed.

(** The checked sum: it is the sum, unless the sum does not fit. *)
Lemma sumLoop_spec (amounts : list Z) (t total : Z) :
  Forall (fun a => 0 <= a) amounts ->
  sumLoop amounts t = Some total
  <-> foldl Z.add t amounts = total /\ (amounts <> [] -> total < uint256_limit).
Proof.
  intros Hall. revert t. induction Hall as [|a amounts Ha Hall IH]; intros t; simpl.
  { split; [by intros [= <-]|by intros [<- _]]. }
  destruct (Z.ltb_spec (t + a) uint256_limit) as [Hfits|Hover].
  - rewrite IH. split; intros [Hsum Hlimit]; (split; [done|]).
    + intros _. destruct amounts as [|a' amounts']; [simpl in Hsum; lia|by apply Hlimit].
    + intros _. by apply Hlimit.
  - split; [done|]. intros [Hsum Hlimit]. specialize (Hlimit ltac:(done)).
    pose proof (foldl_add_le amounts (t + a) Hall). lia.
Qed.

Lemma payments_cons to amt recipients amounts :
  payments (to :: recipients) (amt :: amounts)
  = if amt =? 0 then payments recipients amounts
    else (to, amt) :: payments recipients amounts.
Proof.
  unfold payments. cbn [zip zip_with].
  destruct (Z.eqb_spec amt 0) as [->|Hamt].
  - by rewrite filter_cons_False by (simpl; lia).
  - by rewrite filter_cons_True by done.
Qed.

(** The paying loop on arrays of one length: it ends well exactly when no
    payment goes to the zero address and every value call succeeds, one
    after the other; otherwise a recipient made it fail. *)
Lemma payLoop_spec (pre todo amts : list Z) (env : Env) :
  length todo = length amts ->
  match payLoop chain (length pre) todo (pre ++ amts) env with
  | inr env' =>
      Forall (fun p => p.1 <> 0) (payments todo amts)
      /\ perform (fun p => send_value chain p.1 p.2) (payments todo amts) env = Some env'
  | inl f =>
      (f = Require "Zero recipient" \/ f = Require "ETH transfer failed")
      /\ (Forall (fun p => p.1 <> 0) (payments todo amts) ->
          perform (fun p => send_value chain p.1 p.2) (payments todo amts) env = None)
  end.
Proof.
  revert pre amts env. induction todo as [|to todo IH]; intros pre [|amt amts] env Hlen;
    try done.
  cbn [payLoop]. rewrite list_lookup_middle by done. rewrite payments_cons.
  injection Hlen as Hlen.
  specialize (IH (pre ++ [amt]) amts).
  rewrite length_app, Nat.add_1_r, <- app_assoc in IH. cbn [app] in IH.
  destruct (amt =? 0); [by apply IH|].
  destruct (Z.eqb_spec to 0) as [->|Hto].
  { split; [by left|]. intros Hzero. by apply Forall_cons in Hzero as [? _]. }
  cbn [perform fst snd].
  destruct (send_value chain to amt env) as [env1|]; [|split; [by right|done]].
  specialize (IH env1 Hlen).
  destruct (payLoop chain (S (length pre)) todo (pre ++ amt :: amts) env1) as [f|env'].
  - destruct IH as [Hwhy Hnone]. split; [done|].
    intros Hzero. apply Forall_cons in Hzero as [_ Hzero]. by apply Hnone.
  - destruct IH as [Hzero Hdone]. split; [|done]. by constructor.
Qed.

(** The same for the loop over [transferFrom] calls: a call is taken to
    have succeeded when it returned no data or [true]. *)
Lemma transferLoop_spec (token sender : Z) (pre todo amts : list Z) (env : Env) :
  length todo = length amts ->
  let accepted p env0 :=
    match call_token chain token (TransferFrom sender p.1 p.2) env0 with
    | Some (NoData, env1) | Some (BoolData true, env1) => Some env1
    | _ => None
    end in
  match transferLoop chain token sender (length pre) todo (pre ++ amts) env with
  | inr env' =>
      Forall (fun p => p.1 <> 0) (payments todo amts)
      /\ perform accepted (payments todo amts) env = Some env'
  | inl f =>
      (f = Require "Zero recipient" \/ f = Require "ERC20 call failed"
       \/ f = Require "ERC20 operation returned false" \/ f = DecodeFailed)
      /\ (Forall (fun p => p.1 <> 0) (payments todo amts) ->
          perform accepted (payments todo amts) env = None)
  end.
Proof.
  intros Hlen accepted.
  revert pre amts env Hlen. induction todo as [|to todo IH]; intros pre [|amt amts] env Hlen;
    try done.
  cbn [transferLoop]. rewrite list_lookup_middle by done. rewrite payments_cons.
  injection Hlen as Hlen.
  specialize (IH (pre ++ [amt]) amts).
  rewrite length_app, Nat.add_1_r, <- app_assoc in IH. cbn [app] in IH.
  destruct (amt =? 0); [by apply IH|].
  destruct (Z.eqb_spec to 0) as [->|Hto].
  { split; [by left|]. intros Hzero. by apply Forall_cons in Hzero as [? _]. }
  cbn [perform fst snd]. unfold _safeTransferFrom, _callOptionalReturn, accepted at 1 3.
  cbn [fst snd].
  destruct (call_token chain token (TransferFrom sender to amt) env)
    as [[[|[|]|] env1]|]; try (split; [tauto|done]).
  all: specialize (IH env1 Hlen);
    destruct (transferLoop chain token sender (S (length pre)) todo (pre ++ amt :: amts) env1)
      as [f|env'];
    [destruct IH as [Hwhy Hnone]; split; [done|];
     intros Hzero; apply Forall_cons in Hzero as [_ Hzero]; by apply Hnone
    |destruct IH as [Hzero Hdone]; split; [|done]; by constructor].
Qed.
End contract_facts.

Section batch_facts.
Import BatchSender.

Lemma foldl_add_shift (amounts : list Z) (t : Z) :
  foldl Z.add t amounts = t + foldl Z.add 0 amounts.
Proof.
  revert t. induction amounts as [|a amounts IH]; intros t; simpl; [lia|].
  rewrite (IH (t + a)), (IH (0 + a)). lia.
Qed.

(** Value calls between plain accounts: with the total in hand, every
    call succeeds, and each account ends with what it is owed more, the
    contract with the total less. *)
Lemma perform_plain (this : Z) (recipients amounts : list Z) (bal : Ledger) :
  length recipients = length amounts ->
  Forall (fun a => 0 <= a) amounts ->
  sumAmounts amounts <= bal this ->
  exists bal',
    perform (fun p => send_value (plain this) p.1 p.2) (payments recipients amounts) bal
    = Some bal'
    /\ forall a,
         bal' a = bal a + owed a recipients amounts
                  - (if a =? this then sumAmounts amounts else 0).
Proof.
  unfold sumAmounts. intros Hlen Hall. revert recipients bal Hlen.
  induction Hall as [|amt amounts Hamt Hall IH]; intros [|to recipients] bal Hlen Hheld;
    try done.
  { exists bal. split; [done|]. intros a. simpl. destruct (a =? this); lia. }
  injection Hlen as Hlen. rewrite payments_cons. cbn [foldl] in Hheld |- *.
  rewrite foldl_add_shift in Hheld.
  pose proof (foldl_add_le amounts 0 Hall) as Hrest.
  destruct (Z.eqb_spec amt 0) as [->|Hpos].
  - destruct (IH recipients bal Hlen ltac:(lia)) as (bal' & Hrun & Hbal').
    exists bal'. split; [done|]. intros a. rewrite Hbal'. cbn [owed].
    rewrite (foldl_add_shift amounts (0 + 0)). destruct (to =? a), (a =? this); lia.
  - cbn [perform fst snd send_value plain].
    destruct (Z.ltb_spec (bal this) amt) as [Hshort|_]; [lia|].
    destruct (IH recipients (move this to amt bal) Hlen) as (bal' & Hrun & Hbal').
    { unfold move. rewrite Z.eqb_refl. destruct (this =? to); lia. }
    exists bal'. split; [done|]. intros a. rewrite Hbal'. cbn [owed]. unfold move.
    rewrite (foldl_add_shift amounts (0 + amt)). rewrite (Z.eqb_sym to a).
    destruct (a =? to), (a =? this); lia.
Qed.
End batch_facts.

(** X22: [batchTransferNative] succeeds exactly when the two arrays have one
    length and are not empty, [msg.value] is the sum of the amounts, no
    non-zero amount goes to the zero address, and the value calls, one
    for each non-zero amount in order, all succeed; the chain is then as
    those calls left it, and one event is logged. A zero amount is
    skipped, whatever its recipient. *)
Theorem native_batch_succeeds_exactly_when {Env : Type} (chain : BatchSender.Chain Env)
    (sender value : Z) (recipients amounts : list Z) (env env' : Env)
    (log : list BatchSender.Event) :
  Forall (fun a => 0 <= a) amounts ->
  BatchSender.batchTransferNative chain sender value recipients amounts env
  = BatchSender.Done env' log
  <-> length recipients = length amounts
      /\ recipients <> []
      /\ value = sumAmounts amounts
      /\ value < BatchSender.uint256_limit
      /\ Forall (fun p => p.1 <> 0) (BatchSender.payments recipients amounts)
      /\ BatchSender.perform (fun p => BatchSender.send_value chain p.1 p.2)
           (BatchSender.payments recipients amounts) env = Some env'
      /\ log = [BatchSender.BatchTransferNative sender value
                  (Z.of_nat (length recipients))].
Proof.
  intros Hall. unfold BatchSender.batchTransferNative.
  destruct (Nat.eqb_spec (length recipients) (length amounts)) as [Hlen|Hlen]; cbn [negb].
  2: { split; [done|]. by intros (? & _). }
  destruct recipients as [|to recipients].
  { split; [done|]. by intros (_ & ? & _). }
  cbn [length Nat.ltb Nat.leb negb].
  pose proof (sumLoop_spec amounts 0 (sumAmounts amounts) Hall) as Hsum.
  pose proof (payLoop_spec chain [] (to :: recipients) amounts env Hlen) as Hpay.
  cbn [length app] in Hpay.
  destruct (BatchSender.sumLoop amounts 0) as [total|] eqn:Htotal.
  - apply (sumLoop_spec amounts 0 total Hall) in Htotal as [Htotal Hfits].
    fold (sumAmounts amounts) in Htotal. subst total.
    assert (Hlimit : sumAmounts amounts < BatchSender.uint256_limit).
    { apply Hfits. by destruct amounts. }
    destruct (Z.eqb_spec value (sumAmounts amounts)) as [->|Hvalue]; cbn [negb].
    2: { split; [done|]. by intros (_ & _ & ? & _). }
    destruct (BatchSender.payLoop chain 0 (to :: recipients) amounts env) as [f|env1].
    + destruct Hpay as [_ Hnone]. split; [done|].
      intros (_ & _ & _ & _ & Hzero & Hrun & _). rewrite (Hnone Hzero) in Hrun. done.
    + destruct Hpay as [Hzero Hrun]. split.
      * intros [= <- <-]. done.
      * intros (_ & _ & _ & _ & _ & Hrun' & ->). rewrite Hrun in Hrun'.
        by injection Hrun' as <-.
  - split; [done|]. intros (_ & _ & -> & Hlimit & _).
    discriminate (proj2 Hsum (conj eq_refl (fun _ => Hlimit))).
Qed.

Lemma native_batch_succeeds_exactly_when_witness :
  BatchSender.batchTransferNative (BatchSender.plain 900) 1 7 [11; 0; 12] [3; 0; 4]
    (fun a => if a =? 900 then 7 else 0)
  = BatchSender.Done
      (BatchSender.move 900 12 4
         (BatchSender.move 900 11 3 (fun a => if a =? 900 then 7 else 0)))
      [BatchSender.BatchTransferNative 1 7 3]
  <-> length [11; 0; 12] = length [3; 0; 4]
      /\ [11; 0; 12] <> []
      /\ 7 = sumAmounts [3; 0; 4]
      /\ 7 < BatchSender.uint256_limit
      /\ Forall (fun p => p.1 <> 0) (BatchSender.payments [11; 0; 12] [3; 0; 4])
      /\ BatchSender.perform
           (fun p => BatchSender.send_value (BatchSender.plain 900) p.1 p.2)
           (BatchSender.payments [11; 0; 12] [3; 0; 4])
           (fun a => if a =? 900 then 7 else 0)
         = Some (BatchSender.move 900 12 4
                   (BatchSender.move 900 11 3 (fun a => if a =? 900 then 7 else 0)))
      /\ [BatchSender.BatchTransferNative 1 7 3]
         = [BatchSender.BatchTransferNative 1 7 (Z.of_nat (length [11; 0; 12]))].
Proof.
  apply (native_batch_succeeds_exactly_when (BatchSender.plain 900) 1 7 [11; 0; 12] [3; 0; 4]).
  repeat constructor; lia.
Defined.

(** X23: between plain accounts [batchTransferNative] cannot fail on a
    recipient: with well-formed arguments it succeeds, every account ends
    with what it is owed more, and the contract ends with [msg.value]
    less, that is, with what it held before the call. *)
Theorem native_batch_between_plain_accounts (this sender value : Z)
    (recipients amounts : list Z) (bal : BatchSender.Ledger) :
  Forall (fun a => 0 <= a) amounts ->
  length recipients = length amounts ->
  recipients <> [] ->
  value = sumAmounts amounts ->
  value < BatchSender.uint256_limit ->
  Forall (fun p => p.1 <> 0) (BatchSender.payments recipients amounts) ->
  value <= bal this ->
  exists bal',
    BatchSender.batchTransferNative (BatchSender.plain this) sender value recipients
      amounts bal
    = BatchSender.Done bal'
        [BatchSender.BatchTransferNative sender value (Z.of_nat (length recipients))]
    /\ forall a,
         bal' a = bal a + BatchSender.owed a recipients amounts
                  - (if a =? this then value else 0).
Proof.
  intros Hall Hlen Hne -> Hlimit Hzero Hheld.
  destruct (perform_plain this recipients amounts bal Hlen Hall Hheld)
    as (bal' & Hrun & Hbal').
  exists bal'. split; [|done].
  unfold BatchSender.batchTransferNative.
  rewrite (proj2 (Nat.eqb_eq _ _) Hlen). cbn [negb].
  destruct recipients as [|to recipients]; [done|].
  cbn [length Nat.ltb Nat.leb negb].
  rewrite (proj2 (sumLoop_spec amounts 0 (sumAmounts amounts) Hall)) by done.
  rewrite Z.eqb_refl. cbn [negb].
  pose proof (payLoop_spec (BatchSender.plain this) [] (to :: recipients) amounts bal Hlen)
    as Hpay.
  cbn [length app] in Hpay.
  destruct (BatchSender.payLoop (BatchSender.plain this) 0 (to :: recipients) amounts bal)
    as [f|bal1].
  - destruct Hpay as [_ Hnone]. rewrite (Hnone Hzero) in Hrun. done.
  - destruct Hpay as [_ Hrun']. rewrite Hrun in Hrun'. by injection Hrun' as <-.
Qed.

Lemma native_batch_between_plain_accounts_witness :
  exists bal',
    BatchSender.batchTransferNative (BatchSender.plain 900) 1 7 [11; 0; 11] [3; 0; 4]
      (fun a => if a =? 900 then 10 else 0)
    = BatchSender.Done bal'
        [BatchSender.BatchTransferNative 1 7 (Z.of_nat (length [11; 0; 11]))]
    /\ forall a,
         bal' a = (if a =? 900 then 10 else 0) + BatchSender.owed a [11; 0; 11] [3; 0; 4]
                  - (if a =? 900 then 7 else 0).
Proof.
  apply (native_batch_between_plain_accounts 900 1 7 [11; 0; 11] [3; 0; 4]
           (fun a => if a =? 900 then 10 else 0));
    [repeat constructor; lia|reflexivity|done|reflexivity|reflexivity
    |repeat constructor; simpl; lia|simpl; lia].
Defined.

(** X24: [batchTransferERC20] succeeds exactly when the token is not the zero
    address, the two arrays have one length and are not empty, the sum of
    the amounts fits and the allowance of the contract covers it, no
    non-zero amount goes to the zero address, and the [transferFrom]
    calls, one for each non-zero amount in order, all succeed, each
    returning no data or [true]. *)
Theorem erc20_batch_succeeds_exactly_when {Env : Type} (chain : BatchSender.Chain Env)
    (this sender token : Z) (recipients amounts : list Z) (env env' : Env)
    (log : list BatchSender.Event) :
  Forall (fun a => 0 <= a) amounts ->
  BatchSender.batchTransferERC20 chain this sender token recipients amounts env
  = BatchSender.Done env' log
  <-> token <> 0
      /\ length recipients = length amounts
      /\ recipients <> []
      /\ sumAmounts amounts < BatchSender.uint256_limit
      /\ (exists allowed,
             BatchSender.allowance chain token sender this env = Some allowed
             /\ sumAmounts amounts <= allowed)
      /\ Forall (fun p => p.1 <> 0) (BatchSender.payments recipients amounts)
      /\ BatchSender.perform
           (fun p env0 =>
              match BatchSender.call_token chain token
                      (BatchSender.TransferFrom sender p.1 p.2) env0 with
              | Some (BatchSender.NoData, env1)
              | Some (BatchSender.BoolData true, env1) => Some env1
              | _ => None
              end)
           (BatchSender.payments recipients amounts) env = Some env'
      /\ log = [BatchSender.BatchTransferERC20 token sender (sumAmounts amounts)
                  (Z.of_nat (length recipients))].
Proof.
  intros Hall. unfold BatchSender.batchTransferERC20.
  destruct (Z.eqb_spec token 0) as [Htoken|Htoken].
  { split; [done|]. by intros (? & _). }
  destruct (Nat.eqb_spec (length recipients) (length amounts)) as [Hlen|Hlen]; cbn [negb].
  2: { split; [done|]. by intros (_ & ? & _). }
  destruct recipients as [|to recipients].
  { split; [done|]. by intros (_ & _ & ? & _). }
  cbn [length Nat.ltb Nat.leb negb].
  pose proof (sumLoop_spec amounts 0 (sumAmounts amounts) Hall) as Hsum.
  pose proof (transferLoop_spec chain token sender [] (to :: recipients) amounts env Hlen)
    as Hloop.
  cbn [length app] in Hloop. cbv zeta in Hloop.
  destruct (BatchSender.sumLoop amounts 0) as [total|] eqn:Htotal.
  2: { split; [done|]. intros (_ & _ & _ & Hlimit & _).
       discriminate (proj2 Hsum (conj eq_refl (fun _ => Hlimit))). }
  apply (sumLoop_spec amounts 0 total Hall) in Htotal as [Htotal Hfits].
  fold (sumAmounts amounts) in Htotal. subst total.
  assert (Hlimit : sumAmounts amounts < BatchSender.uint256_limit).
  { apply Hfits. by destruct amounts. }
  destruct (BatchSender.allowance chain token sender this env) as [allowed|].
  2: { split; [done|]. by intros (_ & _ & _ & _ & (? & ? & _) & _). }
  destruct (Z.leb_spec (sumAmounts amounts) allowed) as [Hcovered|Hshort]; cbn [negb].
  2: { split; [done|]. intros (_ & _ & _ & _ & (a & [= <-] & ?) & _). lia. }
  destruct (BatchSender.transferLoop chain token sender 0 (to :: recipients) amounts env)
    as [f|env1].
  - destruct Hloop as [_ Hnone]. split; [done|].
    intros (_ & _ & _ & _ & _ & Hzero & Hrun & _). rewrite (Hnone Hzero) in Hrun. done.
  - destruct Hloop as [Hzero Hrun]. split.
    + intros [= <- <-]. split; [done|]. split; [done|]. split; [done|]. split; [done|].
      split; [by exists allowed|]. done.
    + intros (_ & _ & _ & _ & _ & _ & Hrun' & ->). rewrite Hrun in Hrun'.
      by injection Hrun' as <-.
Qed.

Lemma erc20_batch_succeeds_exactly_when_witness :
  BatchSender.batchTransferERC20 BatchSender.quiet_token 900 1 77 [11; 0; 12] [3; 0; 4] tt
  = BatchSender.Done tt [BatchSender.BatchTransferERC20 77 1 7 3]
  <-> 77 <> 0
      /\ length [11; 0; 12] = length [3; 0; 4]
      /\ [11; 0; 12] <> []
      /\ sumAmounts [3; 0; 4] < BatchSender.uint256_limit
      /\ (exists allowed,
             BatchSender.allowance BatchSender.quiet_token 77 1 900 tt = Some allowed
             /\ sumAmounts [3; 0; 4] <= allowed)
      /\ Forall (fun p => p.1 <> 0) (BatchSender.payments [11; 0; 12] [3; 0; 4])
      /\ BatchSender.perform
           (fun p env0 =>
              match BatchSender.call_token BatchSender.quiet_token 77
                      (BatchSender.TransferFrom 1 p.1 p.2) env0 with
              | Some (BatchSender.NoData, env1)
              | Some (BatchSender.BoolData true, env1) => Some env1
              | _ => None
              end)
           (BatchSender.payments [11; 0; 12] [3; 0; 4]) tt = Some tt
      /\ [BatchSender.BatchTransferERC20 77 1 7 3]
         = [BatchSender.BatchTransferERC20 77 1 (sumAmounts [3; 0; 4])
              (Z.of_nat (length [11; 0; 12]))].
Proof.
  apply (erc20_batch_succeeds_exactly_when BatchSender.quiet_token 900 1 77
           [11; 0; 12] [3; 0; 4]).
  repeat constructor; lia.
Defined.

Section script_and_contract.
Import BatchSender.
Context {Env : Type}.
Variable chain : Chain Env.
Variable this : Z.

Lemma payments_all (recipients amounts : list Z) :
  Forall (fun a => 0 < a) amounts ->
  payments recipients amounts = zip recipients amounts.
Proof.
  intros Hall. revert recipients.
  induction Hall as [|amt amounts Hamt _ IH]; intros [|to recipients]; try done.
  rewrite payments_cons, IH. by destruct (Z.eqb_spec amt 0) as [->|_]; [lia|].
Qed.


End script_and_contract.



(** ** How long a wrapped call takes, and what it does not look at *)

Section retry_time.
Variable rem : Remote.
Variable cfg : Config.
Hypothesis latency_nonneg : forall k, 0 <= latency rem k.


End retry_time.

Section retry_step.
Variable rem : Remote.
Variable cfg : Config.
Context {A : Type}.
Variable reply : Remote -> nat -> Request -> Reply A.
Variable req : Request.

(** One turn of the retry loop. *)
Lemma callWithRetry_loop_step fuel attempt delay n :
  callWithRetry_loop rem cfg (S fuel) (invoke rem reply req) attempt delay n
  = let n1 := (limitPace cfg n).2 in
    let n2 := (invoke rem reply req n1).2 in
    match reply rem (ncalls n1) req with
    | Returns v => (Ok v, n2)
    | Rejects e =>
        if RETRY_MAX_ATTEMPTS cfg <=? attempt + 1 then (Throw e, n2)
        else
          let jitter := random_below rem (ndraws n2) (Z.max 1 (delay / 5)) in
          callWithRetry_loop rem cfg fuel (invoke rem reply req) (attempt + 1)
            (Z.min (delay * 2) (RETRY_MAX_MS cfg))
            (sleep (Z.min (delay + jitter) (RETRY_MAX_MS cfg))
               (random_floor rem (Z.max 1 (delay / 5)) n2).2).2
    end.
Proof.
  cbn [callWithRetry_loop]. unfold try_catch, bind at 1.
  destruct (limitPace_idle cfg n) as (n1 & Hpace & _). rewrite Hpace. cbn [snd].
  assert (Hout : (invoke rem reply req n1).1 = outcome_of (reply rem (ncalls n1) req))
    by done.
  destruct (invoke rem reply req n1) as [out n2]. cbn [fst snd] in *. subst out.
  destruct (reply rem (ncalls n1) req) as [v|e]; cbn [outcome_of]; [done|].
  destruct (RETRY_MAX_ATTEMPTS cfg <=? attempt + 1).
  - by destruct (isRateLimitError e).
  - rewrite andb_false_r. unfold bind at 1, random_floor at 1. unfold bind at 1.
    reflexivity.
Qed.
End retry_step.

Section retry_alike.
Variable cfg : Config.
Context {A : Type}.
Variable reply : Remote -> nat -> Request -> Reply A.
Variable req : Request.
Variables rem rem' : Remote.
Hypothesis Halike : alike reply req rem rem'.

Lemma callWithRetry_loop_alike fuel attempt delay n :
  (callWithRetry_loop rem cfg fuel (invoke rem reply req) attempt delay n).2
  = (callWithRetry_loop rem' cfg fuel (invoke rem' reply req) attempt delay n).2
  /\ match (callWithRetry_loop rem cfg fuel (invoke rem reply req) attempt delay n).1,
           (callWithRetry_loop rem' cfg fuel (invoke rem' reply req) attempt delay n).1 with
     | Ok a, Ok b => a = b
     | Throw _, Throw _ => True
     | Diverge, Diverge => True
     | _, _ => False
     end.
Proof.
  destruct Halike as (Hlatency & Hrandom & Hreply).
  revert attempt delay n. induction fuel as [|fuel IH]; intros attempt delay n; [done|].
  rewrite !callWithRetry_loop_step. cbv zeta.
  set (n1 := (limitPace cfg n).2).
  specialize (Hreply (ncalls n1)).
  assert (Hinvoke : (invoke rem reply req n1).2 = (invoke rem' reply req n1).2).
  { unfold invoke. cbn [snd]. rewrite Hlatency.
    by destruct (reply rem (ncalls n1) req), (reply rem' (ncalls n1) req). }
  rewrite <- Hinvoke.
  destruct (reply rem (ncalls n1) req) as [v|e], (reply rem' (ncalls n1) req) as [v'|e'];
    try done.
  destruct (RETRY_MAX_ATTEMPTS cfg <=? attempt + 1); [done|].
  rewrite <- Hrandom.
  assert (Hdraw : (random_floor rem (Z.max 1 (delay / 5)) (invoke rem reply req n1).2).2
                  = (random_floor rem' (Z.max 1 (delay / 5)) (invoke rem reply req n1).2).2)
    by done.
  rewrite <- Hdraw. apply IH.
Qed.
End retry_alike.



(** X27: the retry policy does not look at the error: against two endpoints
    that differ only in the errors they answer with, as a rate-limit error
    and any other error, a wrapped call makes the same invocations, waits
    the same times and ends in the same state, returning the same value
    or throwing in both. *)
Theorem retry_ignores_the_kind_of_error {A} (cfg : Config)
    (reply : Remote -> nat -> Request -> Reply A) (req : Request)
    (rem rem' : Remote) (n : Net) :
  alike reply req rem rem' ->
  (callWithRetry rem cfg (invoke rem reply req) n).2
  = (callWithRetry rem' cfg (invoke rem' reply req) n).2
  /\ match (callWithRetry rem cfg (invoke rem reply req) n).1,
           (callWithRetry rem' cfg (invoke rem' reply req) n).1 with
     | Ok a, Ok b => a = b
     | Throw _, Throw _ => True
     | Diverge, Diverge => True
     | _, _ => False
     end.
Proof. intros Halike. unfold callWithRetry. by apply callWithRetry_loop_alike. Qed.

Lemma retry_ignores_the_kind_of_error_witness :
  (callWithRetry (flaky_remote 2) (sample_config 5 false None false)
     (invoke (flaky_remote 2) reply_num (TokenDecimals "0xT")) net0).2
  = (callWithRetry (erring_remote (js_error "socket hang up") 2)
       (sample_config 5 false None false)
       (invoke (erring_remote (js_error "socket hang up") 2) reply_num
          (TokenDecimals "0xT")) net0).2
  /\ match (callWithRetry (flaky_remote 2) (sample_config 5 false None false)
              (invoke (flaky_remote 2) reply_num (TokenDecimals "0xT")) net0).1,
           (callWithRetry (erring_remote (js_error "socket hang up") 2)
              (sample_config 5 false None false)
              (invoke (erring_remote (js_error "socket hang up") 2) reply_num
                 (TokenDecimals "0xT")) net0).1 with
     | Ok a, Ok b => a = b
     | Throw _, Throw _ => True
     | Diverge, Diverge => True
     | _, _ => False
     end.
Proof.
  apply (retry_ignores_the_kind_of_error (sample_config 5 false None false) reply_num
           (TokenDecimals "0xT") (flaky_remote 2)
           (erring_remote (js_error "socket hang up") 2) net0).
  split; [done|]. split; [done|]. intros k. simpl. by destruct (k <? 2)%nat.
Defined.

(** ** What a run spends *)

Section spending_facts.
Variable rem : Remote.
Variable host : Host.
Variable cfg : Config.

(** Every amount of the working set is positive. *)
Lemma working_set_positive entries w p w1 :
  prepare rem host cfg entries w = (Ok p, w1) ->
  Forall (fun e => 0 < amt e) (validEntries (tally p)).
Proof.
  intros Hprep.
  destruct (prepare_inversion rem host cfg entries w p w1 Hprep)
    as (_ & _ & _ & _ & (d & _ & Hvalid) & _).
  destruct (validateEntries_filter host cfg d _ entries tally0 (tally p) Hvalid)
    as (Hkept & _).
  cbn [validEntries tally0 app] in Hkept.
  apply Forall_forall. intros e Hin.
  rewrite Hkept in Hin. apply list_elem_of_filter in Hin as [_ Hin].
  apply list_elem_of_omap in Hin as (r & _ & Hr).
  unfold acceptable in Hr. destruct (isAddress host (address r)); [|done].
  destruct (if isNative cfg then _ else _) as [a|]; [|done].
  destruct (Z.leb_spec a 0); [done|]. injection Hr as <-. simpl. lia.
Qed.

Lemma sumAmounts_app (l1 l2 : list Z) :
  sumAmounts (l1 ++ l2) = sumAmounts l1 + sumAmounts l2.
Proof.
  unfold sumAmounts. rewrite foldl_app.
  rewrite (foldl_add_shift l2 (foldl Z.add 0 l1)). done.
Qed.

Lemma sumAmounts_nonneg (l : list Z) : Forall (fun a => 0 < a) l -> 0 <= sumAmounts l.
Proof.
  intros Hall. unfold sumAmounts. apply (foldl_add_le l 0).
  eapply Forall_impl; [exact Hall|]. simpl. lia.
Qed.

Lemma concat_take_drop {A} (k : nat) (ls : list (list A)) :
  concat ls = concat (take k ls) ++ concat (drop k ls).
Proof. by rewrite <- concat_app, take_drop. Qed.
End spending_facts.

(** X28: A run never transfers more than the total it computed, which is what
    it checked the balance against or asked the allowance for: the
    amounts of the transfers that returned sum to at most that total
    whatever ended the run, and to exactly that total, over exactly the
    addresses of the working set, when the run completed. *)
Theorem a_run_spends_its_total_at_most (rem : Remote) (host : Host)
    (write_error : nat -> option Error) (cfg : Config) (entries : list Recipient)
    (w w1 : World) (p : Prepared) :
  prepare rem host cfg entries w = (Ok p, w1) ->
  exists ts,
    transferred (calls (history (net (main rem host write_error cfg entries w).2)))
    = transferred (calls (history (net w))) ++ ts
    /\ sumAmounts (concat (map snd ts)) <= totalOf p
    /\ ((main rem host write_error cfg entries w).1 = Ok tt ->
        sumAmounts (concat (map snd ts)) = totalOf p
        /\ concat (map fst ts) = map e_address (validEntries (tally p))).
Proof.
  intros Hprep.
  pose proof (working_set_positive rem host cfg entries w p w1 Hprep) as Hpos.
  unfold totalOf.
  destruct (main_stages rem host cfg write_error entries w p w1 Hprep)
    as [(Hfail & Hnone & _)
       |(chunkSize & chunks & n4 & _ & _ & Hcat & _ & Hn4 & Hrun & Hok)].
  { exists []. rewrite Hnone, app_nil_r. split; [done|]. split; [|done].
    simpl. apply sumAmounts_nonneg. by apply Forall_fmap. }
  destruct (sendChunks_progress rem host cfg write_error (wallet_address p) 0 chunks
              (sentKeys0 p) (checkpoints0 p)
              {| net := n4; file := file w1; nwrites := nwrites w1;
                 fslog := fslog w1; console := console w1 |})
    as (kt & kw & log & Hk & _ & Htrans & _ & _ & _ & Hall).
  exists (take kt (map (fun c => (map e_address c, map amt c)) chunks)).
  rewrite Hrun, Htrans. cbn [net]. rewrite Hn4. split; [done|].
  assert (Hsnd : forall cs : list (list Entry),
             concat (map snd (map (fun c => (map e_address c, map amt c)) cs))
             = map amt (concat cs)).
  { intros cs. rewrite map_map. simpl. apply concat_map_chunks. }
  assert (Hfst : forall cs : list (list Entry),
             concat (map fst (map (fun c => (map e_address c, map amt c)) cs))
             = map e_address (concat cs)).
  { intros cs. rewrite map_map. simpl. apply concat_map_chunks. }
  rewrite firstn_map, Hsnd, Hfst.
  assert (Hsplit : validEntries (tally p)
                   = concat (take kt chunks) ++ concat (drop kt chunks))
    by (by rewrite <- Hcat, <- concat_take_drop).
  rewrite Hsplit in Hpos |- *.
  apply Forall_app in Hpos as [Hsent Hleft].
  rewrite !map_app, sumAmounts_app.
  pose proof (sumAmounts_nonneg (map amt (concat (drop kt chunks)))) as Hrest.
  specialize (Hrest ltac:(by apply Forall_fmap)).
  split; [lia|]. intros Hdone. apply Hok, Hall in Hdone.
  assert (Hkt : kt = length chunks) by lia. subst kt.
  rewrite drop_all, take_ge by done. simpl. rewrite !app_nil_r. unfold sumAmounts. simpl.
  split; [lia|done].
Qed.

Lemma a_run_spends_its_total_at_most_witness :
  exists ts,
    transferred
      (calls (history
                (net (main steady_remote sample_host never_fails
                        (sample_config 5 false (Some 0) false)
                        [mkRecipient "0xA" "3"; mkRecipient "0xB" "2"; mkRecipient "0xC" "1"]
                        (world0 None)).2)))
    = transferred (calls (history (net (world0 None)))) ++ ts
    /\ sumAmounts (concat (map snd ts))
       <= totalOf {| wallet_address := "0xme"; checkpoints0 := ∅; sentKeys0 := [];
                     tally := {| validEntries := [mkEntry "0xA" "3" 3; mkEntry "0xB" "2" 2;
                                                  mkEntry "0xC" "1" 1];
                                 skippedInvalid := 0; skippedZero := 0 |} |}
    /\ ((main steady_remote sample_host never_fails (sample_config 5 false (Some 0) false)
           [mkRecipient "0xA" "3"; mkRecipient "0xB" "2"; mkRecipient "0xC" "1"]
           (world0 None)).1 = Ok tt ->
        sumAmounts (concat (map snd ts))
        = totalOf {| wallet_address := "0xme"; checkpoints0 := ∅; sentKeys0 := [];
                     tally := {| validEntries := [mkEntry "0xA" "3" 3; mkEntry "0xB" "2" 2;
                                                  mkEntry "0xC" "1" 1];
                                 skippedInvalid := 0; skippedZero := 0 |} |}
        /\ concat (map fst ts)
           = map e_address [mkEntry "0xA" "3" 3; mkEntry "0xB" "2" 2; mkEntry "0xC" "1" 1]).
Proof.
  refine (a_run_spends_its_total_at_most steady_remote sample_host never_fails
            (sample_config 5 false (Some 0) false)
            [mkRecipient "0xA" "3"; mkRecipient "0xB" "2"; mkRecipient "0xC" "1"]
            (world0 None) _
            {| wallet_address := "0xme"; checkpoints0 := ∅; sentKeys0 := [];
               tally := {| validEntries := [mkEntry "0xA" "3" 3; mkEntry "0xB" "2" 2;
                                            mkEntry "0xC" "1" 1];
                           skippedInvalid := 0; skippedZero := 0 |} |} _).
  vm_compute. reflexivity.
Defined.

(** X29: A checkpoint file that is missing, parses to a falsy value or cannot
    be read or parsed counts as an empty checkpoint: the run starts with
    no key recorded, the working set is every recipient with a valid
    address and a positive amount, and a run that completes with its
    writes succeeding replaces the file by a document that holds this
    session alone. *)
Theorem unusable_checkpoint_starts_fresh (rem : Remote) (host : Host)
    (write_error : nat -> option Error) (cfg : Config) (entries : list Recipient)
    (w w1 : World) (p : Prepared) :
  prepare rem host cfg entries w = (Ok p, w1) ->
  DISABLE_CHECKPOINTS cfg = false ->
  file w = None \/ file w = Some JsonFalsy \/ file w = Some Unreadable ->
  checkpoints0 p = ∅
  /\ sentKeys0 p = []
  /\ (exists decimals,
         validEntries (tally p) = omap (acceptable host cfg decimals) entries)
  /\ ((forall k, write_error k = None) ->
      (main rem host write_error cfg entries w).1 = Ok tt ->
      exists doc' sentKeys',
        file (main rem host write_error cfg entries w).2 = Some (JsonDoc doc')
        /\ doc' !! sessionId host cfg (wallet_address p) = Some sentKeys'
        /\ (forall key, key ∈ sentKeys' <-> key ∈ keysOf (validEntries (tally p)))
        /\ (forall sid, sid <> sessionId host cfg (wallet_address p) -> doc' !! sid = None)).
Proof.
  intros Hprep Hon Hfile.
  destruct (prepare_inversion rem host cfg entries w p w1 Hprep)
    as (_ & _ & Hdoc & Hkeys & (d & _ & Hvalid) & Hnonempty & _).
  rewrite Hon in Hdoc.
  assert (Hempty : checkpoints0 p = ∅).
  { rewrite Hdoc. by destruct Hfile as [-> |[-> | ->]]. }
  assert (Hnone : sentKeys0 p = []).
  { by rewrite Hkeys, Hempty, lookup_empty. }
  split; [done|]. split; [done|]. split.
  { exists d.
    destruct (validateEntries_filter host cfg d _ entries tally0 (tally p) Hvalid)
      as (-> & _).
    cbn [validEntries tally0 app]. rewrite Hnone.
    induction (omap (acceptable host cfg d) entries) as [|e es IH]; [done|].
    rewrite filter_cons_bool. unfold unsent at 1. rewrite Hon. cbn. by rewrite IH. }
  intros Hwrite Hdone.
  destruct (main_stages rem host cfg write_error entries w p w1 Hprep)
    as [(Hfail & _)
       |(chunkSize & chunks & n4 & _ & _ & Hcat & _ & _ & Hrun & Hok)]; [done|].
  apply Hok in Hdone as [[sentKeys' doc'] Hsend].
  destruct (sendChunks_completed rem host cfg write_error (wallet_address p) 0 chunks
              (sentKeys0 p) (checkpoints0 p) _ sentKeys' doc' Hon Hsend)
    as (Hset & Hothers & Hlast).
  destruct Hlast as [Hsid Hwritten].
  { intros ->. by apply Hnonempty. }
  exists doc', sentKeys'. rewrite Hrun.
  split; [by apply Hwritten|]. split; [done|]. split.
  - intros key. rewrite Hset, Hcat, Hnone. rewrite elem_of_nil. tauto.
  - intros sid Hsid'. by rewrite Hothers, Hempty, lookup_empty.
Qed.

Lemma unusable_checkpoint_starts_fresh_witness :
  (∅ : Checkpoints) = ∅
  /\ @nil string = []
  /\ (exists decimals,
         [mkEntry "0xA" "1" 1; mkEntry "0xB" "2" 2]
         = omap (acceptable sample_host (sample_config 5 false (Some 0) false) decimals)
             [mkRecipient "0xA" "1"; mkRecipient "0xB" "2"])
  /\ ((forall k, never_fails k = None) ->
      (main steady_remote sample_host never_fails (sample_config 5 false (Some 0) false)
         [mkRecipient "0xA" "1"; mkRecipient "0xB" "2"] (world0 (Some Unreadable))).1
      = Ok tt ->
      exists doc' sentKeys',
        file (main steady_remote sample_host never_fails
                (sample_config 5 false (Some 0) false)
                [mkRecipient "0xA" "1"; mkRecipient "0xB" "2"]
                (world0 (Some Unreadable))).2
        = Some (JsonDoc doc')
        /\ doc' !! sessionId sample_host (sample_config 5 false (Some 0) false) "0xme"
           = Some sentKeys'
        /\ (forall key, key ∈ sentKeys'
                        <-> key ∈ keysOf [mkEntry "0xA" "1" 1; mkEntry "0xB" "2" 2])
        /\ (forall sid,
               sid <> sessionId sample_host (sample_config 5 false (Some 0) false) "0xme" ->
               doc' !! sid = None)).
Proof.
  refine (unusable_checkpoint_starts_fresh steady_remote sample_host never_fails
            (sample_config 5 false (Some 0) false)
            [mkRecipient "0xA" "1"; mkRecipient "0xB" "2"]
            (world0 (Some Unreadable)) _
            {| wallet_address := "0xme"; checkpoints0 := ∅; sentKeys0 := [];
               tally := {| validEntries := [mkEntry "0xA" "1" 1; mkEntry "0xB" "2" 2];
                           skippedInvalid := 0; skippedZero := 0 |} |} _ _ _);
    [vm_compute; reflexivity|reflexivity|right; right; reflexivity].
Defined.
